(** * Prototype selection: DRLSH and ICF

    A shallow embedding of
    [src/algorithms/prototype_selection/drlsh.py] and
    [src/algorithms/prototype_selection/icf.py].

    Conventions.
    - A row index is a [nat]; a label is a [Z]; an integer bucket id is a [Z]
      (the scan writes [-1] into the bucket matrix).
    - A floating-point value is read as the rational it denotes ([Q]): the
      order [<] on finite floats is the order on these rationals.  A
      distance of ICF, which is only ever compared, is a finite float or
      [np.inf] ([Fin], [PInf]); NaN is left out.  The arithmetic of the
      projection of DRLSH (sums, products, the division by [W]) is read as
      exact arithmetic on rationals; [x / 0] is [0] in [Q] where numpy gives
      an infinity or a NaN with a warning.  No statement below depends on
      the value of a projection.
    - The integer labels that [np.hstack] puts beside float features become
      float64 values: [np.to_float64] is that conversion.
    - Calls into numpy's random generator and into scikit-learn, and the
      float power [N ** (1 / 7)], are fields of the class [Library]: every
      statement below holds for any implementation of them.
    - An array is a list; [a[i]] is [a !!! i], [a[i] = v] is [<[i:=v]> a].
      Every index the code reads is in range; [a !!! i] out of range is the
      default of the type.
    - A [while] loop is a recursion on a number of turns; for each loop it is
      proved that the turns allowed reach its exit. *)

From Stdlib Require Import ZArith QArith Qround Lia Lqa List Bool String Sorted.
From stdpp Require Import base list.
Import ListNotations.

#[local] Open Scope nat_scope.

(** ** Values *)

Definition row := list Q.

(** A float that may be [np.inf]. *)
Inductive dist : Type :=
| Fin (d : Q)
| PInf.

#[global] Instance Q_inhabited : Inhabited Q := populate 0%Q.
#[global] Instance dist_inhabited : Inhabited dist := populate PInf.

Definition Qltb (a b : Q) : bool :=
  match (a ?= b)%Q with Lt => true | _ => false end.

(** [d < e] on two floats that may be infinite. *)
Definition lt_dist (d e : dist) : bool :=
  match d, e with
  | Fin p, Fin q => Qltb p q
  | Fin _, PInf => true
  | PInf, _ => false
  end.

(** What [fit] hands back: a value, or the exception raised. *)
Inductive result (A : Type) : Type :=
| Ok (a : A)
| Raise (e : string).
Arguments Ok {A} a.
Arguments Raise {A} e.

(** ** External library calls *)

Class Library := {
  (** [sklearn.metrics.pairwise_distances(X_, metric=name)] *)
  pairwise_distances : string -> list row -> list (list dist);
  (** [MinMaxScaler().fit_transform(F)] *)
  fit_transform : list row -> list row;
  (** the state of numpy's global generator *)
  rng : Type;
  (** [np.random.seed(s)]: the state the generator is reset to *)
  np_random_seed : Z -> rng;
  (** [np.random.normal(0, 1, (r, c))] from a state: the draw, the next state *)
  np_random_normal : rng -> nat -> nat -> list (list Q) * rng;
  (** [np.random.rand(r, c)] from a state: the draw, the next state *)
  np_random_rand : rng -> nat -> nat -> list (list Q) * rng;
  (** [int(n ** (1 / 7))] as double-precision arithmetic evaluates it *)
  int_pow_1_7 : nat -> nat;
  (** the label the [k] nearest neighbours of instance [i] vote for,
      [i] itself left out *)
  kneighbors_vote : nat -> list row -> list Z -> nat -> Z;
}.

(** ** numpy on lists *)

Module np.

(** [a[m]] for a boolean mask [m]. *)
Definition mask_select {A} (a : list A) (m : list bool) : list A :=
  map fst (List.filter snd (zip a m)).

(** [a[idx]] for an integer index array [idx]. *)
Definition take_rows {A} `{Inhabited A} (a : list A) (idx : list nat) : list A :=
  map (fun i => a !!! i) idx.

(** [np.where(m)[0]]. *)
Definition where_ (m : list bool) : list nat :=
  mask_select (seq 0 (length m)) m.

(** Insertion into a strictly increasing list. *)
Fixpoint insert_unique {A} (cmp : A -> A -> comparison) (x : A) (l : list A)
  : list A :=
  match l with
  | [] => [x]
  | h :: t =>
      match cmp x h with
      | Lt => x :: l
      | Eq => l
      | Gt => h :: insert_unique cmp x t
      end
  end.

(** [np.unique(a)]: the sorted distinct elements. *)
Definition unique {A} (cmp : A -> A -> comparison) (a : list A) : list A :=
  fold_right (insert_unique cmp) [] a.

(** [np.isin(a, b)] on row indices. *)
Definition isin (a b : list nat) : list bool :=
  map (fun x => existsb (Nat.eqb x) b) a.

(** [np.setdiff1d(a, b)]. *)
Definition setdiff1d (a b : list nat) : list nat :=
  let a' := unique Nat.compare a in
  let b' := unique Nat.compare b in
  mask_select a' (map negb (isin a' b')).

(** Lexicographic order on integer vectors ([np.unique(_, axis=0)]). *)
Fixpoint lex_compare (u v : list Z) : comparison :=
  match u, v with
  | [], [] => Eq
  | [], _ :: _ => Lt
  | _ :: _, [] => Gt
  | a :: u', b :: v' =>
      match (a ?= b)%Z with
      | Eq => lex_compare u' v'
      | c => c
      end
  end.

(** [x.astype(np.int16)] of an integer-valued float: the low 16 bits of
    the value within the range of int32; beyond it, where the cast of C is
    not defined, numpy on x86-64 gives 0. *)
Definition astype_int16 (z : Z) : Z :=
  if ((-2147483648 <=? z) && (z <=? 2147483647))%Z
  then ((z + 32768) mod 65536 - 32768)%Z
  else 0%Z.

(** An int64 converted to float64, as the integer the float denotes:
    exact up to [2^53] in magnitude, and beyond that rounded to 53
    significant bits, to the nearest and on a tie to the even one. *)
Definition to_float64 (z : Z) : Z :=
  let a := Z.abs z in
  if (a <=? 2 ^ 53)%Z then z
  else
    let e := (Z.log2 a - 52)%Z in
    let q := (a / 2 ^ e)%Z in
    let r := (a mod 2 ^ e)%Z in
    let q' :=
      if ((2 ^ e <? 2 * r) || ((2 * r =? 2 ^ e) && Z.odd q))%Z
      then (q + 1)%Z else q in
    (Z.sgn z * (q' * 2 ^ e))%Z.

End np.

(** ** ICF: iterative case filtering *)

Module ICF.

(** The object: the constructor's attributes, the data [fit] stored and the
    attributes [_fit] assigns. *)
Record self := mk {
  n_neighbors : nat;
  metric : string;
  X : list row;
  y : list Z;
  X_ : list row;
  y_ : list Z;
  mask : list bool;
  distance_nearest_enemy : list dist;
  pairwise_distance : list (list dist);
}.

Definition set_X_ (v : list row) (s : self) : self :=
  mk (n_neighbors s) (metric s) (X s) (y s) v (y_ s) (mask s)
     (distance_nearest_enemy s) (pairwise_distance s).
Definition set_y_ (v : list Z) (s : self) : self :=
  mk (n_neighbors s) (metric s) (X s) (y s) (X_ s) v (mask s)
     (distance_nearest_enemy s) (pairwise_distance s).
Definition set_mask (v : list bool) (s : self) : self :=
  mk (n_neighbors s) (metric s) (X s) (y s) (X_ s) (y_ s) v
     (distance_nearest_enemy s) (pairwise_distance s).
Definition set_distance_nearest_enemy (v : list dist) (s : self) : self :=
  mk (n_neighbors s) (metric s) (X s) (y s) (X_ s) (y_ s) (mask s)
     v (pairwise_distance s).
Definition set_pairwise_distance (v : list (list dist)) (s : self)
  : self :=
  mk (n_neighbors s) (metric s) (X s) (y s) (X_ s) (y_ s) (mask s)
     (distance_nearest_enemy s) v.

(** [ICF(n_neighbors, metric)] followed by the base class storing [X], [y]. *)
Definition init (n_neighbors : nat) (metric : string)
    (X : list row) (y : list Z) : self :=
  mk n_neighbors metric X y [] [] [] [] [].

(** [self.pairwise_distance[idx, idx2]] *)
Definition pd (s : self) (idx idx2 : nat) : dist :=
  (pairwise_distance s !!! idx) !!! idx2.

(** One turn of the inner loop of [_set_distance_nearest_enemy]. *)
Definition nearest_enemy_update (s : self) (idx : nat)
    (dne : list dist) (idx2 : nat) : list dist :=
  if negb (y_ s !!! idx =? y_ s !!! idx2)%Z
     && lt_dist (pd s idx idx2) (dne !!! idx)
  then <[idx := pd s idx idx2]> dne
  else dne.

Definition _set_distance_nearest_enemy (s : self) : self :=
  let n := length (X_ s) in
  set_distance_nearest_enemy
    (fold_left
       (fun dne idx => fold_left (nearest_enemy_update s idx) (seq 0 n) dne)
       (seq 0 n) (replicate n PInf))
    s.

Definition _adaptable (s : self) (idx idx2 : nat) : bool :=
  lt_dist (pd s idx idx2) (distance_nearest_enemy s !!! idx2).

Definition _get_coverage (s : self) (idx : nat) : nat :=
  fold_left
    (fun len_coverage idx2 =>
       if negb (idx2 =? idx) && (mask s !!! idx2)
       then if _adaptable s idx idx2 then len_coverage + 1 else len_coverage
       else len_coverage)
    (seq 0 (length (X_ s))) 0.

Definition _get_reachable (s : self) (idx : nat) : nat :=
  fold_left
    (fun len_reachable idx2 =>
       if negb (idx2 =? idx) && (mask s !!! idx2)
       then if _adaptable s idx2 idx then len_reachable + 1 else len_reachable
       else len_reachable)
    (seq 0 (length (X_ s))) 0.

Section WithLibrary.
Context {lib : Library}.

(** Modelled from the spec: [ENN(k).fit(X, y).sample_indices_]
    ([enn.py] is not among the sources).  ENN fails if a class has fewer
    than [k + 1] instances; otherwise it drops every instance that the
    majority vote of its [k] nearest neighbours misclassifies, and the
    surviving indices, in row order, seed the loop. *)
Definition ENN_sample_indices (k : nat) (X : list row) (y : list Z)
  : result (list nat) :=
  if existsb (fun c => length (List.filter (Z.eqb c) y) <? k + 1)
             (np.unique Z.compare y)
  then Raise "InsufficientClassPopulation"
  else Ok (List.filter (fun i => (kneighbors_vote k X y i =? y !!! i)%Z)
                       (seq 0 (length X))).

(** The statements of the [while] body up to the two scans: the state in
    which coverage and reachability are evaluated.
    [pairwise_distances] is taken on the metric names and the arrays it
    accepts. *)
Definition snapshot (s : self) (S : list nat) : self :=
  let s := set_X_ (np.take_rows (X s) S) s in
  let s := set_y_ (np.take_rows (y s) S) s in
  let s := set_pairwise_distance
             (pairwise_distances (metric s) (X_ s)) s in
  let s := _set_distance_nearest_enemy s in
  set_mask (replicate (length (X_ s)) true) s.

(** The first [for]: fills [reachable] and [coverage]. *)
Definition measure_all (s : self) : list nat * list nat :=
  let n := length (X_ s) in
  fold_left
    (fun (acc : list nat * list nat) (idx : nat) =>
       let '(reachable, coverage) := acc in
       if (mask s !!! idx : bool)
       then (<[idx := _get_reachable s idx]> reachable,
             <[idx := _get_coverage s idx]> coverage)
       else (reachable, coverage))
    (seq 0 n) (replicate n 0, replicate n 0).

(** The second [for]: clears the mask of every instance to remove. *)
Definition remove_all (s : self) (reachable coverage : list nat)
  : self * bool :=
  fold_left
    (fun (acc : self * bool) (idx : nat) =>
       let '(s, progress) := acc in
       if (mask s !!! idx) && (coverage !!! idx <? reachable !!! idx)
       then (set_mask (<[idx := false]> (mask s)) s, true)
       else (s, progress))
    (seq 0 (length (X_ s))) (s, false).

(** One pass of the [while] loop: the object, [progress] and the new [S]. *)
Definition pass (s : self) (S : list nat) : self * bool * list nat :=
  let s := snapshot s S in
  let '(reachable, coverage) := measure_all s in
  let '(s, progress) := remove_all s reachable coverage in
  (s, progress, np.mask_select S (mask s)).

(** [while progress: ...], with the number of passes made as a ghost
    counter; [None] when [fuel] passes did not reach the exit. *)
Fixpoint while_progress (fuel : nat) (s : self) (S : list nat)
    (passes : nat) : option (self * list nat * nat) :=
  match fuel with
  | 0 => None
  | Datatypes.S fuel' =>
      let '(s', progress, S') := pass s S in
      if progress then while_progress fuel' s' S' (passes + 1)
      else Some (s', S', passes + 1)
  end.

(** [_fit], run with room for [fuel] passes: [None] when they did not
    reach the exit of the loop, else the exception of ENN, or the
    object, the returned [S] and the number of passes. *)
Definition _fit_fuel (fuel : nat) (s : self)
  : option (result (self * list nat * nat)) :=
  match ENN_sample_indices (n_neighbors s) (X s) (y s) with
  | Raise e => Some (Raise e)
  | Ok sample_indices_ =>
      option_map Ok (while_progress fuel s sample_indices_ 0)
  end.

(** [_fit]: one pass per surviving instance is always enough, and the
    loop makes at least one. *)
Definition _fit (s : self) : option (result (self * list nat * nat)) :=
  _fit_fuel (Datatypes.S (length (X s))) s.

End WithLibrary.

End ICF.

(** ** DRLSH: data reduction by locality-sensitive hashing *)

Module DRLSH.

(** The object: the constructor's attributes and the data [fit] stored. *)
Record self := mk {
  M : nat;
  L : nat;
  W : Q;
  ST : Z;
  X : list row;
  y : list Z;
}.

Definition set_M (v : nat) (s : self) : self :=
  mk v (L s) (W s) (ST s) (X s) (y s).

(** The variables of the [while] loop of one class.  The matrix
    [Bucket_Index_Decimal_All_Class] is held by columns: one vector of [L]
    bucket ids for each entry of [All_Indexes]. *)
Record scan := mk_scan {
  All_Indexes : list nat;
  Bucket_Index_Decimal_All_Class : list (list Z);
  iii : nat;
  Temporal_Removed_Samples : list nat;
  Removed_Samples_Index_ALL : list nat;
}.

(** The scan restarts after this many visits at the latest. *)
Definition restart_cap : nat := 2000.

(** [min(l)] of a list that is never empty. *)
Definition list_min (l : list nat) : nat :=
  match l with
  | [] => 0
  | h :: t => fold_left Nat.min t h
  end.

(** [np.hstack((X, y.reshape(-1, 1)))]. *)
Definition hstack (X : list row) (y : list Z) : list row :=
  zip_with (fun r l => r ++ [inject_Z (np.to_float64 l)]) X y.

(** [Data[:, -1]] and [Data[:, :-1]]. *)
Definition last_column (Data : list row) : list Q :=
  map (fun r => List.last r 0%Q) Data.
Definition features (Data : list row) : list row :=
  map (@removelast Q) Data.

(** [Data[:, :-1] = T], in place. *)
Definition assign_features (T : list row) (Data : list row) : list row :=
  imap (fun i r => (T !!! i) ++ [List.last r 0%Q]) Data.

(** [a[lo:hi]]. *)
Definition slice {A} (lo hi : nat) (a : list A) : list A :=
  take (hi - lo) (drop lo a).

Definition dot (u v : list Q) : Q :=
  fold_left Qplus (zip_with Qmult u v) 0%Q.

(** [np.floor((a[j] @ F.T + b[j]) / W).astype(np.int16)], held by columns:
    one signature of [M] integers for each row of [F]. *)
Definition Bucket_Index (aj bj : list row) (W : Q) (F : list row)
  : list (list Z) :=
  map (fun x =>
         zip_with
           (fun a_m b_m =>
              np.astype_int16
                (Qfloor ((dot a_m x + b_m !!! 0%nat) / W)))
           aj bj)
      F.

(** [(u == v).all()] on two signatures. *)
Definition all_equal (u v : list Z) : bool :=
  forallb (fun p => (fst p =? snd p)%Z) (zip u v).

(** [np.where((BI.T[:, None] == uniqued.T[None, :]).all(axis=2))[1]]: for
    each sample in turn, the positions of its signature among the distinct
    ones. *)
Definition Bucket_Index_Decimal (BI uniqued : list (list Z)) : list Z :=
  flat_map
    (fun sig => map Z.of_nat (np.where_ (map (all_equal sig) uniqued)))
    BI.

(** Row [i] of [Bucket_Index_Decimal_All]: the ids written over the zeros. *)
Definition table_row (N M : nat) (a b : list row) (W : Q) (F : list row)
    (i : nat) : list Z :=
  let j := slice (i * M) ((i + 1) * M) in
  let BI := Bucket_Index (j a) (j b) W F in
  let Bucket_Index_uniqued := np.unique np.lex_compare BI in
  let dec := Bucket_Index_Decimal BI Bucket_Index_uniqued in
  dec ++ replicate (N - length dec) 0%Z.

(** [Bucket_Index_Decimal_All[:, All_Indexes]], by columns. *)
Definition columns (B : list (list Z)) (idx : list nat) : list (list Z) :=
  map (fun n => map (fun r : list Z => r !!! n) B) idx.

(** One entry of [np.sum(B == cur[:, np.newaxis], axis=0)]. *)
Definition count_common (cur col : list Z) : nat :=
  length (List.filter (fun p => (fst p =? snd p)%Z) (zip col cur)).

(** The body of [while iii < len(All_Indexes)]. *)
Definition scan_body (N : nat) (ST : Z) (st : scan) : scan :=
  let i := iii st in
  let B := Bucket_Index_Decimal_All_Class st in
  let Current_Sample_Bucket_Index_Decimal := B !!! i in
  let B := <[i := replicate (length Current_Sample_Bucket_Index_Decimal)
                            (-1)%Z]> B in
  let Number_of_Common_Buckets :=
    map (count_common Current_Sample_Bucket_Index_Decimal) B in
  let Index_Neighbors := map (Nat.ltb 0) Number_of_Common_Buckets in
  let Frequency_Neighbors :=
    np.mask_select Number_of_Common_Buckets Index_Neighbors in
  let uniqued_Neighbors := np.mask_select (All_Indexes st) Index_Neighbors in
  let B := <[i := Current_Sample_Bucket_Index_Decimal]> B in
  let Removed_Samples_Current :=
    np.mask_select uniqued_Neighbors
      (map (fun f => (ST <=? Z.of_nat f)%Z) Frequency_Neighbors) in
  let Removed := Removed_Samples_Index_ALL st ++ Removed_Samples_Current in
  let Temporal := Temporal_Removed_Samples st ++ Removed_Samples_Current in
  if ((i + 1 <? length (All_Indexes st))
      && (list_min Temporal <=? All_Indexes st !!! (i + 1)))
     || (restart_cap <? i)
  then
    let aa := np.isin (All_Indexes st) Temporal in
    let AI := np.mask_select (All_Indexes st) (map negb aa) in
    let B := np.mask_select B (map negb aa) in
    mk_scan (drop i AI) (drop i B) (0 + 1) [N + 1] Removed
  else
    mk_scan (All_Indexes st) B (i + 1) Temporal Removed.

(** [while iii < len(All_Indexes): body]. *)
Fixpoint scan_while (fuel : nat) (N : nat) (ST : Z) (st : scan) : scan :=
  match fuel with
  | 0 => st
  | S fuel' =>
      if iii st <? length (All_Indexes st)
      then scan_while fuel' N ST (scan_body N ST st)
      else st
  end.

(** The states the loop goes through, the first one included. *)
Fixpoint scan_states (fuel : nat) (N : nat) (ST : Z) (st : scan)
  : list scan :=
  st ::
  match fuel with
  | 0 => []
  | S fuel' =>
      if iii st <? length (All_Indexes st)
      then scan_states fuel' N ST (scan_body N ST st)
      else []
  end.

(** The loop variables when the scan of [classID] starts. *)
Definition class_start (N : nat) (B_all : list (list Z)) (labels : list Q)
    (Removed : list nat) (classID : Q) : scan :=
  let All_Indexes := np.where_ (map (fun l => Qeq_bool l classID) labels) in
  mk_scan All_Indexes (columns B_all All_Indexes) 0 [N + 1] Removed.

(** The body of [for classID in Classes]: the removals so far, extended.
    Each turn of the [while] loop shortens what is left to visit, so
    [len(All_Indexes)] turns reach its exit. *)
Definition scan_class (N : nat) (ST : Z) (B_all : list (list Z))
    (labels : list Q) (Removed : list nat) (classID : Q) : list nat :=
  let st := class_start N B_all labels Removed classID in
  Removed_Samples_Index_ALL
    (scan_while (length (All_Indexes st)) N ST st).

(** Every state of every scan, class after class. *)
Fixpoint fit_states (N : nat) (ST : Z) (B_all : list (list Z))
    (labels : list Q) (Removed : list nat) (Classes : list Q)
  : list scan :=
  match Classes with
  | [] => []
  | classID :: rest =>
      let st := class_start N B_all labels Removed classID in
      scan_states (length (All_Indexes st)) N ST st
      ++ fit_states N ST B_all labels
           (scan_class N ST B_all labels Removed classID) rest
  end.

(** The last three statements of [_fit]. *)
Definition selected (N : nat) (Removed : list nat) : list nat :=
  let Removed := np.unique Nat.compare Removed in
  let Removed :=
    List.filter (fun r => negb (Z.of_nat r =? -1)%Z) Removed in
  np.setdiff1d (seq 0 N) Removed.

Section WithLibrary.
Context {lib : Library}.

(** What [_fit] computes before the scans: the object with [M]
    overwritten, the generator's state, and then the class list, the
    label column and the bucket matrix, or the exception of [np.hstack]
    on arrays of different lengths.  [MinMaxScaler], which rejects an
    array without a row or without a column, is taken on the arrays it
    accepts. *)
Definition hash_all (g : rng) (s : self)
  : rng * self * result (list Q * list Q * list (list Z)) :=
  let N := length (X s) in
  let s := set_M (int_pow_1_7 N) s in
  if negb (N =? length (y s)) then (g, s, Raise "ValueError") else
  let Data := hstack (X s) (y s) in
  let Classes := np.unique Qcompare (last_column Data) in
  let Data := assign_features (fit_transform (features Data)) Data in
  let Dimension := length (Data !!! 0%nat) - 1 in
  let g := np_random_seed 0 in
  let '(a, g) := np_random_normal g (M s * L s) Dimension in
  let '(r, g) := np_random_rand g (M s * L s) 1 in
  let b := map (map (Qmult (W s))) r in
  let Bucket_Index_Decimal_All :=
    map (table_row N (M s) a b (W s) (features Data)) (seq 0 (L s)) in
  (g, s, Ok (Classes, last_column Data, Bucket_Index_Decimal_All)).

(** [_fit]: the generator's state and the object afterwards, and the
    selected indices. *)
Definition _fit (g : rng) (s : self) : rng * self * result (list nat) :=
  let N := length (X s) in
  match hash_all g s with
  | (g, s, Raise e) => (g, s, Raise e)
  | (g, s, Ok (Classes, labels, B_all)) =>
      let Removed_Samples_Index_ALL :=
        fold_left (scan_class N (ST s) B_all labels) Classes [] in
      (g, s, Ok (selected N Removed_Samples_Index_ALL))
  end.

(** The states of all scans of one call of [_fit]. *)
Definition scan_states_of_fit (g : rng) (s : self) : list scan :=
  let N := length (X s) in
  match hash_all g s with
  | (_, _, Raise _) => []
  | (_, s, Ok (Classes, labels, B_all)) =>
      fit_states N (ST s) B_all labels [] Classes
  end.

End WithLibrary.

End DRLSH.

(** ** The passes of ICF in the words of the specification *)

Module Spec.

(** The smaller of two distances. *)
Definition min_dist (a b : dist) : dist :=
  match a, b with
  | PInf, _ => b
  | _, PInf => a
  | Fin p, Fin q => if Qle_bool p q then Fin p else Fin q
  end.

Section OverSurvivors.
(** [D]: the pairwise distances over the surviving set; [lab]: the labels
    of the surviving instances, in the same order. *)
Variable D : list (list dist).
Variable lab : list Z.

Definition distance (i j : nat) : dist := (D !!! i) !!! j.

(** Minimum distance to any instance of a different class in the current
    surviving set; [+infinity] if no enemy exists. *)
Definition nearest_enemy_distance (j : nat) : dist :=
  fold_right min_dist PInf
    (map (fun e => distance j e)
       (List.filter (fun e => negb (lab !!! e =? lab !!! j)%Z)
          (seq 0 (length lab)))).

(** Count of other surviving [j] with
    [distance(i,j) < nearest-enemy-distance(j)]. *)
Definition coverage (i : nat) : nat :=
  length
    (List.filter
       (fun j => negb (j =? i)
                 && lt_dist (distance i j) (nearest_enemy_distance j))
       (seq 0 (length lab))).

(** Count of other surviving [j] with
    [distance(j,i) < nearest-enemy-distance(i)]. *)
Definition reachability (i : nat) : nat :=
  length
    (List.filter
       (fun j => negb (j =? i)
                 && lt_dist (distance j i) (nearest_enemy_distance i))
       (seq 0 (length lab))).

(** Reachability strictly exceeds coverage. *)
Definition removed (i : nat) : bool := coverage i <? reachability i.

(** The surviving sequence after the pass: [S] without the instances
    removed, each decided on the distances and labels above. *)
Definition survivors (S : list nat) : list nat :=
  map fst
    (List.filter (fun p => negb (removed (snd p)))
       (zip S (seq 0 (length S)))).

End OverSurvivors.

End Spec.

(** ** Auxiliary notions for the proofs *)

(** Two distances that compare alike with every float: both infinite, or
    finite and equal as rationals. *)
Definition dist_equiv (a b : dist) : Prop :=
  match a, b with
  | PInf, PInf => True
  | Fin p, Fin q => (p == q)%Q
  | _, _ => False
  end.

(** The test-and-assign of [_set_distance_nearest_enemy] on the one slot it
    touches. *)
Definition running_min (cur d : dist) : dist :=
  if lt_dist d cur then d else cur.

(** The decision of the second scan of a pass of ICF, on the state [s] in
    which coverage and reachability are measured. *)
Definition icf_removes (s : ICF.self) (idx : nat) : bool :=
  ICF._get_coverage s idx <? ICF._get_reachable s idx.

(** Two ICF objects that were built from the same data and parameters (the
    attributes that [_fit] overwrites are left free). *)
Definition same_input (s s' : ICF.self) : Prop :=
  ICF.n_neighbors s = ICF.n_neighbors s'
  /\ ICF.metric s = ICF.metric s'
  /\ ICF.X s = ICF.X s'
  /\ ICF.y s = ICF.y s'.

(** [R] holds from every element of the list to every later one. *)
Definition monotone_along {A} (R : A -> A -> Prop) (l : list A) : Prop :=
  forall i j a b, i <= j -> l !! i = Some a -> l !! j = Some b -> R a b.

(** From one state of the scan of DRLSH to another: whatever is scheduled
    for removal in the first is still scheduled, in the same order, in the
    second. *)
Definition flags_kept (a b : DRLSH.scan) : Prop :=
  DRLSH.Removed_Samples_Index_ALL a
    `prefix_of` DRLSH.Removed_Samples_Index_ALL b.

(** What is left to visit in a scan. *)
Definition scan_measure (st : DRLSH.scan) : nat :=
  length (DRLSH.All_Indexes st) - DRLSH.iii st.

(** Every column of the class matrix of a scan state has at most [L]
    entries (one per hash table). *)
Definition columns_at_most (L : nat) (st : DRLSH.scan) : Prop :=
  Forall (fun col : list Z => length col <= L)
         (DRLSH.Bucket_Index_Decimal_All_Class st).

(** ** Concrete data *)

Module Examples.

(** Points on a line: the distance of two rows is the absolute difference
    of their first entries. *)
Definition line_distance (u v : row) : Q :=
  let d := (u !!! 0%nat - v !!! 0%nat)%Q in
  if Qle_bool 0 d then d else (- d)%Q.

(** The nearest other point of instance [i], the first one on a tie. *)
Definition nearest_other (X : list row) (i : nat) : option nat :=
  fold_left
    (fun best j =>
       if j =? i then best
       else match best with
            | None => Some j
            | Some b =>
                if Qltb (line_distance (X !!! i) (X !!! j))
                        (line_distance (X !!! i) (X !!! b))
                then Some j else Some b
            end)
    (seq 0 (length X)) None.

(** An implementation of the library calls, small enough to run: the
    distance above whatever the metric's name, a scaler that leaves the
    data as it is, a generator whose state counts the draws and that draws
    the same number every time, the integer seventh root for data sets of
    fewer than 128 rows, and the vote of the single nearest neighbour. *)
Definition lib : Library := {|
  pairwise_distances :=
    fun _ X => map (fun u => map (fun v => Fin (line_distance u v)) X) X;
  fit_transform := fun F => F;
  rng := nat;
  np_random_seed := fun _ => 0;
  np_random_normal := fun g r c => (replicate r (replicate c 1%Q), S g);
  np_random_rand := fun g r c => (replicate r (replicate c (1 # 2)%Q), S g);
  int_pow_1_7 := fun n => if n =? 0 then 0 else 1;
  kneighbors_vote := fun k X y i =>
    match nearest_other X i with
    | Some j => y !!! j
    | None => y !!! i
    end;
|}.

(** Six points of two classes; the first two nearly coincide. *)
Definition X6 : list row :=
  [[0%Q]; [1 # 100]; [2%Q]; [3%Q]; [5%Q]; [7%Q]].
Definition y6 : list Z := [0; 0; 0; 1; 1; 1]%Z.

(** Five points of one class. *)
Definition X5 : list row := [[0%Q]; [1%Q]; [2%Q]; [4%Q]; [8%Q]].
Definition y5 : list Z := [1; 1; 1; 1; 1]%Z.

(** [DRLSH(M=25, L=10, W=1, ST=9)], the values of the usage example at the
    end of [drlsh.py], fitted on the six points. *)
Definition drlsh_usage : DRLSH.self := DRLSH.mk 25 10 1 9 X6 y6.


(** [DRLSH(L=3, W=1, ST=4)] on the six points: the threshold is above the
    number of tables. *)
Definition drlsh_high_ST : DRLSH.self := DRLSH.mk 10 3 1 4 X6 y6.

(** [DRLSH(L=1, W=1, ST=1)] on the six points. *)
Definition drlsh_one_table : DRLSH.self := DRLSH.mk 10 1 1 1 X6 y6.

(** [ICF(n_neighbors=1)] on the six points, and on the one-class data. *)
Definition icf_two_classes : ICF.self := ICF.init 1 "euclidean" X6 y6.
Definition icf_one_class : ICF.self := ICF.init 1 "euclidean" X5 y5.

End Examples.

(** ** Shapes of the statements *)

(** An index sequence over [N] rows: no index twice, every index below [N]. *)
Definition subset_of_rows (N : nat) (sel : list nat) : Prop :=
  List.NoDup sel /\ forall x, In x sel -> x < N.

(** What the specification says of ICF on data of a single class, when ENN
    leaves [S0]: every nearest-enemy distance is infinite, no comparison of
    two surviving instances is adaptable, and the loop returns [S0]. *)
Definition one_class_never_adaptable (lib : Library) (s : ICF.self)
    (S0 : list nat) : Prop :=
  let s0 := ICF.snapshot s S0 in
  (forall idx, idx < length S0 ->
               ICF.distance_nearest_enemy s0 !!! idx = PInf)
  /\ (forall idx idx2, idx < length S0 -> idx2 < length S0 -> idx <> idx2 ->
                       ICF._adaptable s0 idx idx2 = false)
  /\ exists s' passes, ICF._fit s = Some (Ok (s', S0, passes)).



(** ** Further concrete data *)

Module MoreExamples.

(** An ICF object in the middle of a pass: three surviving rows, of
    classes 0, 0 and 1, and their pairwise distances. *)
Definition icf_mid_pass : ICF.self :=
  ICF.mk 1 "euclidean" [] []
    [[0%Q]; [1%Q]; [3%Q]] [0; 0; 1]%Z [] []
    [[Fin 0; Fin 1; Fin 3]; [Fin 1; Fin 0; Fin 2]; [Fin 3; Fin 2; Fin 0]].

End MoreExamples.

Module MoreDRLSH.

(** A scan state in the middle of a class of four instances. *)
Definition scan_mid : DRLSH.scan :=
  DRLSH.mk_scan [0; 2; 5; 6] [[0%Z]; [1%Z]; [1%Z]; [2%Z]] 1 [8] [].

(** Column [n] of the bucket matrix: the bucket ids of instance [n], one
    per table. *)
Definition column (B : list (list Z)) (n : nat) : list Z :=
  map (fun r : list Z => r !!! n) B.

(** The test under which the scan of instance [u] flags instance [v]:
    their bucket ids agree in at least one table and in at least [ST]. *)
Definition redundant (ST : Z) (u v : list Z) : bool :=
  (0 <? DRLSH.count_common u v)
  && (ST <=? Z.of_nat (DRLSH.count_common u v))%Z.

(** What holds of the loop variables of one class scan, in every state the
    [while] loop goes through.  [C] is the class (the row indices
    [np.where] returned), [R0] the removals of the classes before, [V] the
    instances the scan has visited as current sample so far and [F] the
    instances it has flagged. *)
Record scan_inv (col : nat -> list Z) (ST : Z) (N : nat) (C R0 : list nat)
    (st : DRLSH.scan) (V F : list nat) : Prop := mk_scan_inv {
  inv_cols :
    DRLSH.Bucket_Index_Decimal_All_Class st
    = map col (DRLSH.All_Indexes st);
  inv_nodup : List.NoDup (DRLSH.All_Indexes st);
  inv_window : forall x, In x (DRLSH.All_Indexes st) -> In x C;
  inv_visited :
    forall x, In x (take (DRLSH.iii st) (DRLSH.All_Indexes st)) -> In x V;
  inv_temporal :
    forall t, In t (DRLSH.Temporal_Removed_Samples st) ->
      t = N + 1
      \/ (In t (drop (DRLSH.iii st) (DRLSH.All_Indexes st)) /\ In t F);
  inv_current :
    DRLSH.iii st < length (DRLSH.All_Indexes st) ->
    ~ In (DRLSH.All_Indexes st !!! DRLSH.iii st)
         (DRLSH.Temporal_Removed_Samples st);
  inv_marked :
    forall v y, In v V ->
      In y (drop (DRLSH.iii st) (DRLSH.All_Indexes st)) ->
      redundant ST (col v) (col y) = true ->
      In y (DRLSH.Temporal_Removed_Samples st);
  inv_removed : DRLSH.Removed_Samples_Index_ALL st = R0 ++ F;
  inv_flagged :
    forall f, In f F ->
      In f C /\ ~ In f V
      /\ exists v, In v V /\ redundant ST (col v) (col f) = true;
  inv_kept_class : forall v, In v V -> In v C;
  inv_independent :
    forall v1 v2, In v1 V -> In v2 V -> v1 <> v2 ->
      redundant ST (col v1) (col v2) = false;
  inv_cover :
    forall x, In x C ->
      In x V \/ In x F
      \/ In x (drop (DRLSH.iii st) (DRLSH.All_Indexes st));
  inv_flag_marked :
    forall f, In f F ->
      In f (drop (DRLSH.iii st) (DRLSH.All_Indexes st)) ->
      In f (DRLSH.Temporal_Removed_Samples st);
  inv_visited_gone :
    forall v, In v V ->
      ~ In v (drop (DRLSH.iii st) (DRLSH.All_Indexes st))
}.

(** [np.where(Data[:, -1] == classID)[0]]: the rows of one class. *)
Definition class_of (labels : list Q) (classID : Q) : list nat :=
  np.where_ (map (fun l => Qeq_bool l classID) labels).

(** What holds of the removal list between two class scans: [done] are the
    classes scanned so far. *)
Record net (B : list (list Z)) (ST : Z) (labels : list Q)
    (done : list Q) (R : list nat) : Prop := mk_net {
  net_removed :
    forall r, In r R -> exists c, In c done /\ In r (class_of labels c);
  net_independent :
    forall c x y, In c done ->
      In x (class_of labels c) -> In y (class_of labels c) ->
      ~ In x R -> ~ In y R -> x <> y ->
      redundant ST (column B x) (column B y) = false;
  net_dominated :
    forall c r, In c done -> In r (class_of labels c) -> In r R ->
      exists v, In v (class_of labels c) /\ ~ In v R
                /\ redundant ST (column B v) (column B r) = true;
  net_first :
    forall c x, In c done -> head (class_of labels c) = Some x -> ~ In x R
}.

(** [Bucket_Index_Decimal_All] as [_fit] has it when the scans start. *)
Definition bucket_matrix {lib : Library} (g : rng) (d : DRLSH.self)
  : list (list Z) :=
  match snd (DRLSH.hash_all g d) with
  | Ok (_, _, B) => B
  | Raise _ => []
  end.

(** [DRLSH(L=3, W=1, ST=0)] on the six points. *)
Definition drlsh_zero_ST : DRLSH.self :=
  DRLSH.mk 10 3 1 0 Examples.X6 Examples.y6.

End MoreDRLSH.
Section np_facts.
Context {A : Type}.
Implicit Types (a : list A) (m : list bool).

Lemma mask_select_nil_r a : np.mask_select a [] = [].
Proof. unfold np.mask_select. destruct a; reflexivity. Qed.

Lemma mask_select_cons (x : A) a (b : bool) m :
  np.mask_select (x :: a) (b :: m)
  = if b then x :: np.mask_select a m else np.mask_select a m.
Proof. unfold np.mask_select. simpl. destruct b; reflexivity. Qed.

Lemma mask_select_sublist a m : sublist (np.mask_select a m) a.
Proof.
  revert m. induction a as [|x a IH]; intros [|b m].
  - constructor.
  - constructor.
  - rewrite mask_select_nil_r. apply sublist_nil_l.
  - rewrite mask_select_cons. destruct b.
    + apply sublist_skip, IH.
    + apply sublist_cons, IH.
Qed.

Lemma mask_select_all_true a :
  np.mask_select a (replicate (length a) true) = a.
Proof.
  induction a as [|x a IH]; [reflexivity|].
  simpl. rewrite mask_select_cons. now rewrite IH.
Qed.

Lemma mask_select_length a m : length (np.mask_select a m) <= length a.
Proof. apply sublist_length, mask_select_sublist. Qed.

Lemma mask_select_shrinks a m :
  length m = length a -> In false m ->
  length (np.mask_select a m) < length a.
Proof.
  revert m. induction a as [|x a IH]; intros [|b m] Hlen Hin;
    simpl in *; try contradiction; try discriminate.
  rewrite mask_select_cons. destruct b.
  - destruct Hin as [?|Hin]; [discriminate|].
    simpl. apply -> Nat.succ_lt_mono. apply IH; [lia|assumption].
  - pose proof (mask_select_length a m). lia.
Qed.

Lemma mask_select_keeps a m :
  length m = length a -> In true m -> np.mask_select a m <> [].
Proof.
  revert m. induction a as [|x a IH]; intros [|b m] Hlen Hin;
    simpl in *; try contradiction; try discriminate.
  rewrite mask_select_cons. destruct b; [discriminate|].
  destruct Hin as [?|Hin]; [discriminate|].
  apply IH; [lia|assumption].
Qed.

Lemma mask_select_unchanged a m :
  length m = length a -> ~ In false m -> np.mask_select a m = a.
Proof.
  revert m. induction a as [|x a IH]; intros [|b m] Hlen Hin;
    simpl in *; try discriminate; try reflexivity.
  rewrite mask_select_cons. destruct b.
  - f_equal. apply IH; [lia|tauto].
  - exfalso. apply Hin. now left.
Qed.

Lemma mask_select_In a m x : In x (np.mask_select a m) -> In x a.
Proof.
  intros Hx. apply list_elem_of_In.
  eapply elem_of_sublist; [|apply mask_select_sublist].
  apply list_elem_of_In. eassumption.
Qed.

Lemma mask_select_NoDup a m :
  List.NoDup a -> List.NoDup (np.mask_select a m).
Proof.
  rewrite <- !NoDup_ListNoDup. intros Hnd.
  eapply sublist_NoDup; [eassumption|apply mask_select_sublist].
Qed.

Lemma filter_sublist (p : A -> bool) a : sublist (List.filter p a) a.
Proof.
  induction a as [|x a IH]; simpl; [constructor|].
  destruct (p x); [apply sublist_skip|apply sublist_cons]; exact IH.
Qed.

End np_facts.

Section np_sets.

Lemma mask_select_map {A} (p : A -> bool) (a : list A) :
  np.mask_select a (map p a) = List.filter p a.
Proof.
  induction a as [|x a IH]; [reflexivity|].
  simpl. rewrite mask_select_cons, IH. reflexivity.
Qed.

Lemma mask_select_all_false {A} (a : list A) (m : list bool) :
  (forall b, In b m -> b = false) -> np.mask_select a m = [].
Proof.
  revert m. induction a as [|x a IH]; intros [|b m] Hm; try reflexivity.
  rewrite mask_select_cons, (Hm b) by now left.
  apply IH. intros; apply Hm; now right.
Qed.

Lemma insert_unique_In {A} (cmp : A -> A -> comparison) :
  (forall x y, cmp x y = Eq -> x = y) ->
  forall x z l, In z (np.insert_unique cmp x l) <-> z = x \/ In z l.
Proof.
  intros Heq x z l. induction l as [|h l IH]; simpl.
  - intuition congruence.
  - destruct (cmp x h) eqn:Hc; simpl.
    + apply Heq in Hc. subst h. intuition congruence.
    + intuition congruence.
    + rewrite IH. intuition congruence.
Qed.

Lemma unique_In {A} (cmp : A -> A -> comparison) :
  (forall x y, cmp x y = Eq -> x = y) ->
  forall z l, In z (np.unique cmp l) <-> In z l.
Proof.
  intros Heq z l. induction l as [|x l IH]; simpl; [tauto|].
  rewrite insert_unique_In by exact Heq. rewrite IH. intuition congruence.
Qed.

(** [np.arange(N)] is sorted and has no repetition already. *)
Lemma unique_seq a n : np.unique Nat.compare (seq a n) = seq a n.
Proof.
  revert a. induction n as [|n IH]; intros a; [reflexivity|].
  change (np.unique Nat.compare (seq a (S n)))
    with (np.insert_unique Nat.compare a
            (np.unique Nat.compare (seq (S a) n))).
  rewrite IH.
  destruct n as [|n]; [reflexivity|]. simpl.
  now rewrite (proj2 (Nat.compare_lt_iff a (S a))) by lia.
Qed.

Lemma setdiff1d_arange N (b : list nat) :
  np.setdiff1d (seq 0 N) b
  = List.filter (fun x => negb (existsb (Nat.eqb x) b)) (seq 0 N).
Proof.
  unfold np.setdiff1d. rewrite unique_seq.
  unfold np.isin. rewrite map_map.
  rewrite (mask_select_map
             (fun x => negb (existsb (Nat.eqb x) (np.unique Nat.compare b)))).
  apply filter_ext_in. intros x _. f_equal.
  apply eq_true_iff_eq. rewrite !existsb_exists.
  split; intros (z & Hz & Hxz); exists z; split; try exact Hxz.
  - exact (proj1 (unique_In Nat.compare Nat.compare_eq z b) Hz).
  - exact (proj2 (unique_In Nat.compare Nat.compare_eq z b) Hz).
Qed.

Lemma filter_none {A} (p : A -> bool) (l : list A) :
  (forall x, In x l -> p x = false) -> List.filter p l = [].
Proof.
  induction l as [|x l IH]; intros Hp; simpl; [reflexivity|].
  rewrite Hp by now left. apply IH. intros; apply Hp; now right.
Qed.

Lemma mask_select_positions {A} (f g : nat -> bool) (a : list A) :
  forall k,
    (forall i, k <= i < k + length a -> f i = g i) ->
    np.mask_select a (map f (seq k (length a)))
    = map fst (List.filter (fun p => g (snd p)) (zip a (seq k (length a)))).
Proof.
  induction a as [|x a IH]; intros k Hfg; [reflexivity|].
  simpl. rewrite mask_select_cons, (Hfg k) by (simpl; lia).
  rewrite IH by (intros i Hi; apply Hfg; simpl; lia).
  destruct (g k); reflexivity.
Qed.

Lemma existsb_ext_in {A} (f g : A -> bool) (l : list A) :
  (forall x, In x l -> f x = g x) -> existsb f l = existsb g l.
Proof.
  induction l as [|x l IH]; intros Hfg; simpl; [reflexivity|].
  rewrite (Hfg x) by now left. rewrite IH; [reflexivity|].
  intros; apply Hfg; now right.
Qed.

End np_sets.

Section np_unique_sorted.
Context {A : Type} (cmp : A -> A -> comparison).
Hypothesis cmp_eq : forall x y, cmp x y = Eq -> x = y.
Hypothesis cmp_antisym : forall x y, cmp y x = CompOpp (cmp x y).
Hypothesis cmp_trans :
  forall x y z, cmp x y = Lt -> cmp y z = Lt -> cmp x z = Lt.

Lemma insert_unique_sorted x l :
  StronglySorted (fun a b => cmp a b = Lt) l ->
  StronglySorted (fun a b => cmp a b = Lt) (np.insert_unique cmp x l).
Proof.
  induction l as [|h l IH]; intros Hs; simpl.
  - repeat constructor.
  - apply StronglySorted_inv in Hs as [Hl Hh].
    destruct (cmp x h) eqn:Hc.
    + now constructor.
    + constructor; [now constructor|].
      constructor; [exact Hc|].
      rewrite List.Forall_forall in *. intros z Hz.
      eapply cmp_trans; [exact Hc|now apply Hh].
    + constructor; [now apply IH|].
      rewrite List.Forall_forall in *. intros z Hz.
      apply (insert_unique_In cmp cmp_eq) in Hz as [->|Hz].
      * rewrite cmp_antisym, Hc. reflexivity.
      * now apply Hh.
Qed.

Lemma unique_sorted l :
  StronglySorted (fun a b => cmp a b = Lt) (np.unique cmp l).
Proof.
  induction l as [|x l IH]; simpl; [constructor|].
  now apply insert_unique_sorted.
Qed.

(** [np.unique] returns no element twice. *)
Lemma unique_NoDup l : List.NoDup (np.unique cmp l).
Proof.
  assert (Hirr : forall x, cmp x x <> Lt).
  { intros x Hx. pose proof (cmp_antisym x x) as Ha.
    rewrite Hx in Ha. discriminate. }
  induction (unique_sorted l) as [|x u Hu IH Hx]; constructor; [|exact IH].
  intros Hin. rewrite List.Forall_forall in Hx.
  exact (Hirr x (Hx x Hin)).
Qed.

End np_unique_sorted.

Section np_lex.

Lemma lex_compare_eq u : forall v, np.lex_compare u v = Eq -> u = v.
Proof.
  induction u as [|a u IH]; intros [|b v]; simpl; try discriminate;
    [reflexivity|].
  destruct (a ?= b)%Z eqn:Hab; try discriminate.
  intros Huv. apply Z.compare_eq in Hab. subst b. f_equal. now apply IH.
Qed.

Lemma lex_compare_antisym u :
  forall v, np.lex_compare v u = CompOpp (np.lex_compare u v).
Proof.
  induction u as [|a u IH]; intros [|b v]; simpl; try reflexivity.
  rewrite (Z.compare_antisym a b).
  destruct (a ?= b)%Z; simpl; [apply IH|reflexivity|reflexivity].
Qed.

Lemma lex_compare_trans u :
  forall v w,
    np.lex_compare u v = Lt -> np.lex_compare v w = Lt ->
    np.lex_compare u w = Lt.
Proof.
  induction u as [|a u IH]; intros [|b v] [|c w]; simpl;
    try discriminate; try reflexivity.
  destruct (a ?= b)%Z eqn:Hab, (b ?= c)%Z eqn:Hbc; try discriminate;
    intros Huv Hvw.
  - apply Z.compare_eq in Hab, Hbc. subst.
    rewrite Z.compare_refl. eapply IH; eassumption.
  - apply Z.compare_eq in Hab. subst. now rewrite Hbc.
  - apply Z.compare_eq in Hbc. subst. now rewrite Hab.
  - rewrite Z.compare_lt_iff in Hab, Hbc.
    now rewrite (proj2 (Z.compare_lt_iff a c)) by lia.
Qed.

(** A mask selects as many entries as it has [True]s. *)
Lemma mask_select_count {A} (a : list A) :
  forall m, length a = length m ->
            length (np.mask_select a m) = length (List.filter id m).
Proof.
  induction a as [|x a IH]; intros [|b m] Hlen; simpl in *;
    try discriminate; [reflexivity|].
  rewrite mask_select_cons. destruct b; simpl; rewrite IH by lia;
    reflexivity.
Qed.

(** Among distinct elements, exactly one equals a given member. *)
Lemma count_match {A} (eqb : A -> A -> bool) (x : A) (l : list A) :
  (forall u, In u l -> eqb x u = true <-> x = u) ->
  List.NoDup l -> In x l ->
  length (List.filter id (map (eqb x) l)) = 1.
Proof.
  intros Heqb Hnd. induction Hnd as [|h l Hh Hnd IH]; intros Hin;
    [contradiction|].
  simpl. destruct (eqb x h) eqn:Hxh; simpl.
  - apply Heqb in Hxh; [|now left]. subst h. f_equal.
    rewrite filter_none; [reflexivity|].
    intros b Hb. apply in_map_iff in Hb as (u & <- & Hu).
    apply not_true_iff_false. intros Hxu.
    apply Heqb in Hxu; [|now right]. now subst u.
  - apply IH.
    + intros u Hu. apply Heqb. now right.
    + destruct Hin as [->|Hin]; [|exact Hin].
      assert (eqb x x = true) by (apply Heqb; [now left|reflexivity]).
      congruence.
Qed.

End np_lex.

(** ** Facts on ICF *)

Section loops.

Lemma fold_left_count {A} (f : nat -> A -> nat) (p : A -> bool) (l : list A) :
  (forall c x, In x l -> f c x = if p x then c + 1 else c) ->
  forall acc, fold_left f l acc = acc + length (List.filter p l).
Proof.
  induction l as [|x l IH]; intros Hf acc; simpl; [lia|].
  rewrite Hf by now left. rewrite IH by (intros; apply Hf; now right).
  destruct (p x); simpl; lia.
Qed.

(** A loop that assigns slot [i] at turn [i], from what it finds there,
    fills the array from the left. *)
Lemma fold_left_fill {A} `{Inhabited A} (F : list A -> nat -> list A)
    (g : nat -> A) (d : A) (n : nat) :
  (forall acc i, i < n -> length acc = n -> acc !!! i = d ->
                 F acc i = <[i := g i]> acc) ->
  forall k, k <= n ->
  fold_left F (seq 0 k) (replicate n d)
  = map g (seq 0 k) ++ replicate (n - k) d.
Proof.
  intros HF. induction k as [|k IH]; intros Hk.
  - simpl. now rewrite Nat.sub_0_r.
  - rewrite seq_S, fold_left_app, IH by lia. simpl.
    assert (Hlen : length (map g (seq 0 k)) = k)
      by now rewrite length_map, length_seq.
    rewrite HF.
    + rewrite map_app. simpl.
      replace (n - k) with (S (n - S k)) by lia. simpl.
      rewrite <- app_assoc. simpl.
      rewrite <- Hlen at 1.
      rewrite (insert_app_r_alt _ _ (length _)) by lia.
      now rewrite Nat.sub_diag.
    + lia.
    + rewrite length_app, Hlen, length_replicate. lia.
    + rewrite lookup_total_app_r by lia. rewrite Hlen, Nat.sub_diag.
      apply lookup_total_replicate_2. lia.
Qed.

Lemma length_filter_sum {A} (p : A -> bool) (l : list A) :
  length (List.filter p l)
  = list_sum (map (fun x => if p x then 1 else 0) l).
Proof.
  induction l as [|x l IH]; simpl; [reflexivity|].
  destruct (p x); simpl; now rewrite IH.
Qed.

Lemma list_sum_map_add {A} (g h : A -> nat) (l : list A) :
  list_sum (map (fun x => g x + h x) l)
  = list_sum (map g l) + list_sum (map h l).
Proof. induction l as [|x l IH]; simpl; [reflexivity|]. rewrite IH. lia. Qed.

Lemma list_sum_map_zero {A} (l : list A) :
  list_sum (map (fun _ => 0) l) = 0.
Proof. induction l as [|x l IH]; simpl; [reflexivity|]. exact IH. Qed.

(** Counting the pairs of a relation by rows, or by columns. *)
Lemma list_sum_swap {A B} (f : A -> B -> nat) (la : list A) (lb : list B) :
  list_sum (map (fun a => list_sum (map (f a) lb)) la)
  = list_sum (map (fun b => list_sum (map (fun a => f a b) la)) lb).
Proof.
  induction la as [|a la IH]; simpl.
  - now rewrite list_sum_map_zero.
  - rewrite IH. now rewrite <- list_sum_map_add.
Qed.

Lemma list_sum_map_lt {A} (g h : A -> nat) (l : list A) :
  l <> [] -> (forall x, In x l -> g x < h x) ->
  list_sum (map g l) < list_sum (map h l).
Proof.
  induction l as [|x l IH]; intros Hne Hlt; [congruence|]. simpl.
  pose proof (Hlt x (or_introl eq_refl)) as Hx.
  destruct l as [|x' l]; [simpl; lia|].
  assert (list_sum (map g (x' :: l)) < list_sum (map h (x' :: l))).
  { apply IH; [discriminate|]. intros; apply Hlt; now right. }
  lia.
Qed.

Lemma list_sum_map_ext {A} (g h : A -> nat) (l : list A) :
  (forall x, In x l -> g x = h x) ->
  list_sum (map g l) = list_sum (map h l).
Proof.
  induction l as [|x l IH]; intros Hgh; simpl; [reflexivity|].
  rewrite Hgh by now left. rewrite IH; [reflexivity|].
  intros; apply Hgh; now right.
Qed.

Lemma forallb_false_witness {A} (p : A -> bool) (l : list A) :
  forallb p l = false -> exists x, In x l /\ p x = false.
Proof.
  induction l as [|x l IH]; simpl; [discriminate|].
  destruct (p x) eqn:Hp; simpl.
  - intros Hl. destruct (IH Hl) as (z & Hz & Hpz). exists z. tauto.
  - intros _. exists x. tauto.
Qed.

Lemma count_others_from i n :
  forall a,
    length (List.filter (fun j => negb (j =? i)) (seq a n))
    = n - (if (a <=? i) && (i <? a + n) then 1 else 0).
Proof.
  induction n as [|n IH]; intros a.
  - simpl. now destruct ((a <=? i) && (i <? a + 0)).
  - change (seq a (S n)) with (a :: seq (S a) n).
    cbn [List.filter].
    destruct (Nat.eqb_spec a i) as [Heq|Hne]; cbn [negb length]; rewrite IH;
      destruct (Nat.leb_spec (S a) i), (Nat.ltb_spec i (S a + n)),
        (Nat.leb_spec a i), (Nat.ltb_spec i (a + S n));
      cbn [andb]; lia.
Qed.

Lemma count_others i n :
  i < n -> length (List.filter (fun j => negb (j =? i)) (seq 0 n)) = n - 1.
Proof.
  intros Hi. rewrite count_others_from. simpl.
  now rewrite (proj2 (Nat.ltb_lt i n)) by exact Hi.
Qed.

End loops.

Section distances.

Lemma Qltb_lt a b : Qltb a b = true <-> (a < b)%Q.
Proof.
  unfold Qltb. rewrite Qlt_alt. destruct (a ?= b)%Q; split; congruence.
Qed.

Lemma Qltb_ge a b : Qltb a b = false <-> (b <= a)%Q.
Proof.
  rewrite <- not_true_iff_false, Qltb_lt. split.
  - apply Qnot_lt_le.
  - apply Qle_not_lt.
Qed.

Lemma Qle_bool_gt a b : Qle_bool a b = false <-> (b < a)%Q.
Proof.
  rewrite <- not_true_iff_false, Qle_bool_iff. split.
  - apply Qnot_le_lt.
  - apply Qlt_not_le.
Qed.

Lemma dist_equiv_refl a : dist_equiv a a.
Proof. destruct a; simpl; [reflexivity|exact I]. Qed.

Lemma dist_equiv_trans a b c :
  dist_equiv a b -> dist_equiv b c -> dist_equiv a c.
Proof.
  destruct a, b, c; simpl; try tauto. intros Hab Hbc. now rewrite Hab.
Qed.

Lemma lt_dist_equiv d a b : dist_equiv a b -> lt_dist d a = lt_dist d b.
Proof.
  destruct d as [x|], a as [p|], b as [q|]; simpl; try tauto.
  intros Hpq. unfold Qltb. now rewrite Hpq.
Qed.

Ltac order_cases :=
  repeat match goal with
    | |- _ => progress simpl
    | |- context [Qltb ?a ?b] =>
        let E := fresh "E" in
        destruct (Qltb a b) eqn:E;
        [apply Qltb_lt in E | apply Qltb_ge in E]
    | |- context [Qle_bool ?a ?b] =>
        let E := fresh "E" in
        destruct (Qle_bool a b) eqn:E;
        [apply Qle_bool_iff in E | apply Qle_bool_gt in E]
    end;
  simpl; try exact I; try lra.

(** Taking the minimum one candidate at a time, or all at once. *)
Lemma running_min_step c d r :
  dist_equiv (Spec.min_dist (running_min c d) r)
             (Spec.min_dist c (Spec.min_dist d r)).
Proof.
  unfold running_min.
  destruct c as [p|], d as [x|], r as [q|]; simpl; order_cases.
Qed.

Lemma min_dist_equiv_l a b r :
  dist_equiv a b -> dist_equiv (Spec.min_dist a r) (Spec.min_dist b r).
Proof.
  destruct a as [p|], b as [q|], r as [t|]; simpl; try tauto;
    intros Hpq; order_cases.
Qed.

Lemma running_min_fold (l : list dist) :
  forall c,
    dist_equiv (fold_left running_min l c)
               (Spec.min_dist c (fold_right Spec.min_dist PInf l)).
Proof.
  induction l as [|d l IH]; intros c; simpl.
  - destruct c; simpl; [reflexivity|exact I].
  - eapply dist_equiv_trans; [apply IH|]. apply running_min_step.
Qed.

End distances.

Module ICF_facts.
Import ICF.

(** The inner loop of [_set_distance_nearest_enemy] changes slot [idx]
    only, to the running minimum over the enemies of [idx]. *)
Lemma inner_loop_slot s idx (l : list nat) :
  forall dne, idx < length dne ->
    fold_left (nearest_enemy_update s idx) l dne
    = <[idx :=
          fold_left running_min
            (map (pd s idx)
               (List.filter
                  (fun idx2 => negb (y_ s !!! idx =? y_ s !!! idx2)%Z) l))
            (dne !!! idx)]> dne.
Proof.
  induction l as [|idx2 l IH]; intros dne Hidx; simpl.
  - symmetry. apply list_insert_id. now apply list_lookup_lookup_total_lt.
  - unfold nearest_enemy_update at 2.
    destruct (negb (y_ s !!! idx =? y_ s !!! idx2)%Z) eqn:Hen; simpl.
    + unfold running_min at 2.
      destruct (lt_dist (pd s idx idx2) (dne !!! idx)) eqn:Hlt.
      * rewrite IH by now rewrite length_insert.
        rewrite list_lookup_total_insert_eq by assumption.
        apply list_insert_insert_eq.
      * now apply IH.
    + now apply IH.
Qed.

Lemma nearest_enemy_slots s :
  distance_nearest_enemy (_set_distance_nearest_enemy s)
  = map (fun idx =>
           fold_left running_min
             (map (pd s idx)
                (List.filter
                   (fun idx2 => negb (y_ s !!! idx =? y_ s !!! idx2)%Z)
                   (seq 0 (length (X_ s)))))
             PInf)
        (seq 0 (length (X_ s))).
Proof.
  unfold _set_distance_nearest_enemy. simpl.
  rewrite (fold_left_fill _
             (fun idx =>
                fold_left running_min
                  (map (pd s idx)
                     (List.filter
                        (fun idx2 => negb (y_ s !!! idx =? y_ s !!! idx2)%Z)
                        (seq 0 (length (X_ s)))))
                  PInf)
             PInf (length (X_ s)) ) with (k := length (X_ s)).
  - now rewrite Nat.sub_diag, app_nil_r.
  - intros acc i Hi Hlen Hacc. rewrite inner_loop_slot by lia.
    now rewrite Hacc.
  - lia.
Qed.

Section WithLibrary.
Context {lib : Library}.

Lemma snapshot_X_ s S : X_ (snapshot s S) = np.take_rows (X s) S.
Proof. reflexivity. Qed.
Lemma snapshot_y_ s S : y_ (snapshot s S) = np.take_rows (y s) S.
Proof. reflexivity. Qed.
Lemma snapshot_mask s S : mask (snapshot s S) = replicate (length S) true.
Proof. unfold snapshot. simpl. unfold np.take_rows. now rewrite length_map. Qed.
Lemma snapshot_pairwise_distance s S :
  pairwise_distance (snapshot s S)
  = pairwise_distances (metric s) (np.take_rows (X s) S).
Proof. reflexivity. Qed.
Lemma snapshot_length s S : length (X_ (snapshot s S)) = length S.
Proof. rewrite snapshot_X_. unfold np.take_rows. apply length_map. Qed.
Lemma snapshot_length_y s S : length (y_ (snapshot s S)) = length S.
Proof. rewrite snapshot_y_. unfold np.take_rows. apply length_map. Qed.

(** The nearest-enemy distances of the snapshot are those of the
    specification, up to the representation of a rational. *)
Lemma snapshot_nearest_enemy s S j :
  j < length S ->
  dist_equiv
    (distance_nearest_enemy (snapshot s S) !!! j)
    (Spec.nearest_enemy_distance
       (pairwise_distance (snapshot s S)) (y_ (snapshot s S)) j).
Proof.
  intros Hj.
  set (s0 := set_pairwise_distance
               (pairwise_distances (metric s) (np.take_rows (X s) S))
               (set_y_ (np.take_rows (y s) S)
                  (set_X_ (np.take_rows (X s) S) s))).
  assert (Hn : length (X_ s0) = length S)
    by (simpl; unfold np.take_rows; apply length_map).
  assert (Hdne : distance_nearest_enemy (snapshot s S)
                 = distance_nearest_enemy (_set_distance_nearest_enemy s0))
    by reflexivity.
  rewrite Hdne, nearest_enemy_slots, Hn.
  rewrite (list_lookup_total_fmap _ (seq 0 (length S))) by
    (rewrite length_seq; exact Hj).
  rewrite lookup_total_seq_lt by exact Hj. simpl.
  eapply dist_equiv_trans; [apply running_min_fold|]. simpl.
  unfold Spec.nearest_enemy_distance.
  replace (length (np.take_rows (y s) S)) with (length S)
    by (unfold np.take_rows; now rewrite length_map).
  rewrite (filter_ext_in _
             (fun e => negb (np.take_rows (y s) S !!! e
                             =? np.take_rows (y s) S !!! j)%Z)).
  - apply dist_equiv_refl.
  - intros e _. now rewrite Z.eqb_sym.
Qed.

Lemma coverage_count s idx :
  mask s = replicate (length (X_ s)) true ->
  _get_coverage s idx
  = length (List.filter
              (fun idx2 => negb (idx2 =? idx) && _adaptable s idx idx2)
              (seq 0 (length (X_ s)))).
Proof.
  intros Hm. unfold _get_coverage.
  rewrite (fold_left_count _
             (fun idx2 => negb (idx2 =? idx) && _adaptable s idx idx2)).
  - reflexivity.
  - intros c x Hx. apply in_seq in Hx.
    rewrite Hm, lookup_total_replicate_2 by lia.
    rewrite andb_true_r.
    destruct (negb (x =? idx)); simpl; reflexivity.
Qed.

Lemma reachable_count s idx :
  mask s = replicate (length (X_ s)) true ->
  _get_reachable s idx
  = length (List.filter
              (fun idx2 => negb (idx2 =? idx) && _adaptable s idx2 idx)
              (seq 0 (length (X_ s)))).
Proof.
  intros Hm. unfold _get_reachable.
  rewrite (fold_left_count _
             (fun idx2 => negb (idx2 =? idx) && _adaptable s idx2 idx)).
  - reflexivity.
  - intros c x Hx. apply in_seq in Hx.
    rewrite Hm, lookup_total_replicate_2 by lia.
    rewrite andb_true_r.
    destruct (negb (x =? idx)); simpl; reflexivity.
Qed.

(** Coverage and reachability of the snapshot are the counts of the
    specification. *)
Lemma snapshot_coverage s S i :
  _get_coverage (snapshot s S) i
  = Spec.coverage (pairwise_distance (snapshot s S))
      (y_ (snapshot s S)) i.
Proof.
  rewrite coverage_count
    by (now rewrite snapshot_mask, snapshot_length).
  unfold Spec.coverage.
  rewrite snapshot_length, snapshot_length_y. f_equal.
  apply filter_ext_in. intros j Hj. apply in_seq in Hj.
  f_equal. unfold _adaptable.
  apply lt_dist_equiv, snapshot_nearest_enemy. lia.
Qed.

Lemma snapshot_reachable s S i :
  i < length S ->
  _get_reachable (snapshot s S) i
  = Spec.reachability (pairwise_distance (snapshot s S))
      (y_ (snapshot s S)) i.
Proof.
  intros Hi.
  rewrite reachable_count
    by (now rewrite snapshot_mask, snapshot_length).
  unfold Spec.reachability.
  rewrite snapshot_length, snapshot_length_y. f_equal.
  apply filter_ext_in. intros j Hj.
  f_equal. unfold _adaptable.
  apply lt_dist_equiv, snapshot_nearest_enemy. exact Hi.
Qed.

Lemma measure_all_pair (s : self) (fr fc : nat -> nat) (l : list nat) :
  (forall idx, In idx l -> mask s !!! idx = true) ->
  forall r c,
    fold_left
      (fun (acc : list nat * list nat) (idx : nat) =>
         let '(reachable, coverage) := acc in
         if (mask s !!! idx : bool)
         then (<[idx := fr idx]> reachable, <[idx := fc idx]> coverage)
         else (reachable, coverage))
      l (r, c)
    = (fold_left (fun a idx => <[idx := fr idx]> a) l r,
       fold_left (fun a idx => <[idx := fc idx]> a) l c).
Proof.
  induction l as [|x l IH]; intros Hm r c; simpl; [reflexivity|].
  rewrite Hm by now left. apply IH. intros; apply Hm; now right.
Qed.

Lemma measure_all_eq s :
  mask s = replicate (length (X_ s)) true ->
  measure_all s
  = (map (_get_reachable s) (seq 0 (length (X_ s))),
     map (_get_coverage s) (seq 0 (length (X_ s)))).
Proof.
  intros Hm. unfold measure_all.
  rewrite measure_all_pair.
  - rewrite (fold_left_fill _ (_get_reachable s) 0 (length (X_ s)))
      with (k := length (X_ s)); try lia; try (intros; reflexivity).
    rewrite (fold_left_fill _ (_get_coverage s) 0 (length (X_ s)))
      with (k := length (X_ s)); try lia; try (intros; reflexivity).
    now rewrite Nat.sub_diag, !app_nil_r.
  - intros idx Hidx. apply in_seq in Hidx.
    rewrite Hm. apply lookup_total_replicate_2. lia.
Qed.

Lemma remove_all_prefix s (c : nat -> bool)
    (reachable coverage : list nat) n :
  mask s = replicate n true ->
  (forall idx, idx < n ->
               (coverage !!! idx <? reachable !!! idx) = c idx) ->
  forall k, k <= n ->
    fold_left
      (fun (acc : self * bool) (idx : nat) =>
         let '(s, progress) := acc in
         if (mask s !!! idx) && (coverage !!! idx <? reachable !!! idx)
         then (set_mask (<[idx := false]> (mask s)) s, true)
         else (s, progress))
      (seq 0 k) (s, false)
    = (set_mask (map (fun idx => negb (c idx)) (seq 0 k)
                   ++ replicate (n - k) true) s,
       existsb c (seq 0 k)).
Proof.
  intros Hm Hc. induction k as [|k IH]; intros Hk.
  - simpl. rewrite Nat.sub_0_r, <- Hm. now destruct s.
  - rewrite seq_S, fold_left_app, IH by lia. simpl.
    assert (Hlen : length (map (fun idx => negb (c idx)) (seq 0 k)) = k)
      by now rewrite length_map, length_seq.
    rewrite lookup_total_app_r by lia. rewrite Hlen, Nat.sub_diag.
    rewrite lookup_total_replicate_2 by lia.
    rewrite Hc by lia. simpl.
    rewrite map_app, existsb_app. simpl.
    replace (n - k) with (S (n - S k)) by lia. simpl.
    rewrite <- app_assoc. simpl.
    destruct (c k); simpl.
    + rewrite orb_true_r. f_equal. unfold set_mask. simpl. f_equal.
      rewrite <- Hlen at 1.
      rewrite (insert_app_r_alt _ _ (length _)) by lia.
      now rewrite Nat.sub_diag.
    + now rewrite !orb_false_r.
Qed.

(** What one pass does, in closed form. *)
Lemma pass_eq s S :
  pass s S
  = (set_mask (map (fun idx => negb (icf_removes (snapshot s S) idx))
                 (seq 0 (length S)))
       (snapshot s S),
     existsb (icf_removes (snapshot s S)) (seq 0 (length S)),
     np.mask_select S
       (map (fun idx => negb (icf_removes (snapshot s S) idx))
          (seq 0 (length S)))).
Proof.
  unfold pass.
  rewrite measure_all_eq by (now rewrite snapshot_mask, snapshot_length).
  unfold remove_all. rewrite snapshot_length.
  rewrite (remove_all_prefix _ (icf_removes (snapshot s S)) _ _ (length S))
    with (k := length S).
  - rewrite Nat.sub_diag, app_nil_r. reflexivity.
  - apply snapshot_mask.
  - intros idx Hidx. unfold icf_removes.
    rewrite !(list_lookup_total_fmap _ (seq 0 (length S)))
      by (rewrite length_seq; exact Hidx).
    now rewrite lookup_total_seq_lt by exact Hidx.
  - lia.
Qed.

(** Coverage and reachability count the same pairs, so a pass cannot
    remove every instance. *)
Lemma coverage_reachable_sum s :
  mask s = replicate (length (X_ s)) true ->
  list_sum (map (_get_coverage s) (seq 0 (length (X_ s))))
  = list_sum (map (_get_reachable s) (seq 0 (length (X_ s)))).
Proof.
  intros Hm.
  rewrite (list_sum_map_ext (_get_coverage s)
             (fun idx =>
                list_sum
                  (map (fun idx2 =>
                          if negb (idx2 =? idx) && _adaptable s idx idx2
                          then 1 else 0)
                     (seq 0 (length (X_ s))))))
    by (intros; rewrite coverage_count by exact Hm;
        apply length_filter_sum).
  rewrite (list_sum_map_ext (_get_reachable s)
             (fun idx =>
                list_sum
                  (map (fun idx2 =>
                          if negb (idx2 =? idx) && _adaptable s idx2 idx
                          then 1 else 0)
                     (seq 0 (length (X_ s))))))
    by (intros; rewrite reachable_count by exact Hm;
        apply length_filter_sum).
  rewrite list_sum_swap.
  apply list_sum_map_ext. intros idx _.
  apply list_sum_map_ext. intros idx2 _.
  now rewrite Nat.eqb_sym.
Qed.

Lemma pass_keeps_one s S :
  S <> [] ->
  exists idx, idx < length S /\ icf_removes (snapshot s S) idx = false.
Proof.
  intros Hne.
  destruct (forallb (icf_removes (snapshot s S)) (seq 0 (length S)))
    eqn:Hall.
  - exfalso.
    assert (Hm : mask (snapshot s S)
                 = replicate (length (X_ (snapshot s S))) true)
      by (now rewrite snapshot_mask, snapshot_length).
    pose proof (coverage_reachable_sum _ Hm) as Hsum.
    rewrite snapshot_length in Hsum.
    assert (Hlt : list_sum (map (_get_coverage (snapshot s S))
                              (seq 0 (length S)))
                  < list_sum (map (_get_reachable (snapshot s S))
                                (seq 0 (length S)))).
    { apply list_sum_map_lt.
      - destruct S; [congruence|discriminate].
      - intros idx Hidx.
        rewrite forallb_forall in Hall. specialize (Hall idx Hidx).
        unfold icf_removes in Hall. now apply Nat.ltb_lt. }
    lia.
  - apply forallb_false_witness in Hall as (idx & Hidx & Hrm).
    apply in_seq in Hidx. exists idx. split; [lia|exact Hrm].
Qed.

Lemma keep_mask_length (c : nat -> bool) (S : list nat) :
  length (map (fun idx => negb (c idx)) (seq 0 (length S))) = length S.
Proof. now rewrite length_map, length_seq. Qed.

Lemma keep_mask_false (c : nat -> bool) n :
  In false (map (fun idx => negb (c idx)) (seq 0 n))
  <-> existsb c (seq 0 n) = true.
Proof.
  rewrite in_map_iff, existsb_exists. split.
  - intros (idx & Hc & Hin). exists idx. split; [exact Hin|].
    now destruct (c idx).
  - intros (idx & Hin & Hc). exists idx. now rewrite Hc.
Qed.

Lemma pass_length s S : length (snd (pass s S)) <= length S.
Proof. rewrite pass_eq. simpl. apply mask_select_length. Qed.

Lemma pass_sublist s S : sublist (snd (pass s S)) S.
Proof. rewrite pass_eq. simpl. apply mask_select_sublist. Qed.

Lemma pass_progress_shrinks s S :
  snd (fst (pass s S)) = true -> length (snd (pass s S)) < length S.
Proof.
  rewrite pass_eq. simpl. intros Hp.
  apply mask_select_shrinks; [apply keep_mask_length|].
  now apply keep_mask_false.
Qed.

Lemma pass_no_progress_same s S :
  snd (fst (pass s S)) = false -> snd (pass s S) = S.
Proof.
  rewrite pass_eq. simpl. intros Hp.
  apply mask_select_unchanged; [apply keep_mask_length|].
  rewrite keep_mask_false, Hp. discriminate.
Qed.

Lemma pass_nonempty s S : S <> [] -> snd (pass s S) <> [].
Proof.
  intros Hne. rewrite pass_eq. simpl.
  apply mask_select_keeps; [apply keep_mask_length|].
  destruct (pass_keeps_one s S Hne) as (idx & Hidx & Hrm).
  apply in_map_iff. exists idx. rewrite Hrm. split; [reflexivity|].
  apply in_seq. lia.
Qed.

(** The snapshot is a function of the data, the parameters and [S]. *)
Lemma snapshot_closed s S :
  snapshot s S
  = let D := pairwise_distances (metric s) (np.take_rows (X s) S) in
    let lab := np.take_rows (y s) S in
    mk (n_neighbors s) (metric s) (X s) (y s)
      (np.take_rows (X s) S) lab (replicate (length S) true)
      (map (fun idx =>
              fold_left running_min
                (map (fun idx2 => (D !!! idx) !!! idx2)
                   (List.filter
                      (fun idx2 => negb (lab !!! idx =? lab !!! idx2)%Z)
                      (seq 0 (length S))))
                PInf)
         (seq 0 (length S)))
      D.
Proof.
  set (s0 := set_pairwise_distance
               (pairwise_distances (metric s) (np.take_rows (X s) S))
               (set_y_ (np.take_rows (y s) S)
                  (set_X_ (np.take_rows (X s) S) s))).
  assert (Hn : length (X_ s0) = length S)
    by (simpl; unfold np.take_rows; apply length_map).
  change (snapshot s S)
    with (set_mask (replicate (length (X_ (_set_distance_nearest_enemy s0)))
                      true)
            (_set_distance_nearest_enemy s0)).
  pose proof (nearest_enemy_slots s0) as Hd. rewrite Hn in Hd.
  unfold set_mask. rewrite Hd. simpl.
  replace (length (np.take_rows (X s) S)) with (length S)
    by (unfold np.take_rows; now rewrite length_map).
  reflexivity.
Qed.

Lemma snapshot_ext s s' S : same_input s s' -> snapshot s S = snapshot s' S.
Proof.
  intros (Hk & Hm & HX & Hy). rewrite !snapshot_closed. simpl.
  now rewrite Hk, Hm, HX, Hy.
Qed.

Lemma pass_ext s s' S : same_input s s' -> pass s S = pass s' S.
Proof. intros Hs. rewrite !pass_eq. now rewrite (snapshot_ext s s' S Hs). Qed.

Lemma same_input_refl s : same_input s s.
Proof. repeat split. Qed.

Lemma same_input_trans s1 s2 s3 :
  same_input s1 s2 -> same_input s2 s3 -> same_input s1 s3.
Proof.
  intros (?&?&?&?) (?&?&?&?). repeat split; congruence.
Qed.

Lemma pass_same_input s S : same_input s (fst (fst (pass s S))).
Proof. rewrite pass_eq. repeat split. Qed.

Lemma while_progress_ext fuel s s' S p :
  same_input s s' ->
  while_progress fuel s S p = while_progress fuel s' S p.
Proof.
  intros Hs. destruct fuel as [|fuel]; simpl; [reflexivity|].
  now rewrite (pass_ext s s' S Hs).
Qed.

Lemma while_progress_more fuel :
  forall s S p r k,
    while_progress fuel s S p = Some r ->
    while_progress (fuel + k) s S p = Some r.
Proof.
  induction fuel as [|fuel IH]; intros s S p r k; simpl; [discriminate|].
  destruct (pass s S) as [[s1 progress] S1].
  destruct progress; [apply IH|tauto].
Qed.

(** The loop leaves within [max 1 (len S)] passes, at a set on which a
    pass removes nothing. *)
Lemma while_progress_exit fuel :
  forall s S p,
    Nat.max 1 (length S) <= fuel ->
    exists s' S' p',
      while_progress fuel s S p = Some (s', S', p')
      /\ p < p' /\ p' <= p + Nat.max 1 (length S)
      /\ sublist S' S
      /\ same_input s s'
      /\ existsb (icf_removes (snapshot s S')) (seq 0 (length S')) = false.
Proof.
  induction fuel as [|fuel IH]; intros s S p Hfuel; [lia|].
  simpl.
  pose proof (pass_progress_shrinks s S) as Hshrink.
  pose proof (pass_no_progress_same s S) as Hsame.
  pose proof (pass_nonempty s S) as Hnonempty.
  pose proof (pass_same_input s S) as Hinput.
  pose proof (pass_eq s S) as Heq.
  destruct (pass s S) as [[s1 progress] S1]. simpl in *.
  destruct progress.
  - specialize (Hshrink eq_refl).
    assert (HS : S <> []) by (intros ->; simpl in Hshrink; lia).
    specialize (Hnonempty HS).
    assert (1 <= length S1) by (destruct S1; [congruence|simpl; lia]).
    destruct (IH s1 S1 (p + 1)) as (s' & S' & p' & Hrun & Hp & Hp' & Hsub
                                    & Hin & Hfix); [lia|].
    exists s', S', p'. split; [exact Hrun|].
    split; [lia|]. split; [lia|]. split; [|split].
    + etransitivity; [exact Hsub|].
      injection Heq as _ _ ->. apply mask_select_sublist.
    + eapply same_input_trans; eassumption.
    + now rewrite (snapshot_ext s s1 S' Hinput).
  - specialize (Hsame eq_refl). subst S1.
    exists s1, S, (p + 1). split; [reflexivity|].
    split; [lia|]. split; [lia|]. split; [reflexivity|].
    split; [exact Hinput|].
    injection Heq as _ Hp _. now rewrite <- Hp.
Qed.

(** *** The seed of the loop and the whole of [_fit] *)

Lemma ENN_sublist k (X : list row) (y : list Z) S0 :
  ENN_sample_indices k X y = Ok S0 -> sublist S0 (seq 0 (length X)).
Proof.
  unfold ENN_sample_indices. destruct (existsb _ _); [discriminate|].
  intros [= <-]. apply filter_sublist.
Qed.

Lemma ENN_length k (X : list row) (y : list Z) S0 :
  ENN_sample_indices k X y = Ok S0 -> length S0 <= length X.
Proof.
  intros HS0. etransitivity; [eapply sublist_length, ENN_sublist, HS0|].
  now rewrite length_seq.
Qed.

Lemma ENN_bound k (X : list row) (y : list Z) S0 i :
  ENN_sample_indices k X y = Ok S0 -> In i S0 -> i < length X.
Proof.
  intros HS0 Hi. apply ENN_sublist in HS0.
  assert (Hin : In i (seq 0 (length X))).
  { apply list_elem_of_In. eapply elem_of_sublist; [|exact HS0].
    now apply list_elem_of_In. }
  apply in_seq in Hin. lia.
Qed.

Lemma ENN_NoDup k (X : list row) (y : list Z) S0 :
  ENN_sample_indices k X y = Ok S0 -> List.NoDup S0.
Proof.
  intros HS0. apply NoDup_ListNoDup.
  eapply sublist_NoDup; [|eapply ENN_sublist, HS0].
  apply NoDup_ListNoDup, List.seq_NoDup.
Qed.

Lemma _fit_fuel_raise s fuel e :
  ENN_sample_indices (n_neighbors s) (X s) (y s) = Raise e ->
  _fit_fuel fuel s = Some (Raise e).
Proof. intros HE. unfold _fit_fuel. now rewrite HE. Qed.

Lemma _fit_fuel_exit s fuel S0 :
  ENN_sample_indices (n_neighbors s) (X s) (y s) = Ok S0 ->
  Nat.max 1 (length (X s)) <= fuel ->
  exists s' S passes,
    _fit_fuel fuel s = Some (Ok (s', S, passes))
    /\ 0 < passes
    /\ passes <= Nat.max 1 (length S0)
    /\ sublist S S0
    /\ same_input s s'
    /\ existsb (icf_removes (snapshot s S)) (seq 0 (length S)) = false.
Proof.
  intros HS0 Hfuel. unfold _fit_fuel. rewrite HS0.
  pose proof (ENN_length _ _ _ _ HS0) as Hlen.
  destruct (while_progress_exit fuel s S0 0)
    as (s' & S & p & Hrun & Hp & Hp' & Hsub & Hin & Hfix); [lia|].
  exists s', S, p. rewrite Hrun.
  split; [reflexivity|]. split; [lia|]. split; [exact Hp'|].
  split; [exact Hsub|]. split; [exact Hin|exact Hfix].
Qed.

Lemma _fit_fuel_same s fuel fuel' :
  Nat.max 1 (length (X s)) <= fuel -> fuel <= fuel' ->
  _fit_fuel fuel' s = _fit_fuel fuel s.
Proof.
  intros Hfuel Hle.
  destruct (ENN_sample_indices (n_neighbors s) (X s) (y s))
    as [S0|e] eqn:HS0.
  - destruct (_fit_fuel_exit s fuel S0 HS0 Hfuel)
      as (s' & S & p & Hrun & _).
    rewrite Hrun. unfold _fit_fuel in *. rewrite HS0 in *.
    destruct (while_progress fuel s S0 0) as [r|] eqn:Hw;
      [|discriminate].
    replace fuel' with (fuel + (fuel' - fuel)) by lia.
    rewrite (while_progress_more _ _ _ _ _ _ Hw). exact Hrun.
  - now rewrite !(_fit_fuel_raise s _ e HS0).
Qed.

(** *** Data of a single class *)

Lemma one_class_labels (y : list Z) (S : list nat) c idx :
  (forall l, In l y -> l = c) ->
  (forall i, In i S -> i < length y) ->
  idx < length S ->
  np.take_rows y S !!! idx = c.
Proof.
  intros Hy HS Hidx. unfold np.take_rows.
  rewrite (list_lookup_total_fmap _ S) by exact Hidx.
  apply Hy, list_elem_of_In, list_elem_of_lookup_total_2.
  apply HS, list_elem_of_In, list_elem_of_lookup_total_2, Hidx.
Qed.

Lemma one_class_nearest_enemy s S c idx :
  (forall l, In l (y s) -> l = c) ->
  (forall i, In i S -> i < length (y s)) ->
  distance_nearest_enemy (snapshot s S) !!! idx = PInf.
Proof.
  intros Hy HS. rewrite snapshot_closed. cbv zeta.
  cbn [distance_nearest_enemy].
  destruct (Nat.lt_ge_cases idx (length S)) as [Hidx|Hidx].
  - rewrite (list_lookup_total_fmap _ (seq 0 (length S)))
      by (rewrite length_seq; exact Hidx).
    rewrite lookup_total_seq_lt by exact Hidx. simpl.
    rewrite filter_none; [reflexivity|].
    intros idx2 Hidx2. apply in_seq in Hidx2.
    rewrite !(one_class_labels (y s) S c) by (assumption || lia).
    now rewrite Z.eqb_refl.
  - rewrite list_lookup_total_alt, lookup_ge_None_2; [reflexivity|].
    now rewrite length_map, length_seq.
Qed.

Lemma one_class_adaptable s S c idx idx2 :
  (forall l, In l (y s) -> l = c) ->
  (forall i, In i S -> i < length (y s)) ->
  (_adaptable (snapshot s S) idx idx2 = true
   <-> pd (snapshot s S) idx idx2 <> PInf).
Proof.
  intros Hy HS. unfold _adaptable.
  rewrite (one_class_nearest_enemy s S c idx2 Hy HS).
  destruct (pd (snapshot s S) idx idx2); simpl; split;
    congruence.
Qed.

Lemma one_class_counts s S c idx :
  (forall l, In l (y s) -> l = c) ->
  (forall i, In i S -> i < length (y s)) ->
  (forall i j, i < length S -> j < length S ->
               pd (snapshot s S) i j <> PInf) ->
  idx < length S ->
  _get_coverage (snapshot s S) idx = length S - 1
  /\ _get_reachable (snapshot s S) idx = length S - 1.
Proof.
  intros Hy HS Hfin Hidx.
  rewrite coverage_count, reachable_count
    by (now rewrite snapshot_mask, snapshot_length).
  rewrite snapshot_length. split.
  - rewrite <- (count_others idx (length S) Hidx). f_equal.
    apply filter_ext_in. intros idx2 Hidx2. apply in_seq in Hidx2.
    rewrite (proj2 (one_class_adaptable s S c idx idx2 Hy HS))
      by (apply Hfin; lia).
    apply andb_true_r.
  - rewrite <- (count_others idx (length S) Hidx). f_equal.
    apply filter_ext_in. intros idx2 Hidx2. apply in_seq in Hidx2.
    rewrite (proj2 (one_class_adaptable s S c idx2 idx Hy HS))
      by (apply Hfin; lia).
    apply andb_true_r.
Qed.

Lemma one_class_pass s S c :
  (forall l, In l (y s) -> l = c) ->
  (forall i, In i S -> i < length (y s)) ->
  (forall i j, i < length S -> j < length S ->
               pd (snapshot s S) i j <> PInf) ->
  snd (fst (pass s S)) = false /\ snd (pass s S) = S.
Proof.
  intros Hy HS Hfin.
  assert (Hno : snd (fst (pass s S)) = false).
  { rewrite pass_eq. simpl.
    apply not_true_iff_false. rewrite existsb_exists.
    intros (idx & Hidx & Hrm). apply in_seq in Hidx.
    unfold icf_removes in Hrm. apply Nat.ltb_lt in Hrm.
    destruct (one_class_counts s S c idx Hy HS Hfin) as [Hc Hr]; lia. }
  split; [exact Hno|]. now apply pass_no_progress_same.
Qed.

End WithLibrary.
End ICF_facts.

(** ** Facts on DRLSH *)

Section chains.
Context {A : Type} (R : A -> A -> Prop).

Lemma monotone_along_cons (x : A) (l : list A) :
  R x x -> (forall b, In b l -> R x b) -> monotone_along R l ->
  monotone_along R (x :: l).
Proof.
  intros Hx Hxl Hl i j a b Hij Hi Hj.
  destruct i as [|i], j as [|j]; simpl in *; try lia.
  - injection Hi as <-. injection Hj as <-. exact Hx.
  - injection Hi as <-. apply Hxl.
    apply list_elem_of_In, list_elem_of_lookup. eauto.
  - apply (Hl i j); [lia|assumption|assumption].
Qed.

Lemma monotone_along_app (l1 l2 : list A) :
  monotone_along R l1 -> monotone_along R l2 ->
  (forall a b, In a l1 -> In b l2 -> R a b) ->
  monotone_along R (l1 ++ l2).
Proof.
  intros H1 H2 H12 i j a b Hij Hi Hj.
  destruct (Nat.lt_ge_cases j (length l1)) as [Hj1|Hj1].
  - rewrite lookup_app_l in Hi by lia. rewrite lookup_app_l in Hj by lia.
    now apply (H1 i j).
  - rewrite lookup_app_r in Hj by lia.
    destruct (Nat.lt_ge_cases i (length l1)) as [Hi1|Hi1].
    + rewrite lookup_app_l in Hi by lia.
      apply H12; apply list_elem_of_In, list_elem_of_lookup; eauto.
    + rewrite lookup_app_r in Hi by lia.
      apply (H2 (i - length l1) (j - length l1)); [lia|assumption|assumption].
Qed.

End chains.

Module DRLSH_facts.
Import DRLSH.

#[local] Opaque restart_cap.

Lemma flags_kept_refl st : flags_kept st st.
Proof. unfold flags_kept. reflexivity. Qed.

Lemma flags_kept_trans a b c : flags_kept a b -> flags_kept b c -> flags_kept a c.
Proof. unfold flags_kept. intros Hab Hbc. etransitivity; eassumption. Qed.

(** One turn of the loop only appends to the removal list, restart or
    not. *)
Lemma scan_body_flags N ST st : flags_kept st (scan_body N ST st).
Proof.
  unfold flags_kept, scan_body. cbv zeta.
  match goal with |- context [if ?c then _ else _] => destruct c end;
    cbn [Removed_Samples_Index_ALL]; apply prefix_app_r; reflexivity.
Qed.

Lemma scan_while_flags fuel N ST :
  forall st, flags_kept st (scan_while fuel N ST st).
Proof.
  induction fuel as [|fuel IH]; intros st; simpl; [apply flags_kept_refl|].
  destruct (iii st <? length (All_Indexes st)); [|apply flags_kept_refl].
  eapply flags_kept_trans; [apply (scan_body_flags N ST)|apply IH].
Qed.

Lemma scan_states_from fuel N ST :
  forall st st', In st' (scan_states fuel N ST st) -> flags_kept st st'.
Proof.
  induction fuel as [|fuel IH]; intros st st'; simpl.
  - intros [<-|[]]. apply flags_kept_refl.
  - intros [<-|Hin]; [apply flags_kept_refl|].
    destruct (iii st <? length (All_Indexes st)); [|contradiction].
    eapply flags_kept_trans; [apply (scan_body_flags N ST)|apply IH, Hin].
Qed.

Lemma scan_states_to fuel N ST :
  forall st st', In st' (scan_states fuel N ST st) ->
                 flags_kept st' (scan_while fuel N ST st).
Proof.
  induction fuel as [|fuel IH]; intros st st'; simpl.
  - intros [<-|[]]. apply flags_kept_refl.
  - destruct (iii st <? length (All_Indexes st)).
    + intros [<-|Hin]; [|now apply IH].
      eapply flags_kept_trans;
        [apply (scan_body_flags N ST)|apply scan_while_flags].
    + intros [<-|[]]. apply flags_kept_refl.
Qed.

Lemma scan_states_monotone fuel N ST :
  forall st, monotone_along flags_kept (scan_states fuel N ST st).
Proof.
  induction fuel as [|fuel IH]; intros st.
  - simpl. apply monotone_along_cons;
      [apply flags_kept_refl|intros b []|intros i j a b _ Hi; destruct i; discriminate].
  - change (scan_states (S fuel) N ST st)
      with (st :: if iii st <? length (All_Indexes st)
                  then scan_states fuel N ST (scan_body N ST st) else []).
    apply monotone_along_cons.
    + apply flags_kept_refl.
    + intros b Hb. apply (scan_states_from (S fuel) N ST). now right.
    + destruct (iii st <? length (All_Indexes st)); [apply IH|].
      intros i j a b _ Hi; destruct i; discriminate.
Qed.

Lemma scan_class_grows N ST B labels Removed classID :
  Removed `prefix_of` scan_class N ST B labels Removed classID.
Proof.
  unfold scan_class.
  apply (scan_while_flags _ N ST (class_start N B labels Removed classID)).
Qed.

Lemma fold_scan_class_grows N ST B labels Classes :
  forall Removed,
    Removed `prefix_of` fold_left (scan_class N ST B labels) Classes Removed.
Proof.
  induction Classes as [|c Classes IH]; intros Removed; simpl; [reflexivity|].
  etransitivity; [apply scan_class_grows|apply IH].
Qed.

Lemma fit_states_from N ST B labels Classes :
  forall Removed st,
    In st (fit_states N ST B labels Removed Classes) ->
    Removed `prefix_of` Removed_Samples_Index_ALL st.
Proof.
  induction Classes as [|c Classes IH]; intros Removed st; simpl; [tauto|].
  rewrite in_app_iff. intros [Hin|Hin].
  - apply scan_states_from in Hin. exact Hin.
  - etransitivity; [apply scan_class_grows|]. apply IH. exact Hin.
Qed.

Lemma fit_states_to N ST B labels Classes :
  forall Removed st,
    In st (fit_states N ST B labels Removed Classes) ->
    Removed_Samples_Index_ALL st
      `prefix_of` fold_left (scan_class N ST B labels) Classes Removed.
Proof.
  induction Classes as [|c Classes IH]; intros Removed st; simpl; [tauto|].
  rewrite in_app_iff. intros [Hin|Hin].
  - etransitivity; [|apply fold_scan_class_grows].
    apply scan_states_to in Hin. exact Hin.
  - apply IH. exact Hin.
Qed.

Lemma fit_states_monotone N ST B labels Classes :
  forall Removed,
    monotone_along flags_kept (fit_states N ST B labels Removed Classes).
Proof.
  induction Classes as [|c Classes IH]; intros Removed; simpl.
  - intros i j a b _ Hi. destruct i; discriminate.
  - apply monotone_along_app.
    + apply scan_states_monotone.
    + apply IH.
    + intros a b Ha Hb. unfold flags_kept.
      etransitivity; [apply (scan_states_to _ _ _ _ _ Ha)|].
      apply (fit_states_from _ _ _ _ _ _ _ Hb).
Qed.

(** *** The loop reaches its exit *)

Lemma scan_body_measure N ST st :
  iii st < length (All_Indexes st) ->
  scan_measure (scan_body N ST st) < scan_measure st.
Proof.
  intros Hlt. unfold scan_measure, scan_body. cbv zeta.
  match goal with |- context [if ?c then _ else _] => destruct c end;
    cbn [All_Indexes iii].
  - rewrite length_drop.
    match goal with |- context [np.mask_select ?a ?m] =>
      pose proof (mask_select_length a m) end.
    lia.
  - lia.
Qed.

Lemma scan_while_exit fuel N ST :
  forall st,
    scan_measure st <= fuel ->
    (iii (scan_while fuel N ST st)
     <? length (All_Indexes (scan_while fuel N ST st))) = false.
Proof.
  induction fuel as [|fuel IH]; intros st Hm; simpl.
  - apply Nat.ltb_ge. unfold scan_measure in Hm. lia.
  - destruct (iii st <? length (All_Indexes st)) eqn:Hc; [|exact Hc].
    apply IH. apply Nat.ltb_lt in Hc.
    pose proof (scan_body_measure N ST st Hc). lia.
Qed.

Lemma scan_while_more fuel N ST :
  forall st k,
    scan_measure st <= fuel ->
    scan_while (fuel + k) N ST st = scan_while fuel N ST st.
Proof.
  induction fuel as [|fuel IH]; intros st k Hm; simpl.
  - assert (Hc : (iii st <? length (All_Indexes st)) = false)
      by (apply Nat.ltb_ge; unfold scan_measure in Hm; lia).
    destruct k; simpl; [reflexivity|]. now rewrite Hc.
  - destruct (iii st <? length (All_Indexes st)) eqn:Hc; [|reflexivity].
    apply IH. apply Nat.ltb_lt in Hc.
    pose proof (scan_body_measure N ST st Hc). lia.
Qed.

(** The turns that [scan_class] allows are enough: the state it reads the
    removals from is one in which the loop condition is false, and more
    turns would change nothing. *)
Lemma scan_class_reaches_exit N ST B labels Removed classID :
  let st := class_start N B labels Removed classID in
  let st' := scan_while (length (All_Indexes st)) N ST st in
  (iii st' <? length (All_Indexes st')) = false
  /\ forall k, scan_while (length (All_Indexes st) + k) N ST st = st'.
Proof.
  intros st st'.
  assert (Hm : scan_measure st <= length (All_Indexes st))
    by (unfold scan_measure; lia).
  split.
  - now apply scan_while_exit.
  - intros k. now apply scan_while_more.
Qed.

(** *** A threshold above the number of tables *)

Lemma count_common_le cur col : count_common cur col <= length cur.
Proof.
  unfold count_common. revert cur.
  induction col as [|c col IH]; intros [|d cur]; simpl; try lia.
  specialize (IH cur). destruct (c =? d)%Z; simpl; lia.
Qed.

Lemma lookup_total_at_most L (B : list (list Z)) i :
  Forall (fun col : list Z => length col <= L) B -> length (B !!! i) <= L.
Proof.
  intros HB. rewrite list_lookup_total_alt.
  destruct (B !! i) as [col|] eqn:Hi; simpl; [|lia].
  rewrite Forall_lookup in HB. exact (HB i col Hi).
Qed.

Lemma mask_select_Forall {A} (P : A -> Prop) (a : list A) m :
  Forall P a -> Forall P (np.mask_select a m).
Proof.
  rewrite !List.Forall_forall. intros Ha x Hx.
  apply Ha. eapply mask_select_In. exact Hx.
Qed.

Lemma scan_body_no_flag N ST L st :
  columns_at_most L st -> (Z.of_nat L < ST)%Z ->
  Removed_Samples_Index_ALL (scan_body N ST st)
  = Removed_Samples_Index_ALL st
  /\ columns_at_most L (scan_body N ST st).
Proof.
  intros Hcol HST. unfold columns_at_most in *.
  pose proof (lookup_total_at_most L _ (iii st) Hcol) as Hcur.
  assert (Hnone :
    forall (u : list nat) (B : list (list Z)),
      np.mask_select
        (np.mask_select u
           (map (Nat.ltb 0)
              (map (count_common
                      (Bucket_Index_Decimal_All_Class st !!! iii st)) B)))
        (map (fun f => (ST <=? Z.of_nat f)%Z)
           (np.mask_select
              (map (count_common
                      (Bucket_Index_Decimal_All_Class st !!! iii st)) B)
              (map (Nat.ltb 0)
                 (map (count_common
                         (Bucket_Index_Decimal_All_Class st !!! iii st))
                    B))))
      = []).
  { intros u B. apply mask_select_all_false. intros b Hb.
    apply in_map_iff in Hb as (f & <- & Hf).
    apply mask_select_In in Hf. apply in_map_iff in Hf as (col & <- & _).
    pose proof (count_common_le
                  (Bucket_Index_Decimal_All_Class st !!! iii st) col).
    apply Z.leb_gt. lia. }
  unfold scan_body. cbv zeta.
  match goal with |- context [if ?c then _ else _] => destruct c end;
    cbn [Removed_Samples_Index_ALL Bucket_Index_Decimal_All_Class];
    rewrite Hnone, app_nil_r; (split; [reflexivity|]).
  - apply Forall_drop, mask_select_Forall.
    apply Forall_insert; [|exact Hcur].
    apply Forall_insert; [exact Hcol|]. rewrite length_replicate. exact Hcur.
  - apply Forall_insert; [|exact Hcur].
    apply Forall_insert; [exact Hcol|]. rewrite length_replicate. exact Hcur.
Qed.

Lemma scan_while_no_flag fuel N ST L :
  (Z.of_nat L < ST)%Z ->
  forall st, columns_at_most L st ->
  Removed_Samples_Index_ALL (scan_while fuel N ST st)
  = Removed_Samples_Index_ALL st.
Proof.
  intros HST. induction fuel as [|fuel IH]; intros st Hcol; simpl;
    [reflexivity|].
  destruct (iii st <? length (All_Indexes st)); [|reflexivity].
  destruct (scan_body_no_flag N ST L st Hcol HST) as [Hrm Hcol'].
  now rewrite IH by exact Hcol'.
Qed.

Lemma class_start_columns N (B : list (list Z)) labels Removed classID :
  columns_at_most (length B) (class_start N B labels Removed classID).
Proof.
  unfold columns_at_most, class_start, columns.
  cbn [Bucket_Index_Decimal_All_Class].
  apply List.Forall_forall. intros col Hcol.
  apply in_map_iff in Hcol as (n & <- & _). now rewrite length_map.
Qed.

Lemma fold_scan_class_no_flag N ST (B : list (list Z)) labels Classes :
  (Z.of_nat (length B) < ST)%Z ->
  forall Removed,
    fold_left (scan_class N ST B labels) Classes Removed = Removed.
Proof.
  intros HST. induction Classes as [|c Classes IH]; intros Removed; simpl;
    [reflexivity|].
  unfold scan_class at 2.
  rewrite (scan_while_no_flag _ N ST (length B) HST)
    by apply class_start_columns.
  cbn [class_start Removed_Samples_Index_ALL]. apply IH.
Qed.

Lemma scan_states_no_flag fuel N ST L :
  (Z.of_nat L < ST)%Z ->
  forall st st',
    columns_at_most L st ->
    In st' (scan_states fuel N ST st) ->
    columns_at_most L st'
    /\ Removed_Samples_Index_ALL st' = Removed_Samples_Index_ALL st.
Proof.
  intros HST. induction fuel as [|fuel IH]; intros st st' Hcol; simpl.
  - intros [<-|[]]. now split.
  - intros [<-|Hin]; [now split|].
    destruct (iii st <? length (All_Indexes st)); [|contradiction].
    destruct (scan_body_no_flag N ST L st Hcol HST) as [Hrm Hcol'].
    destruct (IH _ _ Hcol' Hin) as [Hc Hr]. split; [exact Hc|congruence].
Qed.

Lemma fit_states_no_flag N ST (B : list (list Z)) labels Classes :
  (Z.of_nat (length B) < ST)%Z ->
  forall Removed st,
    In st (fit_states N ST B labels Removed Classes) ->
    columns_at_most (length B) st
    /\ Removed_Samples_Index_ALL st = Removed.
Proof.
  intros HST. induction Classes as [|c Classes IH]; intros Removed st;
    simpl; [tauto|].
  rewrite in_app_iff. intros [Hin|Hin].
  - apply (scan_states_no_flag _ N ST (length B) HST) in Hin;
      [exact Hin|apply class_start_columns].
  - unfold scan_class in Hin.
    rewrite (scan_while_no_flag _ N ST (length B) HST) in Hin
      by apply class_start_columns.
    cbn [class_start Removed_Samples_Index_ALL] in Hin.
    now apply IH.
Qed.

(** *** The selection *)

Lemma selected_In N Removed x :
  In x (selected N Removed) <-> x < N /\ ~ In x Removed.
Proof.
  unfold selected. rewrite setdiff1d_arange, filter_In, in_seq.
  rewrite negb_true_iff, <- not_true_iff_false, existsb_exists.
  split.
  - intros [Hx Hnot]. split; [lia|]. intros Hin. apply Hnot.
    exists x. split; [|apply Nat.eqb_refl].
    apply filter_In. split.
    + now apply (unique_In Nat.compare Nat.compare_eq).
    + apply negb_true_iff, Z.eqb_neq. lia.
  - intros [Hx Hnot]. split; [lia|]. intros (z & Hz & Hxz).
    apply Nat.eqb_eq in Hxz. subst z. apply filter_In in Hz as [Hz _].
    apply Hnot. exact (proj1 (unique_In Nat.compare Nat.compare_eq x _) Hz).
Qed.

Lemma selected_NoDup N Removed : List.NoDup (selected N Removed).
Proof.
  unfold selected. rewrite setdiff1d_arange.
  apply List.NoDup_filter, List.seq_NoDup.
Qed.

Lemma selected_nothing N : selected N [] = seq 0 N.
Proof.
  unfold selected. rewrite setdiff1d_arange. simpl.
  induction (seq 0 N) as [|x l IH]; simpl; [reflexivity|]. now rewrite IH.
Qed.

(** *** The bucket matrix *)

Lemma all_equal_eq u :
  forall v, length u = length v -> all_equal u v = true <-> u = v.
Proof.
  unfold all_equal.
  induction u as [|a u IH]; intros [|b v] Hlen; simpl in *;
    try discriminate; [tauto|].
  rewrite andb_true_iff, Z.eqb_eq, IH by lia.
  split; [intros [-> ->]; reflexivity|intros [= -> ->]; tauto].
Qed.

(** Each sample has one bucket id in each table: its signature occurs
    once among the distinct signatures. *)
Lemma Bucket_Index_Decimal_length (BI : list (list Z)) :
  (forall u v, In u BI -> In v BI -> length u = length v) ->
  length (Bucket_Index_Decimal BI (np.unique np.lex_compare BI))
  = length BI.
Proof.
  intros Hlen. unfold Bucket_Index_Decimal.
  assert (Hsub : forall l, incl l BI ->
            length
              (flat_map
                 (fun sig =>
                    map Z.of_nat
                      (np.where_
                         (map (all_equal sig)
                            (np.unique np.lex_compare BI))))
                 l)
            = length l).
  { induction l as [|sig l IH]; intros Hl; [reflexivity|].
    simpl. rewrite length_app, IH by (intros z Hz; apply Hl; now right).
    rewrite length_map. unfold np.where_.
    rewrite mask_select_count by now rewrite length_seq.
    assert (Hsig : In sig BI) by (apply Hl; now left).
    rewrite (count_match all_equal sig (np.unique np.lex_compare BI));
      [reflexivity| | |].
    - intros u Hu. apply all_equal_eq, Hlen; [exact Hsig|].
      exact (proj1 (unique_In np.lex_compare lex_compare_eq u BI) Hu).
    - apply unique_NoDup.
      + apply lex_compare_eq.
      + intros x y. apply lex_compare_antisym.
      + intros x y z. apply lex_compare_trans.
    - exact (proj2 (unique_In np.lex_compare lex_compare_eq sig BI) Hsig). }
  apply Hsub. intros z Hz. exact Hz.
Qed.

Lemma table_row_length N M a b W (F : list row) i :
  length F = N -> length (table_row N M a b W F i) = N.
Proof.
  intros HF. unfold table_row. cbv zeta.
  rewrite length_app, length_replicate, Bucket_Index_Decimal_length.
  - unfold Bucket_Index. rewrite length_map. unfold row in *. lia.
  - intros u v Hu Hv. unfold Bucket_Index in Hu, Hv.
    apply in_map_iff in Hu as (x & <- & _).
    apply in_map_iff in Hv as (x' & <- & _).
    now rewrite !length_zip_with.
Qed.

(** *** The whole of [_fit] *)

Section WithLibrary.
Context {lib : Library}.

Lemma hash_all_cases g s :
  (length (X s) <> length (y s)
   /\ hash_all g s
      = (g, set_M (int_pow_1_7 (length (X s))) s, Raise "ValueError"))
  \/ (length (X s) = length (y s)
      /\ exists g' Classes labels B,
           hash_all g s
           = (g', set_M (int_pow_1_7 (length (X s))) s,
              Ok (Classes, labels, B))
           /\ length B = L s).
Proof.
  unfold hash_all. cbv zeta. cbn [X y L W M ST set_M].
  destruct (length (X s) =? length (y s)) eqn:Hlen; cbn [negb].
  - right. apply Nat.eqb_eq in Hlen. split; [exact Hlen|].
    destruct (np_random_normal _ _ _) as [a g1].
    destruct (np_random_rand _ _ _) as [r g2].
    eexists _, _, _, _. split; [reflexivity|].
    now rewrite length_map, length_seq.
  - left. apply Nat.eqb_neq in Hlen. split; [exact Hlen|reflexivity].
Qed.

(** Neither the state of the generator at the call nor the attribute [M]
    of the object reaches what [hash_all] computes. *)
Lemma hash_all_indep g1 g2 m s :
  snd (hash_all g1 (set_M m s)) = snd (hash_all g2 s)
  /\ snd (fst (hash_all g1 (set_M m s))) = snd (fst (hash_all g2 s)).
Proof.
  unfold hash_all. cbv zeta. cbn [X y L W M ST set_M].
  destruct (negb (length (X s) =? length (y s))); [split; reflexivity|].
  destruct (np_random_normal _ _ _) as [a g1'].
  destruct (np_random_rand _ _ _) as [r g2'].
  split; reflexivity.
Qed.

Lemma _fit_cases g s :
  (length (X s) <> length (y s)
   /\ _fit g s
      = (g, set_M (int_pow_1_7 (length (X s))) s, Raise "ValueError")
   /\ scan_states_of_fit g s = [])
  \/ (length (X s) = length (y s)
      /\ exists g' Classes labels B,
           length B = L s
           /\ _fit g s
              = (g', set_M (int_pow_1_7 (length (X s))) s,
                 Ok (selected (length (X s))
                       (fold_left
                          (scan_class (length (X s)) (ST s) B labels) Classes
                          [])))
           /\ scan_states_of_fit g s
              = fit_states (length (X s)) (ST s) B labels [] Classes).
Proof.
  unfold _fit, scan_states_of_fit. cbv zeta.
  destruct (hash_all_cases g s) as [[Hlen Hh]|[Hlen (g' & C & l & B & Hh & HB)]];
    rewrite Hh.
  - left. repeat split; assumption.
  - right. split; [exact Hlen|]. exists g', C, l, B. repeat split. exact HB.
Qed.

Lemma _fit_indep g1 g2 m s :
  snd (_fit g1 (set_M m s)) = snd (_fit g2 s)
  /\ snd (fst (_fit g1 (set_M m s))) = snd (fst (_fit g2 s)).
Proof.
  unfold _fit. cbv zeta.
  destruct (hash_all_indep g1 g2 m s) as [Hr Hs].
  change (X (set_M m s)) with (X s).
  destruct (hash_all g1 (set_M m s)) as [[g1' s1] r1].
  destruct (hash_all g2 s) as [[g2' s2] r2].
  simpl in Hr, Hs. subst r2 s2.
  destruct r1 as [[[C l] B]|e]; split; reflexivity.
Qed.

(** The bucket matrix has [L] rows of [N] ids, and there is a label for
    each row of the data. *)
Lemma hash_all_shape g s g' s' Classes labels B :
  hash_all g s = (g', s', Ok (Classes, labels, B)) ->
  length B = L s
  /\ length labels = length (X s)
  /\ Forall (fun r : list Z => length r = length (X s)) B.
Proof.
  unfold hash_all. cbv zeta. cbn [X y L W M ST set_M].
  destruct (length (X s) =? length (y s)) eqn:Hlen; cbn [negb];
    [|discriminate].
  apply Nat.eqb_eq in Hlen.
  destruct (np_random_normal _ _ _) as [a g1].
  destruct (np_random_rand _ _ _) as [r g2].
  intros [= _ _ _ <- <-].
  assert (HN : length (hstack (X s) (y s)) = length (X s))
    by (unfold hstack; rewrite length_zip_with; unfold row in *; lia).
  split; [|split].
  - now rewrite length_map, length_seq.
  - unfold last_column, assign_features.
    now rewrite length_map, length_imap.
  - apply List.Forall_forall. intros row Hrow.
    apply in_map_iff in Hrow as (i & <- & _).
    apply table_row_length.
    unfold features, assign_features.
    now rewrite length_map, length_imap.
Qed.

End WithLibrary.

End DRLSH_facts.

(** * The claims *)

(** ** ICF *)

(** C2: In every pass of ICF's loop, coverage of a surviving instance is the
    count of the other surviving [j] with
    [distance(i,j) < nearest-enemy-distance(j)], reachability the count of
    the other surviving [j] with [distance(j,i) < nearest-enemy-distance(i)],
    both measured on the state at the start of the pass; the pass removes
    exactly the instances whose reachability strictly exceeds their coverage,
    and [progress] tells whether there was one. *)
Theorem C2_pass_decided_on_snapshot (lib : Library) (s : ICF.self)
    (S : list nat) :
  let s0 := ICF.snapshot s S in
  let D := pairwise_distances (ICF.metric s) (np.take_rows (ICF.X s) S) in
  let lab := np.take_rows (ICF.y s) S in
  (forall i, i < length S ->
     ICF._get_coverage s0 i = Spec.coverage D lab i
     /\ ICF._get_reachable s0 i = Spec.reachability D lab i)
  /\ ICF.measure_all s0
     = (map (Spec.reachability D lab) (seq 0 (length S)),
        map (Spec.coverage D lab) (seq 0 (length S)))
  /\ ICF.pass s S
     = (ICF.set_mask
          (map (fun i => negb (Spec.removed D lab i)) (seq 0 (length S))) s0,
        existsb (Spec.removed D lab) (seq 0 (length S)),
        Spec.survivors D lab S).
Proof.
  intros s0 D lab.
  assert (Hcr : forall i, i < length S ->
            ICF._get_coverage s0 i = Spec.coverage D lab i
            /\ ICF._get_reachable s0 i = Spec.reachability D lab i).
  { intros i Hi. split.
    - apply (ICF_facts.snapshot_coverage s S i).
    - apply (ICF_facts.snapshot_reachable s S i Hi). }
  assert (Hrm : forall i, In i (seq 0 (length S)) ->
            icf_removes s0 i = Spec.removed D lab i).
  { intros i Hi. apply in_seq in Hi. unfold icf_removes, Spec.removed.
    destruct (Hcr i) as [-> ->]; [lia|reflexivity]. }
  split; [exact Hcr|]. split.
  - unfold s0. rewrite ICF_facts.measure_all_eq
      by (now rewrite ICF_facts.snapshot_mask, ICF_facts.snapshot_length).
    rewrite ICF_facts.snapshot_length. f_equal; apply map_ext_in;
      intros i Hi; apply in_seq in Hi; apply Hcr; lia.
  - rewrite ICF_facts.pass_eq. fold s0. f_equal; [f_equal|].
    + f_equal. apply map_ext_in. intros i Hi. now rewrite Hrm.
    + now apply existsb_ext_in.
    + unfold Spec.survivors.
      apply (mask_select_positions
               (fun i => negb (icf_removes s0 i))
               (fun i => negb (Spec.removed D lab i))).
      intros i Hi. rewrite Hrm; [reflexivity|]. apply in_seq. lia.
Qed.

(** C2, on the six points after ENN. *)
Lemma C2_witness :
  2 < length [0; 1; 4; 5]
  /\ ICF._get_coverage
       (ICF.snapshot (lib := Examples.lib) Examples.icf_two_classes [0; 1; 4; 5])
       2
     = Spec.coverage
         (pairwise_distances (Library := Examples.lib) "euclidean"
            (np.take_rows Examples.X6 [0; 1; 4; 5]))
         (np.take_rows Examples.y6 [0; 1; 4; 5]) 2.
Proof.
  split; [simpl; lia|].
  apply (C2_pass_decided_on_snapshot Examples.lib Examples.icf_two_classes
           [0; 1; 4; 5]).
  simpl; lia.
Defined.

(** C3: The surviving set of ICF never grows from one pass to the next, and
    on [N >= 1] rows [_fit] ends after at most [N] passes: a budget of [N]
    passes, or any larger one, reaches the same outcome, and when that is a
    returned sequence the loop made at most [N] passes. *)
Theorem C3_at_most_N_passes (lib : Library) (s : ICF.self) :
  0 < length (ICF.X s) ->
  (forall s1 S1, length (snd (ICF.pass s1 S1)) <= length S1)
  /\ exists outcome,
       ICF._fit s = Some outcome
       /\ (forall fuel, length (ICF.X s) <= fuel ->
                        ICF._fit_fuel fuel s = Some outcome)
       /\ forall s' S passes,
            outcome = Ok (s', S, passes) -> passes <= length (ICF.X s).
Proof.
  intros HN. split; [apply ICF_facts.pass_length|].
  assert (Hsame : forall fuel, length (ICF.X s) <= fuel ->
            ICF._fit_fuel fuel s = ICF._fit_fuel (length (ICF.X s)) s)
    by (intros fuel Hfuel; apply ICF_facts._fit_fuel_same; lia).
  destruct (ICF.ENN_sample_indices (ICF.n_neighbors s) (ICF.X s) (ICF.y s))
    as [S0|e] eqn:HS0.
  - destruct (ICF_facts._fit_fuel_exit s (length (ICF.X s)) S0 HS0)
      as (s' & S & p & Hrun & Hp & Hp' & _); [lia|].
    pose proof (ICF_facts.ENN_length _ _ _ _ HS0).
    exists (Ok (s', S, p)). split; [|split].
    + unfold ICF._fit. rewrite Hsame by lia. exact Hrun.
    + intros fuel Hfuel. rewrite Hsame by exact Hfuel. exact Hrun.
    + intros s1 S1 p1 [= _ _ <-]. lia.
  - exists (Raise e). split; [|split].
    + now apply ICF_facts._fit_fuel_raise.
    + intros fuel _. now apply ICF_facts._fit_fuel_raise.
    + discriminate.
Qed.

(** C3, on the six points. *)
Lemma C3_witness :
  0 < length (ICF.X Examples.icf_two_classes)
  /\ exists s' S passes,
       ICF._fit (lib := Examples.lib) Examples.icf_two_classes
       = Some (Ok (s', S, passes))
       /\ passes <= 6.
Proof.
  split; [simpl; lia|].
  destruct (C3_at_most_N_passes Examples.lib Examples.icf_two_classes)
    as [_ (outcome & Hfit & _ & Hp)]; [simpl; lia|].
  assert (Hret : exists r,
            ICF._fit (lib := Examples.lib) Examples.icf_two_classes
            = Some (Ok r))
    by (vm_compute; eexists; reflexivity).
  destruct Hret as [[[s' S] p] Hret].
  exists s', S, p. split; [exact Hret|].
  apply (Hp s' S p). rewrite Hret in Hfit. now injection Hfit as <-.
Defined.

(** C10: The sequence [S] that ICF's [_fit] returns is a fixed point of the
    removal rule: with distances, nearest-enemy distances, coverage and
    reachability computed over [S] alone, no instance of [S] has a
    reachability above its coverage, and one more pass returns [S]. *)
Theorem C10_result_is_fixed_point (lib : Library) (s : ICF.self)
    (S0 : list nat) :
  ICF.ENN_sample_indices (ICF.n_neighbors s) (ICF.X s) (ICF.y s) = Ok S0 ->
  exists s' S passes,
    ICF._fit s = Some (Ok (s', S, passes))
    /\ (let D := pairwise_distances (ICF.metric s)
                   (np.take_rows (ICF.X s) S) in
        let lab := np.take_rows (ICF.y s) S in
        forall i, i < length S ->
                  Spec.reachability D lab i <= Spec.coverage D lab i)
    /\ (forall i, i < length S ->
                  ICF._get_reachable (ICF.snapshot s S) i
                  <= ICF._get_coverage (ICF.snapshot s S) i)
    /\ snd (fst (ICF.pass s S)) = false
    /\ snd (ICF.pass s S) = S.
Proof.
  intros HS0.
  destruct (ICF_facts._fit_fuel_exit s (Datatypes.S (length (ICF.X s))) S0 HS0)
    as (s' & S & p & Hrun & _ & _ & _ & _ & Hfix); [lia|].
  exists s', S, p. split; [exact Hrun|].
  assert (Hle : forall i, i < length S ->
            ICF._get_reachable (ICF.snapshot s S) i
            <= ICF._get_coverage (ICF.snapshot s S) i).
  { intros i Hi. apply Nat.nlt_ge. intros Hlt.
    apply not_true_iff_false in Hfix. apply Hfix.
    apply existsb_exists. exists i. split; [apply in_seq; lia|].
    unfold icf_removes. now apply Nat.ltb_lt. }
  assert (Hno : snd (fst (ICF.pass s S)) = false)
    by (rewrite ICF_facts.pass_eq; exact Hfix).
  split; [|split; [exact Hle|split; [exact Hno|]]].
  - intros D lab i Hi. specialize (Hle i Hi).
    rewrite ICF_facts.snapshot_coverage in Hle.
    rewrite ICF_facts.snapshot_reachable in Hle by exact Hi.
    exact Hle.
  - now apply ICF_facts.pass_no_progress_same.
Qed.

(** C10, on the six points. *)
Lemma C10_witness :
  ICF.ENN_sample_indices (lib := Examples.lib) 1 Examples.X6 Examples.y6
  = Ok [0; 1; 4; 5]
  /\ exists s' S passes,
       ICF._fit (lib := Examples.lib) Examples.icf_two_classes
       = Some (Ok (s', S, passes))
       /\ snd (ICF.pass (lib := Examples.lib) Examples.icf_two_classes S) = S.
Proof.
  assert (HS0 : ICF.ENN_sample_indices (lib := Examples.lib) 1
                  Examples.X6 Examples.y6 = Ok [0; 1; 4; 5])
    by (vm_compute; reflexivity).
  split; [exact HS0|].
  destruct (C10_result_is_fixed_point Examples.lib Examples.icf_two_classes
              [0; 1; 4; 5] HS0)
    as (s' & S & p & Hfit & _ & _ & _ & Hsame).
  exists s', S, p. split; [exact Hfit|exact Hsame].
Defined.

(** C5 (as amended): On data whose labels are all identical, every
    nearest-enemy distance of ICF is [+infinity], so an adaptability
    comparison is true exactly when the pairwise distance it reads is finite.
    When the pairwise distances of the surviving instances are all finite,
    every comparison is true, coverage and reachability of every surviving
    instance are both the number of the other surviving instances, so the
    rule [reachability > coverage] removes nothing: [_fit] returns after one
    pass what ENN left. *)
Theorem C5_one_class_nothing_removed (lib : Library) (s : ICF.self) (c : Z)
    (S0 : list nat) :
  (forall l, In l (ICF.y s) -> l = c) ->
  length (ICF.X s) = length (ICF.y s) ->
  ICF.ENN_sample_indices (ICF.n_neighbors s) (ICF.X s) (ICF.y s) = Ok S0 ->
  let s0 := ICF.snapshot s S0 in
  (forall idx, idx < length S0 ->
               ICF.distance_nearest_enemy s0 !!! idx = PInf)
  /\ (forall idx idx2,
        ICF._adaptable s0 idx idx2 = true <-> ICF.pd s0 idx idx2 <> PInf)
  /\ ((forall idx idx2, idx < length S0 -> idx2 < length S0 ->
                        ICF.pd s0 idx idx2 <> PInf) ->
      (forall idx idx2, idx < length S0 -> idx2 < length S0 ->
                        ICF._adaptable s0 idx idx2 = true)
      /\ (forall idx, idx < length S0 ->
                      ICF._get_coverage s0 idx = length S0 - 1
                      /\ ICF._get_reachable s0 idx = length S0 - 1)
      /\ exists s', ICF._fit s = Some (Ok (s', S0, 1))).
Proof.
  intros Hy Hlen HS0 s0.
  assert (HS : forall i, In i S0 -> i < length (ICF.y s)).
  { intros i Hi. rewrite <- Hlen. eapply ICF_facts.ENN_bound; eassumption. }
  split; [|split].
  - intros idx _. apply (ICF_facts.one_class_nearest_enemy s S0 c idx Hy HS).
  - intros idx idx2.
    apply (ICF_facts.one_class_adaptable s S0 c idx idx2 Hy HS).
  - intros Hfin. split; [|split].
    + intros idx idx2 Hidx Hidx2.
      apply (ICF_facts.one_class_adaptable s S0 c idx idx2 Hy HS).
      now apply Hfin.
    + intros idx Hidx.
      apply (ICF_facts.one_class_counts s S0 c idx Hy HS Hfin Hidx).
    + destruct (ICF_facts.one_class_pass s S0 c Hy HS Hfin) as [Hno Hsame].
      unfold ICF._fit, ICF._fit_fuel. rewrite HS0. simpl.
      destruct (ICF.pass s S0) as [[s1 progress] S1]. simpl in Hno, Hsame.
      subst progress S1. exists s1. reflexivity.
Qed.

(** C5, on the five points of one class. *)
Lemma C5_witness :
  (forall l, In l Examples.y5 -> l = 1%Z)
  /\ length Examples.X5 = length Examples.y5
  /\ ICF.ENN_sample_indices (lib := Examples.lib) 1 Examples.X5 Examples.y5
     = Ok [0; 1; 2; 3; 4]
  /\ (forall idx idx2, idx < 5 -> idx2 < 5 ->
        ICF.pd (ICF.snapshot (lib := Examples.lib) Examples.icf_one_class
                  [0; 1; 2; 3; 4]) idx idx2 <> PInf)
  /\ exists s',
       ICF._fit (lib := Examples.lib) Examples.icf_one_class
       = Some (Ok (s', [0; 1; 2; 3; 4], 1)).
Proof.
  assert (Hy : forall l, In l Examples.y5 -> l = 1%Z).
  { intros l Hl. simpl in Hl. intuition congruence. }
  assert (HS0 : ICF.ENN_sample_indices (lib := Examples.lib) 1
                  Examples.X5 Examples.y5 = Ok [0; 1; 2; 3; 4])
    by (vm_compute; reflexivity).
  assert (Hfin : forall idx idx2, idx < 5 -> idx2 < 5 ->
            ICF.pd (ICF.snapshot (lib := Examples.lib) Examples.icf_one_class
                      [0; 1; 2; 3; 4]) idx idx2 <> PInf).
  { intros idx idx2 Hidx Hidx2.
    destruct idx as [|[|[|[|[|idx]]]]]; [| | | | |lia];
      (destruct idx2 as [|[|[|[|[|idx2]]]]]; [| | | | |lia]);
      vm_compute; discriminate. }
  split; [exact Hy|]. split; [reflexivity|]. split; [exact HS0|].
  split; [exact Hfin|].
  exact (proj2 (proj2 (proj2 (proj2
           (C5_one_class_nothing_removed Examples.lib Examples.icf_one_class
              1%Z [0; 1; 2; 3; 4] Hy eq_refl HS0)) Hfin))).
Defined.

(** C5 as the specification words it fails on the five points of one class,
    all of which ENN leaves: the comparison of instance 0 with instance 1 is
    adaptable. *)
Lemma C5_counterexample :
  (forall l, In l (ICF.y Examples.icf_one_class) -> l = 1%Z)
  /\ ICF.ENN_sample_indices (lib := Examples.lib) 1 Examples.X5 Examples.y5
     = Ok [0; 1; 2; 3; 4]
  /\ ICF._adaptable
       (ICF.snapshot (lib := Examples.lib) Examples.icf_one_class
          [0; 1; 2; 3; 4]) 0 1 = true
  /\ ~ one_class_never_adaptable Examples.lib Examples.icf_one_class
         [0; 1; 2; 3; 4].
Proof.
  assert (Htrue : ICF._adaptable
                    (ICF.snapshot (lib := Examples.lib) Examples.icf_one_class
                       [0; 1; 2; 3; 4]) 0 1 = true)
    by (vm_compute; reflexivity).
  split; [|split; [|split]].
  - intros l Hl. simpl in Hl. intuition congruence.
  - vm_compute. reflexivity.
  - exact Htrue.
  - intros (_ & Hnever & _).
    specialize (Hnever 0 1). simpl in Hnever.
    rewrite Hnever in Htrue by lia. discriminate.
Qed.

(** C4: Both reducers are functions of their input and configuration.
    DRLSH: the selection does not depend on the state of numpy's generator
    when [_fit] is called (it is reseeded inside), and a second call on the
    same object returns the same selection.  ICF: [_fit] does not depend on
    the attributes left by an earlier pass or call, and a second call on the
    same object returns the same selection after the same passes. *)
Theorem C4_deterministic (lib : Library) :
  (forall (g1 g2 : rng) (d : DRLSH.self),
     snd (DRLSH._fit g1 d) = snd (DRLSH._fit g2 d))
  /\ (forall (g g' g'' : rng) (d d' : DRLSH.self) r,
        DRLSH._fit g d = (g', d', r) -> snd (DRLSH._fit g'' d') = r)
  /\ (forall s1 s2, same_input s1 s2 -> ICF._fit s1 = ICF._fit s2)
  /\ (forall s s' S passes,
        ICF._fit s = Some (Ok (s', S, passes)) ->
        ICF._fit s' = Some (Ok (s', S, passes))).
Proof.
  assert (Hicf : forall s1 s2, same_input s1 s2 -> ICF._fit s1 = ICF._fit s2).
  { intros s1 s2 Hs. unfold ICF._fit, ICF._fit_fuel.
    destruct Hs as (Hk & Hm & HX & Hy). rewrite Hk, HX, Hy.
    destruct (ICF.ENN_sample_indices _ _ _) as [S0|e]; [|reflexivity].
    f_equal. apply ICF_facts.while_progress_ext. repeat split; assumption. }
  split; [|split; [|split]].
  - intros g1 g2 d.
    destruct d as [M L W ST X y].
    exact (proj1 (DRLSH_facts._fit_indep g1 g2 M (DRLSH.mk M L W ST X y))).
  - intros g g' g'' d d' r Hfit.
    assert (Hd' : d' = DRLSH.set_M (int_pow_1_7 (length (DRLSH.X d))) d).
    { destruct (DRLSH_facts._fit_cases g d)
        as [(_ & Hf & _)|(_ & ? & ? & ? & ? & _ & Hf & _)];
        rewrite Hf in Hfit; now injection Hfit as _ <- _. }
    subst d'.
    rewrite (proj1 (DRLSH_facts._fit_indep g'' g _ d)).
    now rewrite Hfit.
  - exact Hicf.
  - intros s s' S p Hfit.
    destruct (ICF.ENN_sample_indices (ICF.n_neighbors s) (ICF.X s) (ICF.y s))
      as [S0|e] eqn:HS0.
    + destruct (ICF_facts._fit_fuel_exit s (Datatypes.S (length (ICF.X s)))
                  S0 HS0)
        as (s1 & S1 & p1 & Hrun & _ & _ & _ & Hin & _); [lia|].
      unfold ICF._fit in Hfit. rewrite Hrun in Hfit.
      injection Hfit as -> -> ->.
      rewrite <- (Hicf s s' Hin). exact Hrun.
    + unfold ICF._fit in Hfit.
      rewrite (ICF_facts._fit_fuel_raise s _ e HS0) in Hfit. discriminate.
Qed.

(** C4, on the six points: two generator states, and two objects that differ
    in what an earlier call left behind. *)
Lemma C4_witness :
  snd (DRLSH._fit (lib := Examples.lib) 3 Examples.drlsh_usage)
  = snd (DRLSH._fit (lib := Examples.lib) 8 Examples.drlsh_usage)
  /\ same_input Examples.icf_two_classes
       (ICF.set_mask [false; true] Examples.icf_two_classes)
  /\ ICF._fit (lib := Examples.lib) Examples.icf_two_classes
     = ICF._fit (lib := Examples.lib)
         (ICF.set_mask [false; true] Examples.icf_two_classes).
Proof.
  split; [|split].
  - exact (proj1 (C4_deterministic Examples.lib) 3 8 Examples.drlsh_usage).
  - repeat split.
  - apply (proj1 (proj2 (proj2 (C4_deterministic Examples.lib)))).
    repeat split.
Defined.

(** ** DRLSH, and the claim on both *)

(** C1: For data of [N] rows, with as many labels, the index sequence that
    DRLSH's [_fit] returns and, when ENN leaves a seed, the one that ICF's
    [_fit] returns are each a subset of [0, N): every element is below [N]
    and none occurs twice. *)
Theorem C1_subset_of_rows (lib : Library) (g : rng) (d : DRLSH.self)
    (i : ICF.self) (S0 : list nat) :
  length (DRLSH.X d) = length (DRLSH.y d) ->
  ICF.ENN_sample_indices (ICF.n_neighbors i) (ICF.X i) (ICF.y i) = Ok S0 ->
  (exists sel,
     snd (DRLSH._fit g d) = Ok sel
     /\ subset_of_rows (length (DRLSH.X d)) sel)
  /\ (exists s' S passes,
        ICF._fit i = Some (Ok (s', S, passes))
        /\ subset_of_rows (length (ICF.X i)) S).
Proof.
  intros Hlen HS0. split.
  - destruct (DRLSH_facts._fit_cases g d)
      as [(Hne & _)|(_ & g' & C & l & B & _ & Hfit & _)]; [congruence|].
    rewrite Hfit. eexists. split; [reflexivity|]. split.
    + apply DRLSH_facts.selected_NoDup.
    + intros x Hx. now apply DRLSH_facts.selected_In in Hx.
  - destruct (ICF_facts._fit_fuel_exit i (Datatypes.S (length (ICF.X i)))
                S0 HS0)
      as (s' & S & p & Hrun & _ & _ & Hsub & _); [lia|].
    exists s', S, p. split; [exact Hrun|]. split.
    + apply NoDup_ListNoDup. eapply sublist_NoDup; [|exact Hsub].
      apply NoDup_ListNoDup. eapply ICF_facts.ENN_NoDup, HS0.
    + intros x Hx.
      apply (ICF_facts.ENN_bound _ _ _ _ x HS0).
      apply list_elem_of_In. eapply elem_of_sublist; [|exact Hsub].
      now apply list_elem_of_In.
Qed.

(** C1, on the six points. *)
Lemma C1_witness :
  length (DRLSH.X Examples.drlsh_one_table)
  = length (DRLSH.y Examples.drlsh_one_table)
  /\ ICF.ENN_sample_indices (lib := Examples.lib) 1 Examples.X6 Examples.y6
     = Ok [0; 1; 4; 5]
  /\ (exists sel,
        snd (DRLSH._fit (lib := Examples.lib) 0 Examples.drlsh_one_table)
        = Ok sel
        /\ subset_of_rows 6 sel)
  /\ (exists s' S passes,
        ICF._fit (lib := Examples.lib) Examples.icf_two_classes
        = Some (Ok (s', S, passes))
        /\ subset_of_rows 6 S).
Proof.
  assert (HS0 : ICF.ENN_sample_indices (lib := Examples.lib) 1
                  Examples.X6 Examples.y6 = Ok [0; 1; 4; 5])
    by (vm_compute; reflexivity).
  split; [reflexivity|]. split; [exact HS0|].
  exact (C1_subset_of_rows Examples.lib 0 Examples.drlsh_one_table
           Examples.icf_two_classes [0; 1; 4; 5] eq_refl HS0).
Defined.

(** C6: The [M] given to the constructor never reaches [_fit]: the first
    statement of [_fit] overwrites it with [int(N ** (1/7))], so the object
    ends with that value and the selection is the same whatever [M] was.
    With the values of the usage example of [drlsh.py], [M = 25], on six
    rows, [_fit] works with [M = 1]. *)
Theorem C6_supplied_M_overwritten :
  (forall (lib : Library) (g : rng) (d : DRLSH.self) (m : nat),
     DRLSH.M (snd (fst (DRLSH._fit g (DRLSH.set_M m d))))
     = int_pow_1_7 (length (DRLSH.X d))
     /\ snd (DRLSH._fit g (DRLSH.set_M m d)) = snd (DRLSH._fit g d))
  /\ DRLSH.M Examples.drlsh_usage = 25
  /\ DRLSH.M (snd (fst (DRLSH._fit (lib := Examples.lib) 0
                          Examples.drlsh_usage))) = 1.
Proof.
  split; [|split; reflexivity].
  intros lib g d m. split.
  - destruct (DRLSH_facts._fit_cases g (DRLSH.set_M m d))
      as [(_ & Hf & _)|(_ & ? & ? & ? & ? & _ & Hf & _)]; now rewrite Hf.
  - apply DRLSH_facts._fit_indep.
Qed.




(** C8: With [ST] above [L], DRLSH flags nothing: a column of the bucket
    matrix has [L] entries, so no count of common buckets reaches [ST]; the
    removal list is empty in every state of every scan and [_fit] returns
    the full range [0, N). *)
Theorem C8_threshold_above_tables (lib : Library) (g : rng) (d : DRLSH.self) :
  length (DRLSH.X d) = length (DRLSH.y d) ->
  (Z.of_nat (DRLSH.L d) < DRLSH.ST d)%Z ->
  snd (DRLSH._fit g d) = Ok (seq 0 (length (DRLSH.X d)))
  /\ forall st,
       In st (DRLSH.scan_states_of_fit g d) ->
       DRLSH.Removed_Samples_Index_ALL st = []
       /\ forall col,
            (Z.of_nat
               (DRLSH.count_common
                  (DRLSH.Bucket_Index_Decimal_All_Class st !!! DRLSH.iii st)
                  col)
             < DRLSH.ST d)%Z.
Proof.
  intros Hlen HST.
  destruct (DRLSH_facts._fit_cases g d)
    as [(Hne & _)|(_ & g' & C & l & B & HB & Hfit & Hstates)]; [congruence|].
  rewrite <- HB in HST. split.
  - rewrite Hfit. simpl.
    rewrite DRLSH_facts.fold_scan_class_no_flag by exact HST.
    now rewrite DRLSH_facts.selected_nothing.
  - intros st Hst. rewrite Hstates in Hst.
    apply (DRLSH_facts.fit_states_no_flag _ _ _ _ _ HST) in Hst
      as [Hcol Hrm].
    split; [exact Hrm|]. intros col.
    pose proof (DRLSH_facts.count_common_le
                  (DRLSH.Bucket_Index_Decimal_All_Class st !!! DRLSH.iii st)
                  col).
    pose proof (DRLSH_facts.lookup_total_at_most _ _ (DRLSH.iii st) Hcol).
    lia.
Qed.

(** C8, with three tables and [ST = 4] on the six points. *)
Lemma C8_witness :
  length (DRLSH.X Examples.drlsh_high_ST)
  = length (DRLSH.y Examples.drlsh_high_ST)
  /\ (Z.of_nat (DRLSH.L Examples.drlsh_high_ST)
      < DRLSH.ST Examples.drlsh_high_ST)%Z
  /\ snd (DRLSH._fit (lib := Examples.lib) 0 Examples.drlsh_high_ST)
     = Ok [0; 1; 2; 3; 4; 5].
Proof.
  split; [reflexivity|]. split; [reflexivity|].
  exact (proj1 (C8_threshold_above_tables Examples.lib 0
                  Examples.drlsh_high_ST eq_refl eq_refl)).
Defined.

(** C9: Through the scans of DRLSH the removal list only grows: every turn
    of the loop, restart or not, leaves what was flagged in place and adds
    to it; from any state of the scans to any later one the list is
    extended; and no index flagged in any state is in the selection that
    [_fit] returns. *)
Theorem C9_flags_only_grow (lib : Library) (g : rng) (d : DRLSH.self) :
  (forall N ST st, flags_kept st (DRLSH.scan_body N ST st))
  /\ monotone_along flags_kept (DRLSH.scan_states_of_fit g d)
  /\ forall st x sel,
       In st (DRLSH.scan_states_of_fit g d) ->
       In x (DRLSH.Removed_Samples_Index_ALL st) ->
       snd (DRLSH._fit g d) = Ok sel ->
       ~ In x sel.
Proof.
  split; [apply DRLSH_facts.scan_body_flags|].
  destruct (DRLSH_facts._fit_cases g d)
    as [(_ & Hfit & Hstates)|(_ & g' & C & l & B & _ & Hfit & Hstates)];
    rewrite Hstates, Hfit; simpl.
  - split; [|intros st x sel []].
    intros i j a b _ Hi. destruct i; discriminate.
  - split; [apply DRLSH_facts.fit_states_monotone|].
    intros st x sel Hst Hx Hsel. injection Hsel as <-.
    rewrite DRLSH_facts.selected_In. intros [_ Hnot]. apply Hnot.
    apply DRLSH_facts.fit_states_to in Hst.
    apply list_elem_of_In. eapply elem_of_prefix; [|exact Hst].
    now apply list_elem_of_In.
Qed.

(** C9, on the six points with one table and [ST = 1]: index 1 is flagged in
    the second state of the scan of class 0, which then restarts. *)
Lemma C9_witness :
  In 1 [1]
  /\ In (DRLSH.mk_scan [0; 2] [[0%Z]; [1%Z]] 1 [7] [1])
        (DRLSH.scan_states_of_fit (lib := Examples.lib) 0 Examples.drlsh_one_table)
  /\ snd (DRLSH._fit (lib := Examples.lib) 0 Examples.drlsh_one_table)
     = Ok [0; 2; 3; 4; 5]
  /\ ~ In 1 [0; 2; 3; 4; 5].
Proof.
  assert (Hst : In (DRLSH.mk_scan [0; 2] [[0%Z]; [1%Z]] 1 [7] [1])
                  (DRLSH.scan_states_of_fit (lib := Examples.lib) 0
                     Examples.drlsh_one_table))
    by (vm_compute; right; left; reflexivity).
  assert (Hfit : snd (DRLSH._fit (lib := Examples.lib) 0
                        Examples.drlsh_one_table) = Ok [0; 2; 3; 4; 5])
    by (vm_compute; reflexivity).
  split; [now left|]. split; [exact Hst|]. split; [exact Hfit|].
  exact (proj2 (proj2 (C9_flags_only_grow Examples.lib 0
                         Examples.drlsh_one_table))
           _ 1 _ Hst (or_introl eq_refl) Hfit).
Defined.

(** * Further properties *)

(** ** ICF *)

Section more_on_distances.

Lemma lt_dist_trans a b c :
  lt_dist a b = true -> lt_dist b c = true -> lt_dist a c = true.
Proof.
  destruct a as [p|], b as [q|], c as [r|]; simpl; try congruence.
  rewrite !Qltb_lt. lra.
Qed.

Lemma lt_dist_irrefl a : lt_dist a a = false.
Proof.
  destruct a as [p|]; simpl; [|reflexivity].
  apply Qltb_ge. lra.
Qed.

(** The running minimum never rises above where it started, whatever the
    candidates. *)
Lemma running_min_fold_below (l : list dist) :
  forall c x,
    lt_dist x (fold_left running_min l c) = true -> lt_dist x c = true.
Proof.
  induction l as [|d l IH]; intros c x Hx; simpl in Hx; [exact Hx|].
  apply IH in Hx. unfold running_min in Hx.
  destruct (lt_dist d c) eqn:Hdc; [|exact Hx].
  now apply (lt_dist_trans x d c).
Qed.

Lemma running_min_fold_lower (l : list dist) :
  forall c x, In x l -> lt_dist x (fold_left running_min l c) = false.
Proof.
  induction l as [|d l IH]; intros c x Hin; [contradiction|]. simpl.
  destruct Hin as [->|Hin]; [|now apply IH].
  apply not_true_iff_false. intros Hx.
  apply running_min_fold_below in Hx. unfold running_min in Hx.
  destruct (lt_dist x c) eqn:Hxc; [|congruence].
  now rewrite lt_dist_irrefl in Hx.
Qed.

Lemma running_min_fold_attained (l : list dist) :
  forall c,
    fold_left running_min l c = c
    \/ exists x, In x l /\ fold_left running_min l c = x.
Proof.
  induction l as [|d l IH]; intros c; simpl; [now left|].
  destruct (IH (running_min c d)) as [Heq|(x & Hx & Heq)].
  - rewrite Heq. unfold running_min. destruct (lt_dist d c).
    + right. exists d. split; [now left|reflexivity].
    + now left.
  - right. exists x. split; [now right|exact Heq].
Qed.

End more_on_distances.

Section sorted_lists.

Lemma sublist_strongly_sorted {A} (R : A -> A -> Prop) (k l : list A) :
  sublist k l -> StronglySorted R l -> StronglySorted R k.
Proof.
  induction 1 as [|x k l Hkl IH|x k l Hkl IH]; intros Hs.
  - constructor.
  - apply StronglySorted_inv in Hs as [Hl Hx].
    constructor; [now apply IH|].
    rewrite List.Forall_forall in *. intros z Hz. apply Hx.
    apply list_elem_of_In. eapply elem_of_sublist; [|exact Hkl].
    now apply list_elem_of_In.
  - apply StronglySorted_inv in Hs as [Hl _]. now apply IH.
Qed.

Lemma seq_strongly_sorted a n : StronglySorted lt (seq a n).
Proof.
  revert a. induction n as [|n IH]; intros a; simpl; constructor.
  - apply IH.
  - apply List.Forall_forall. intros z Hz. apply in_seq in Hz. lia.
Qed.

End sorted_lists.

Module ICF_more.
Import ICF.

Section WithLibrary.
Context {lib : Library}.

Lemma while_progress_nonempty fuel :
  forall s S p s' S' p',
    while_progress fuel s S p = Some (s', S', p') ->
    S <> [] -> S' <> [].
Proof.
  induction fuel as [|fuel IH]; intros s S p s' S' p'; simpl;
    [discriminate|].
  pose proof (ICF_facts.pass_nonempty s S) as Hne.
  destruct (pass s S) as [[s1 progress] S1]. simpl in Hne.
  destruct progress.
  - intros Hrun HS. eapply IH; [exact Hrun|now apply Hne].
  - intros [= _ <- _] HS. now apply Hne.
Qed.

(** Every pass but the last removes an instance. *)
Lemma while_progress_count fuel :
  forall s S p s' S' p',
    while_progress fuel s S p = Some (s', S', p') ->
    length S' + p' <= length S + p + 1.
Proof.
  induction fuel as [|fuel IH]; intros s S p s' S' p'; simpl;
    [discriminate|].
  pose proof (ICF_facts.pass_progress_shrinks s S) as Hshrink.
  pose proof (ICF_facts.pass_length s S) as Hlen.
  destruct (pass s S) as [[s1 progress] S1]. simpl in Hshrink, Hlen.
  destruct progress.
  - intros Hrun. apply IH in Hrun. specialize (Hshrink eq_refl). lia.
  - intros [= _ <- <-]. lia.
Qed.

Lemma _fit_loop s S0 r :
  ENN_sample_indices (n_neighbors s) (X s) (y s) = Ok S0 ->
  _fit s = Some (Ok r) ->
  while_progress (Datatypes.S (length (X s))) s S0 0 = Some r.
Proof.
  unfold _fit, _fit_fuel. intros ->.
  destruct (while_progress _ _ _ _) as [r'|]; simpl; congruence.
Qed.

End WithLibrary.
End ICF_more.

(** X1: After [_set_distance_nearest_enemy], the distance recorded for an
    instance is the distance to its nearest enemy: no instance of another
    class is strictly nearer, the value is [inf] when the instance has no
    enemy, and it is otherwise the distance to one of its enemies. *)
Theorem X1_nearest_enemy_is_minimum (s : ICF.self) (idx : nat) :
  idx < length (ICF.X_ s) ->
  let d := ICF.distance_nearest_enemy (ICF._set_distance_nearest_enemy s)
             !!! idx in
  (forall idx2,
     idx2 < length (ICF.X_ s) ->
     ICF.y_ s !!! idx <> ICF.y_ s !!! idx2 ->
     lt_dist (ICF.pd s idx idx2) d = false)
  /\ ((forall idx2, idx2 < length (ICF.X_ s) ->
                    ICF.y_ s !!! idx = ICF.y_ s !!! idx2) ->
      d = PInf)
  /\ (d = PInf
      \/ exists idx2,
           idx2 < length (ICF.X_ s)
           /\ ICF.y_ s !!! idx <> ICF.y_ s !!! idx2
           /\ d = ICF.pd s idx idx2).
Proof.
  intros Hidx d.
  assert (Hd : d = fold_left running_min
                     (map (ICF.pd s idx)
                        (List.filter
                           (fun idx2 =>
                              negb (ICF.y_ s !!! idx =? ICF.y_ s !!! idx2)%Z)
                           (seq 0 (length (ICF.X_ s)))))
                     PInf).
  { unfold d. rewrite ICF_facts.nearest_enemy_slots.
    rewrite (list_lookup_total_fmap _ (seq 0 (length (ICF.X_ s))))
      by (rewrite length_seq; exact Hidx).
    now rewrite lookup_total_seq_lt by exact Hidx. }
  split; [|split].
  - intros idx2 Hidx2 Hne. rewrite Hd.
    apply running_min_fold_lower. apply in_map.
    apply filter_In. split; [apply in_seq; lia|].
    apply negb_true_iff, Z.eqb_neq. exact Hne.
  - intros Hsame. rewrite Hd.
    rewrite filter_none; [reflexivity|].
    intros idx2 Hidx2. apply in_seq in Hidx2.
    rewrite <- (Hsame idx2) by lia. now rewrite Z.eqb_refl.
  - rewrite Hd.
    destruct (running_min_fold_attained
                (map (ICF.pd s idx)
                   (List.filter
                      (fun idx2 =>
                         negb (ICF.y_ s !!! idx =? ICF.y_ s !!! idx2)%Z)
                      (seq 0 (length (ICF.X_ s)))))
                PInf) as [Heq|(x & Hx & Heq)]; [now left|].
    right. apply in_map_iff in Hx as (idx2 & <- & Hidx2).
    apply filter_In in Hidx2 as [Hidx2 Hne]. apply in_seq in Hidx2.
    exists idx2. split; [lia|]. split; [|exact Heq].
    now apply Z.eqb_neq, negb_true_iff.
Qed.

(** X1, on three rows of classes 0, 0, 1: the nearest enemy of row 0 is
    row 2, at distance 3. *)
Lemma X1_witness :
  0 < length (ICF.X_ MoreExamples.icf_mid_pass)
  /\ ICF.distance_nearest_enemy
       (ICF._set_distance_nearest_enemy MoreExamples.icf_mid_pass) !!! 0
     = Fin 3
  /\ lt_dist (ICF.pd MoreExamples.icf_mid_pass 0 2) (Fin 3) = false.
Proof.
  assert (Hd : ICF.distance_nearest_enemy
                 (ICF._set_distance_nearest_enemy MoreExamples.icf_mid_pass)
                 !!! 0 = Fin 3) by (vm_compute; reflexivity).
  split; [simpl; lia|]. split; [exact Hd|].
  rewrite <- Hd.
  apply (proj1 (X1_nearest_enemy_is_minimum MoreExamples.icf_mid_pass 0
                  ltac:(simpl; lia)) 2).
  - simpl; lia.
  - vm_compute. discriminate.
Defined.

(** X2: In every pass of ICF the coverage counts and the reachability counts
    add up to the same total: each counts the ordered pairs of distinct
    surviving instances of which the first is adaptable to the second. *)
Theorem X2_coverage_and_reachability_balance (lib : Library) (s : ICF.self)
    (S : list nat) :
  list_sum (fst (ICF.measure_all (ICF.snapshot s S)))
  = list_sum (snd (ICF.measure_all (ICF.snapshot s S))).
Proof.
  assert (Hm : ICF.mask (ICF.snapshot s S)
               = replicate (length (ICF.X_ (ICF.snapshot s S))) true)
    by (now rewrite ICF_facts.snapshot_mask, ICF_facts.snapshot_length).
  rewrite (ICF_facts.measure_all_eq _ Hm). simpl.
  symmetry. now apply ICF_facts.coverage_reachable_sum.
Qed.

(** X3: ICF never returns an empty selection when ENN leaves at least one
    instance: a pass does not remove every instance. *)
Theorem X3_icf_keeps_an_instance (lib : Library) (s : ICF.self)
    (S0 : list nat) :
  ICF.ENN_sample_indices (ICF.n_neighbors s) (ICF.X s) (ICF.y s) = Ok S0 ->
  S0 <> [] ->
  (forall s1 S1, S1 <> [] -> snd (ICF.pass s1 S1) <> [])
  /\ exists s' S passes,
       ICF._fit s = Some (Ok (s', S, passes)) /\ S <> [].
Proof.
  intros HS0 Hne. split; [intros s1 S1; apply ICF_facts.pass_nonempty|].
  destruct (ICF_facts._fit_fuel_exit s (Datatypes.S (length (ICF.X s))) S0 HS0)
    as (s' & S & p & Hrun & _); [lia|].
  exists s', S, p. split; [exact Hrun|].
  pose proof (ICF_more._fit_loop s S0 _ HS0 Hrun) as Hloop.
  eapply ICF_more.while_progress_nonempty; eassumption.
Qed.

(** X3, on the six points. *)
Lemma X3_witness :
  ICF.ENN_sample_indices (lib := Examples.lib) 1 Examples.X6 Examples.y6
  = Ok [0; 1; 4; 5]
  /\ [0; 1; 4; 5] <> []
  /\ exists s' S passes,
       ICF._fit (lib := Examples.lib) Examples.icf_two_classes
       = Some (Ok (s', S, passes))
       /\ S <> [].
Proof.
  assert (HS0 : ICF.ENN_sample_indices (lib := Examples.lib) 1
                  Examples.X6 Examples.y6 = Ok [0; 1; 4; 5])
    by (vm_compute; reflexivity).
  split; [exact HS0|]. split; [discriminate|].
  exact (proj2 (X3_icf_keeps_an_instance Examples.lib
                  Examples.icf_two_classes [0; 1; 4; 5] HS0
                  ltac:(discriminate))).
Defined.

(** X4: The sequence that ICF's [_fit] returns is a subsequence of the one
    ENN left, in the same order, so its indices increase strictly. *)
Theorem X4_icf_result_in_row_order (lib : Library) (s : ICF.self)
    (S0 : list nat) :
  ICF.ENN_sample_indices (ICF.n_neighbors s) (ICF.X s) (ICF.y s) = Ok S0 ->
  exists s' S passes,
    ICF._fit s = Some (Ok (s', S, passes))
    /\ sublist S S0
    /\ StronglySorted lt S.
Proof.
  intros HS0.
  destruct (ICF_facts._fit_fuel_exit s (Datatypes.S (length (ICF.X s))) S0 HS0)
    as (s' & S & p & Hrun & _ & _ & Hsub & _); [lia|].
  exists s', S, p. split; [exact Hrun|]. split; [exact Hsub|].
  apply (sublist_strongly_sorted lt S (seq 0 (length (ICF.X s)))).
  - etransitivity; [exact Hsub|]. eapply ICF_facts.ENN_sublist, HS0.
  - apply seq_strongly_sorted.
Qed.

(** X4, on the six points. *)
Lemma X4_witness :
  ICF.ENN_sample_indices (lib := Examples.lib) 1 Examples.X6 Examples.y6
  = Ok [0; 1; 4; 5]
  /\ exists s' S passes,
       ICF._fit (lib := Examples.lib) Examples.icf_two_classes
       = Some (Ok (s', S, passes))
       /\ StronglySorted lt S.
Proof.
  assert (HS0 : ICF.ENN_sample_indices (lib := Examples.lib) 1
                  Examples.X6 Examples.y6 = Ok [0; 1; 4; 5])
    by (vm_compute; reflexivity).
  split; [exact HS0|].
  destruct (X4_icf_result_in_row_order Examples.lib Examples.icf_two_classes
              [0; 1; 4; 5] HS0) as (s' & S & p & Hfit & _ & Hsorted).
  exists s', S, p. split; [exact Hfit|exact Hsorted].
Defined.

(** X5: Every pass of ICF but the last removes at least one instance: after
    [passes] passes the returned sequence has at most
    [len(S0) - (passes - 1)] elements, [S0] being what ENN left. *)
Theorem X5_each_pass_but_last_removes (lib : Library) (s : ICF.self)
    (S0 : list nat) :
  ICF.ENN_sample_indices (ICF.n_neighbors s) (ICF.X s) (ICF.y s) = Ok S0 ->
  (forall s1 S1, snd (fst (ICF.pass s1 S1)) = true ->
                 length (snd (ICF.pass s1 S1)) < length S1)
  /\ exists s' S passes,
       ICF._fit s = Some (Ok (s', S, passes))
       /\ 1 <= passes
       /\ length S + passes <= length S0 + 1.
Proof.
  intros HS0. split; [intros s1 S1; apply ICF_facts.pass_progress_shrinks|].
  destruct (ICF_facts._fit_fuel_exit s (Datatypes.S (length (ICF.X s))) S0 HS0)
    as (s' & S & p & Hrun & Hp & _); [lia|].
  exists s', S, p. split; [exact Hrun|]. split; [lia|].
  pose proof (ICF_more._fit_loop s S0 _ HS0 Hrun) as Hloop.
  apply ICF_more.while_progress_count in Hloop. lia.
Qed.

(** X5, on the six points. *)
Lemma X5_witness :
  ICF.ENN_sample_indices (lib := Examples.lib) 1 Examples.X6 Examples.y6
  = Ok [0; 1; 4; 5]
  /\ exists s' S passes,
       ICF._fit (lib := Examples.lib) Examples.icf_two_classes
       = Some (Ok (s', S, passes))
       /\ length S + passes <= 5.
Proof.
  assert (HS0 : ICF.ENN_sample_indices (lib := Examples.lib) 1
                  Examples.X6 Examples.y6 = Ok [0; 1; 4; 5])
    by (vm_compute; reflexivity).
  split; [exact HS0|].
  destruct (X5_each_pass_but_last_removes Examples.lib
              Examples.icf_two_classes [0; 1; 4; 5] HS0)
    as [_ (s' & S & p & Hfit & _ & Hcount)].
  exists s', S, p. split; [exact Hfit|exact Hcount].
Defined.

(** ** DRLSH *)

Module DRLSH_more.
Import DRLSH.

(** The position of an element among distinct ones is the only one that
    its comparison finds. *)
Lemma where_single {A} (eqb : A -> A -> bool) (x : A) (l : list A) :
  (forall u, In u l -> eqb x u = true <-> x = u) ->
  List.NoDup l ->
  forall p k,
    l !! p = Some x ->
    np.mask_select (seq k (length l)) (map (eqb x) l) = [k + p].
Proof.
  intros Heqb Hnd. induction Hnd as [|h l Hh Hnd IH]; intros p k Hp;
    [discriminate|].
  simpl. rewrite mask_select_cons.
  destruct p as [|p]; simpl in Hp.
  - injection Hp as ->.
    rewrite (proj2 (Heqb x (or_introl eq_refl)) eq_refl).
    rewrite Nat.add_0_r. f_equal.
    apply mask_select_all_false. intros b Hb.
    apply in_map_iff in Hb as (u & <- & Hu).
    apply not_true_iff_false. intros Hxu.
    apply Heqb in Hxu; [|now right]. now subst u.
  - destruct (eqb x h) eqn:Hxh.
    + apply Heqb in Hxh; [|now left]. subst h.
      exfalso. apply Hh. apply list_elem_of_In, list_elem_of_lookup. eauto.
    + rewrite (IH (fun u Hu => Heqb u (or_intror Hu)) p (S k) Hp).
      f_equal. lia.
Qed.

Lemma flat_map_singletons {A B} (f : A -> list B) (g : A -> B)
    (l : list A) :
  (forall x, In x l -> f x = [g x]) -> flat_map f l = map g l.
Proof.
  induction l as [|x l IH]; intros Hf; simpl; [reflexivity|].
  rewrite (Hf x) by now left. simpl. f_equal.
  apply IH. intros; apply Hf; now right.
Qed.

(** The bucket id of a sample is the position of its signature among the
    distinct signatures of the table. *)
Lemma Bucket_Index_Decimal_lookup (BI : list (list Z)) n sig :
  (forall u v, In u BI -> In v BI -> length u = length v) ->
  BI !! n = Some sig ->
  exists p,
    Bucket_Index_Decimal BI (np.unique np.lex_compare BI) !! n
    = Some (Z.of_nat p)
    /\ np.unique np.lex_compare BI !! p = Some sig.
Proof.
  intros Hlen Hn.
  assert (Hpos : forall s, In s BI ->
            exists p, np.unique np.lex_compare BI !! p = Some s).
  { intros s Hs. apply list_elem_of_lookup, list_elem_of_In.
    exact (proj2 (unique_In np.lex_compare lex_compare_eq s BI) Hs). }
  assert (Hone : forall s p, In s BI ->
            np.unique np.lex_compare BI !! p = Some s ->
            map Z.of_nat
              (np.where_
                 (map (all_equal s) (np.unique np.lex_compare BI)))
            = [Z.of_nat p]).
  { intros s p Hs Hp. unfold np.where_. rewrite length_map.
    rewrite (where_single all_equal s _) with (p := p);
      [reflexivity| | |exact Hp].
    - intros u Hu. apply DRLSH_facts.all_equal_eq, Hlen; [exact Hs|].
      exact (proj1 (unique_In np.lex_compare lex_compare_eq u BI) Hu).
    - apply unique_NoDup.
      + apply lex_compare_eq.
      + intros x y. apply lex_compare_antisym.
      + intros x y z. apply lex_compare_trans. }
  assert (Hsig : In sig BI)
    by (apply list_elem_of_In, list_elem_of_lookup; eauto).
  destruct (Hpos sig Hsig) as [p Hp]. exists p. split; [|exact Hp].
  unfold Bucket_Index_Decimal.
  assert (Hsplit : BI = take n BI ++ sig :: drop (S n) BI)
    by (symmetry; now apply take_drop_middle).
  assert (Hcount : forall l, incl l BI ->
            length
              (flat_map
                 (fun s =>
                    map Z.of_nat
                      (np.where_
                         (map (all_equal s)
                            (np.unique np.lex_compare BI))))
                 l) = length l).
  { induction l as [|s l IH]; intros Hl; [reflexivity|]. simpl.
    destruct (Hpos s (Hl s (or_introl eq_refl))) as [q Hq].
    rewrite (Hone s q) by (try exact Hq; apply Hl; now left).
    simpl. f_equal. apply IH. intros z Hz. apply Hl. now right. }
  rewrite Hsplit at 1. rewrite flat_map_app. simpl.
  rewrite (Hone sig p Hsig Hp). simpl.
  rewrite lookup_app_r; rewrite Hcount;
    try (intros z Hz; apply list_elem_of_In;
         eapply elem_of_sublist; [apply list_elem_of_In, Hz|];
         apply sublist_take);
    rewrite length_take_le
      by (apply Nat.lt_le_incl, lookup_lt_is_Some; eauto);
    [|lia].
  now rewrite Nat.sub_diag.
Qed.

Lemma selected_sorted N Removed : StronglySorted lt (selected N Removed).
Proof.
  unfold selected. rewrite setdiff1d_arange.
  eapply sublist_strongly_sorted; [apply filter_sublist|].
  apply seq_strongly_sorted.
Qed.

End DRLSH_more.

(** X6: Each turn of the scan of a class, with or without a restart, leaves
    fewer instances to visit, so the scan makes at most [len(All_Indexes)]
    turns: after that many the loop condition is false, and allowing more
    turns changes nothing. *)
Theorem X6_class_scan_terminates (N : nat) (ST : Z) (st : DRLSH.scan)
    (B : list (list Z)) (labels : list Q) (Removed : list nat) (classID : Q) :
  DRLSH.iii st < length (DRLSH.All_Indexes st) ->
  scan_measure (DRLSH.scan_body N ST st) < scan_measure st
  /\ (let st0 := DRLSH.class_start N B labels Removed classID in
      let st' :=
        DRLSH.scan_while (length (DRLSH.All_Indexes st0)) N ST st0 in
      (DRLSH.iii st' <? length (DRLSH.All_Indexes st')) = false
      /\ forall k,
           DRLSH.scan_while (length (DRLSH.All_Indexes st0) + k) N ST st0
           = st').
Proof.
  intros Hlt. split.
  - now apply DRLSH_facts.scan_body_measure.
  - apply DRLSH_facts.scan_class_reaches_exit.
Qed.

(** X6, on a scan state with three of four instances left to visit. *)
Lemma X6_witness :
  DRLSH.iii MoreDRLSH.scan_mid
  < length (DRLSH.All_Indexes MoreDRLSH.scan_mid)
  /\ scan_measure (DRLSH.scan_body 7 1 MoreDRLSH.scan_mid)
     < scan_measure MoreDRLSH.scan_mid.
Proof.
  split; [simpl; lia|].
  apply (X6_class_scan_terminates 7 1 MoreDRLSH.scan_mid [] [] [] 0%Q).
  simpl; lia.
Defined.

(** X9: The indices that DRLSH's [_fit] returns are in strictly increasing
    order. *)
Theorem X9_drlsh_result_in_row_order (lib : Library) (g : rng)
    (d : DRLSH.self) (sel : list nat) :
  snd (DRLSH._fit g d) = Ok sel -> StronglySorted lt sel.
Proof.
  intros Hsel.
  destruct (DRLSH_facts._fit_cases g d)
    as [(_ & Hfit & _)|(_ & g' & C & l & B & _ & Hfit & _)];
    rewrite Hfit in Hsel; simpl in Hsel; [discriminate|].
  injection Hsel as <-. apply DRLSH_more.selected_sorted.
Qed.

(** X9, on the six points. *)
Lemma X9_witness :
  snd (DRLSH._fit (lib := Examples.lib) 0 Examples.drlsh_one_table)
  = Ok [0; 2; 3; 4; 5]
  /\ StronglySorted lt [0; 2; 3; 4; 5].
Proof.
  assert (Hfit : snd (DRLSH._fit (lib := Examples.lib) 0
                        Examples.drlsh_one_table) = Ok [0; 2; 3; 4; 5])
    by (vm_compute; reflexivity).
  split; [exact Hfit|].
  exact (X9_drlsh_result_in_row_order Examples.lib 0
           Examples.drlsh_one_table _ Hfit).
Defined.

Section scan_in_values.

Lemma insert_map_NoDup {A} `{Inhabited A} (f : nat -> A) (v : A)
    (l : list nat) :
  List.NoDup l ->
  forall i x,
    l !! i = Some x ->
    <[i := v]> (map f l) = map (fun y => if y =? x then v else f y) l.
Proof.
  induction 1 as [|h l Hh Hnd IH]; intros i x Hi; [discriminate|].
  destruct i as [|i]; simpl in Hi.
  - injection Hi as ->. simpl. rewrite Nat.eqb_refl. f_equal.
    apply map_ext_in. intros y Hy.
    destruct (Nat.eqb_spec y x) as [->|]; [contradiction|reflexivity].
  - simpl. rewrite (IH i x Hi).
    destruct (Nat.eqb_spec h x) as [->|]; [|reflexivity].
    exfalso. apply Hh. apply list_elem_of_In, list_elem_of_lookup. eauto.
Qed.

Lemma mask_select_map_map {A B} (f : A -> B) (p : A -> bool) (a : list A) :
  np.mask_select (map f a) (map p a) = map f (List.filter p a).
Proof.
  induction a as [|x a IH]; [reflexivity|].
  simpl. rewrite mask_select_cons, IH. destruct (p x); reflexivity.
Qed.

Lemma filter_filter_and {A} (p q : A -> bool) (a : list A) :
  List.filter q (List.filter p a) = List.filter (fun x => p x && q x) a.
Proof.
  induction a as [|x a IH]; [reflexivity|]. simpl.
  destruct (p x); simpl; [destruct (q x)|]; now rewrite IH.
Qed.

Lemma count_common_sym u : forall v,
  DRLSH.count_common u v = DRLSH.count_common v u.
Proof.
  unfold DRLSH.count_common.
  induction u as [|a u IH]; intros [|b v]; cbn -[Z.eqb]; try reflexivity.
  rewrite (Z.eqb_sym b a). destruct (a =? b)%Z; cbn -[Z.eqb]; now rewrite IH.
Qed.

(** The column of [-1] that stands in for the current sample agrees with
    no table of non-negative ids. *)
Lemma count_common_masked (u : list Z) :
  (forall z, In z u -> (0 <= z)%Z) ->
  forall n, DRLSH.count_common u (replicate n (-1)%Z) = 0.
Proof.
  unfold DRLSH.count_common.
  induction u as [|a u IH]; intros Hu [|n]; cbn -[Z.eqb]; try reflexivity.
  assert (0 <= a)%Z by (apply Hu; now left).
  rewrite (proj2 (Z.eqb_neq (-1) a)) by lia.
  apply IH. intros; apply Hu; now right.
Qed.

Lemma list_min_le (l : list nat) x : In x l -> DRLSH.list_min l <= x.
Proof.
  destruct l as [|h t]; [contradiction|]. simpl.
  assert (Hfold : forall t a, fold_left Nat.min t a <= a
            /\ forall z, In z t -> fold_left Nat.min t a <= z).
  { clear. induction t as [|b t IH]; intros a; simpl; [split; [lia|tauto]|].
    destruct (IH (Nat.min a b)) as [H1 H2]. split; [lia|].
    intros z [->|Hz]; [lia|now apply H2]. }
  destruct (Hfold t h) as [H1 H2].
  intros [->|Hx]; [exact H1|now apply H2].
Qed.

Lemma redundant_sym ST u v :
  MoreDRLSH.redundant ST u v = MoreDRLSH.redundant ST v u.
Proof. unfold MoreDRLSH.redundant. now rewrite (count_common_sym u v). Qed.

(** One turn of the scan, read on the row indices of the window: the
    instances flagged are the other instances of the window that are
    redundant with the current one. *)
Lemma scan_body_values (col : nat -> list Z) N ST st :
  DRLSH.Bucket_Index_Decimal_All_Class st = map col (DRLSH.All_Indexes st) ->
  List.NoDup (DRLSH.All_Indexes st) ->
  DRLSH.iii st < length (DRLSH.All_Indexes st) ->
  (forall z, In z (col (DRLSH.All_Indexes st !!! DRLSH.iii st)) ->
             (0 <= z)%Z) ->
  let cur := DRLSH.All_Indexes st !!! DRLSH.iii st in
  let RC :=
    List.filter
      (fun y => negb (y =? cur) && MoreDRLSH.redundant ST (col cur) (col y))
      (DRLSH.All_Indexes st) in
  let Temporal := DRLSH.Temporal_Removed_Samples st ++ RC in
  DRLSH.scan_body N ST st
  = if ((DRLSH.iii st + 1 <? length (DRLSH.All_Indexes st))
        && (DRLSH.list_min Temporal
            <=? DRLSH.All_Indexes st !!! (DRLSH.iii st + 1)))
       || (DRLSH.restart_cap <? DRLSH.iii st)
    then
      let AI' :=
        List.filter (fun y => negb (existsb (Nat.eqb y) Temporal))
                    (DRLSH.All_Indexes st) in
      DRLSH.mk_scan (drop (DRLSH.iii st) AI')
        (map col (drop (DRLSH.iii st) AI')) 1 [N + 1]
        (DRLSH.Removed_Samples_Index_ALL st ++ RC)
    else
      DRLSH.mk_scan (DRLSH.All_Indexes st) (map col (DRLSH.All_Indexes st))
        (DRLSH.iii st + 1) Temporal
        (DRLSH.Removed_Samples_Index_ALL st ++ RC).
Proof.
  intros HB Hnd Hi Hpos cur RC Temporal.
  destruct st as [AI B i T R]. cbn [DRLSH.All_Indexes
    DRLSH.Bucket_Index_Decimal_All_Class DRLSH.iii
    DRLSH.Temporal_Removed_Samples DRLSH.Removed_Samples_Index_ALL] in *.
  subst B.
  assert (Hcur : AI !! i = Some cur)
    by (now apply list_lookup_lookup_total_lt).
  assert (Hcol : map col AI !!! i = col cur)
    by (now rewrite (list_lookup_total_fmap col AI i Hi)).
  set (v := replicate (length (col cur)) (-1)%Z).
  set (cnt := fun y => DRLSH.count_common (col cur)
                         (if y =? cur then v else col y)).
  assert (HB1 : <[i := v]> (map col AI)
                = map (fun y => if y =? cur then v else col y) AI)
    by (now apply insert_map_NoDup).
  assert (HRC :
    np.mask_select
      (np.mask_select AI (map (Nat.ltb 0) (map cnt AI)))
      (map (fun f => (ST <=? Z.of_nat f)%Z)
         (np.mask_select (map cnt AI) (map (Nat.ltb 0) (map cnt AI))))
    = RC).
  { rewrite !map_map.
    rewrite (mask_select_map (fun y => 0 <? cnt y) AI).
    rewrite (mask_select_map_map cnt (fun y => 0 <? cnt y) AI).
    rewrite map_map.
    rewrite (mask_select_map
               (fun y => (ST <=? Z.of_nat (cnt y))%Z)
               (List.filter (fun y => 0 <? cnt y) AI)).
    rewrite filter_filter_and. unfold RC.
    apply filter_ext. intros y. unfold cnt, MoreDRLSH.redundant.
    destruct (Nat.eqb_spec y cur) as [->|Hne]; simpl; [|reflexivity].
    unfold v. now rewrite count_common_masked. }
  assert (HB2 : <[i := col cur]>
                  (map (fun y => if y =? cur then v else col y) AI)
                = map col AI).
  { rewrite <- HB1, list_insert_insert_eq.
    apply list_insert_id. now rewrite list_lookup_fmap, Hcur. }
  unfold DRLSH.scan_body. cbv zeta.
  cbn [DRLSH.All_Indexes DRLSH.Bucket_Index_Decimal_All_Class DRLSH.iii
       DRLSH.Temporal_Removed_Samples DRLSH.Removed_Samples_Index_ALL].
  rewrite Hcol. fold v. rewrite HB1.
  rewrite (map_map (fun y => if y =? cur then v else col y)
                   (DRLSH.count_common (col cur)) AI).
  fold cnt. rewrite HRC, HB2. fold Temporal.
  destruct (((i + 1 <? length AI)
             && (DRLSH.list_min Temporal <=? AI !!! (i + 1)))
            || (DRLSH.restart_cap <? i)); [|reflexivity].
  cbv zeta. unfold np.isin. rewrite !map_map.
  rewrite (mask_select_map
             (fun y => negb (existsb (Nat.eqb y) Temporal)) AI).
  rewrite (mask_select_map_map col
             (fun y => negb (existsb (Nat.eqb y) Temporal)) AI).
  now rewrite <- (fmap_drop col).
Qed.

End scan_in_values.

Section scan_invariant.

Variable col : nat -> list Z.
Variable ST : Z.
Variable N : nat.
Variable C R0 : list nat.
Hypothesis C_bound : forall x, In x C -> x < N + 1.
Hypothesis col_nonneg : forall x z, In z (col x) -> (0 <= z)%Z.

Lemma filter_all {A} (p : A -> bool) (l : list A) :
  (forall x, In x l -> p x = true) -> List.filter p l = l.
Proof.
  induction l as [|a l IH]; intros Hall; [reflexivity|]. simpl.
  rewrite (Hall a) by now left.
  f_equal. apply IH. intros; apply Hall; now right.
Qed.

Lemma not_existsb_eqb (x : nat) (l : list nat) :
  negb (existsb (Nat.eqb x) l) = true <-> ~ In x l.
Proof.
  rewrite negb_true_iff, <- not_true_iff_false, existsb_exists.
  split; intros Hn Hin; apply Hn.
  - exists x. split; [exact Hin|apply Nat.eqb_refl].
  - destruct Hin as (z & Hz & He). apply Nat.eqb_eq in He. now subst.
Qed.

Lemma split_at (l : list nat) i :
  i < length l ->
  l = take i l ++ (l !!! i) :: drop (i + 1) l
  /\ drop i l = (l !!! i) :: drop (i + 1) l.
Proof.
  intros Hi.
  assert (Hl : l !! i = Some (l !!! i))
    by now apply list_lookup_lookup_total_lt.
  assert (Hd : drop i l = (l !!! i) :: drop (i + 1) l).
  { rewrite Nat.add_1_r. now apply drop_S. }
  split; [|exact Hd].
  now rewrite <- Hd, take_drop.
Qed.

(** One turn of the loop keeps the invariant: the current sample joins the
    visited instances, the instances it flags join the flagged ones. *)
Lemma scan_body_inv st V F :
  MoreDRLSH.scan_inv col ST N C R0 st V F ->
  DRLSH.iii st < length (DRLSH.All_Indexes st) ->
  exists F',
    MoreDRLSH.scan_inv col ST N C R0 (DRLSH.scan_body N ST st)
      (DRLSH.All_Indexes st !!! DRLSH.iii st :: V) F'.
Proof.
  intros [Hcols Hnd Hwin Hvis Htemp Hcur Hmark Hrem Hflag Hkept Hind Hcov
          Hfm Hgone] Hi.
  pose proof (scan_body_values col N ST st Hcols Hnd Hi
                (col_nonneg _)) as Hbody.
  cbv zeta in Hbody.
  destruct st as [AI B i T R]. cbn [DRLSH.All_Indexes
    DRLSH.Bucket_Index_Decimal_All_Class DRLSH.iii
    DRLSH.Temporal_Removed_Samples DRLSH.Removed_Samples_Index_ALL] in *.
  set (cur := AI !!! i) in *.
  set (RC := List.filter
               (fun y => negb (y =? cur)
                         && MoreDRLSH.redundant ST (col cur) (col y)) AI)
    in *.
  destruct (split_at AI i Hi) as [HAI HD]. fold cur in HAI, HD.
  set (D' := drop (i + 1) AI) in *.
  specialize (Hcur Hi).
  assert (HndD : ~ In cur (take i AI) /\ ~ In cur D'
                 /\ List.NoDup D'
                 /\ forall x, In x (take i AI) -> ~ In x D').
  { rewrite HAI in Hnd. apply NoDup_app_remove_l in Hnd as Hnd2.
    apply NoDup_cons_iff in Hnd2 as [Hc HD'].
    pose proof (NoDup_remove_2 _ _ _ Hnd) as Hc2.
    split; [|split; [exact Hc|split; [exact HD'|]]].
    - intros Hin. apply Hc2. apply in_or_app. now left.
    - intros x Hx HxD.
      apply NoDup_remove_1 in Hnd.
      revert Hnd x Hx HxD. generalize (take i AI) as l.
      induction l as [|a l IH]; intros Hnd x Hx HxD; [contradiction|].
      simpl in Hnd. apply NoDup_cons_iff in Hnd as [Ha Hl].
      destruct Hx as [->|Hx]; [|now apply (IH Hl x)].
      apply Ha. apply in_or_app. now right. }
  destruct HndD as (HcurT & HcurD & HndD' & Hdisj).
  assert (HcurAI : In cur AI).
  { rewrite HAI. apply in_or_app. right. now left. }
  assert (HD'AI : forall x, In x D' -> In x AI).
  { intros x Hx. rewrite HAI. apply in_or_app. right. now right. }
  assert (HcurD0 : In cur (drop i AI)) by (rewrite HD; now left).
  assert (HcurV : ~ In cur V) by (intros Hin; now apply (Hgone cur Hin)).
  assert (HcurF : ~ In cur F).
  { intros Hin. apply Hcur. now apply Hfm. }
  assert (HRC : forall y, In y RC <->
                  In y AI /\ y <> cur
                  /\ MoreDRLSH.redundant ST (col cur) (col y) = true).
  { intros y. unfold RC. rewrite filter_In, andb_true_iff, negb_true_iff,
      Nat.eqb_neq. tauto. }
  assert (HRCD : forall y, In y RC -> In y D').
  { intros y Hy. apply HRC in Hy as (HyAI & Hne & Hred).
    rewrite HAI in HyAI. apply in_app_or in HyAI as [Hy|[Hy|Hy]].
    - exfalso. apply Hcur. apply (Hmark y cur); [now apply Hvis|exact HcurD0|].
      now rewrite redundant_sym.
    - now subst.
    - exact Hy. }
  assert (HRCV : forall y, In y RC -> ~ In y (cur :: V)).
  { intros y Hy [<-|Hin].
    - apply HRC in Hy. tauto.
    - apply (Hgone y Hin). rewrite HD. right. now apply HRCD. }
  assert (Hflag' : forall f, In f (F ++ RC) ->
            In f C /\ ~ In f (cur :: V)
            /\ exists v, In v (cur :: V)
                 /\ MoreDRLSH.redundant ST (col v) (col f) = true).
  { intros f Hf. apply in_app_or in Hf as [Hf|Hf].
    - destruct (Hflag f Hf) as (HfC & HfV & v & Hv & Hred).
      split; [exact HfC|split].
      + intros [<-|Hin]; [now apply HcurF|now apply HfV].
      + exists v. split; [now right|exact Hred].
    - split; [|split; [now apply HRCV|]].
      + apply Hwin. apply HRC in Hf. tauto.
      + exists cur. split; [now left|]. apply HRC in Hf. tauto. }
  assert (Hkept' : forall v, In v (cur :: V) -> In v C).
  { intros v [<-|Hv]; [now apply Hwin|now apply Hkept]. }
  assert (Hind' : forall v1 v2, In v1 (cur :: V) -> In v2 (cur :: V) ->
            v1 <> v2 ->
            MoreDRLSH.redundant ST (col v1) (col v2) = false).
  { intros v1 v2 [<-|H1] [<-|H2] Hne.
    - congruence.
    - apply not_true_iff_false. intros Hred. apply Hcur.
      apply (Hmark v2 cur H2 HcurD0). now rewrite redundant_sym.
    - apply not_true_iff_false. intros Hred. apply Hcur.
      now apply (Hmark v1 cur H1 HcurD0).
    - now apply Hind. }
  assert (Hgone' : forall v, In v (cur :: V) -> ~ In v D').
  { intros v [<-|Hv] Hin; [now apply HcurD|].
    apply (Hgone v Hv). rewrite HD. now right. }
  exists (F ++ RC). rewrite Hbody. clear Hbody.
  destruct (((i + 1 <? length AI)
             && (DRLSH.list_min (T ++ RC) <=? AI !!! (i + 1)))
            || (DRLSH.restart_cap <? i)) eqn:Hcond.
  - (* the scan restarts on what is left of the window *)
    cbv zeta.
    set (keep := fun y => negb (existsb (Nat.eqb y) (T ++ RC))).
    assert (Hfil : drop i (List.filter keep AI)
                   = cur :: List.filter keep D').
    { rewrite HAI at 1. rewrite List.filter_app. simpl.
      assert (Hk : keep cur = true).
      { apply not_existsb_eqb. intros Hin.
        apply in_app_or in Hin as [Hin|Hin]; [now apply Hcur|].
        apply HRC in Hin. tauto. }
      rewrite Hk.
      rewrite (filter_all keep (take i AI)).
      - rewrite drop_app_length'; [reflexivity|].
        rewrite length_take. lia.
      - intros x Hx. apply not_existsb_eqb. intros Hin.
        apply in_app_or in Hin as [Hin|Hin].
        + destruct (Htemp x Hin) as [->|[HxD _]].
          * assert (N + 1 < N + 1); [|lia].
            apply C_bound, Hwin. rewrite HAI. apply in_or_app. now left.
          * rewrite HD in HxD. destruct HxD as [<-|HxD];
              [now apply HcurT|now apply (Hdisj x Hx)].
        + now apply (Hdisj x Hx), HRCD. }
    rewrite Hfil.
    assert (HW : forall x, In x (List.filter keep D') <->
                   In x D' /\ ~ In x (T ++ RC)).
    { intros x. rewrite filter_In. unfold keep.
      now rewrite not_existsb_eqb. }
    constructor; cbn [DRLSH.All_Indexes
      DRLSH.Bucket_Index_Decimal_All_Class DRLSH.iii
      DRLSH.Temporal_Removed_Samples DRLSH.Removed_Samples_Index_ALL].
    + reflexivity.
    + constructor.
      * intros Hin. apply HW in Hin. tauto.
      * now apply List.NoDup_filter.
    + intros x [<-|Hx]; [now apply Hwin|].
      apply Hwin, HD'AI. apply HW in Hx. tauto.
    + intros x Hx. simpl in Hx. destruct Hx as [<-|[]]. now left.
    + intros t [<-|[]]. now left.
    + intros Hlen [Heq|[]].
      assert (Hin : In ((cur :: List.filter keep D') !!! 1)
                       (cur :: List.filter keep D')).
      { apply list_elem_of_In, list_elem_of_lookup. exists 1.
        now apply list_lookup_lookup_total_lt. }
      rewrite <- Heq in Hin.
      assert (N + 1 < N + 1); [|lia]. apply C_bound.
      destruct Hin as [Hin|Hin].
      * rewrite <- Hin. now apply Hwin.
      * apply Hwin, HD'AI. apply HW in Hin. tauto.
    + intros v y Hv Hy Hred. exfalso.
      simpl in Hy. rewrite drop_0 in Hy.
      apply HW in Hy as [HyD HyT]. apply HyT, in_or_app.
      destruct Hv as [<-|Hv].
      * right. apply HRC. split; [now apply HD'AI|split; [|exact Hred]].
        intros ->. now apply HcurD.
      * left. apply (Hmark v y Hv); [|exact Hred].
        rewrite HD. now right.
    + now rewrite Hrem, app_assoc.
    + exact Hflag'.
    + exact Hkept'.
    + exact Hind'.
    + intros x Hx. simpl. rewrite drop_0.
      destruct (Hcov x Hx) as [Hin|[Hin|Hin]].
      * left. now right.
      * right. left. apply in_or_app. now left.
      * rewrite HD in Hin. destruct Hin as [<-|Hin]; [left; now left|].
        destruct (in_dec Nat.eq_dec x (T ++ RC)) as [HT|HT].
        -- right. left. apply in_or_app.
           apply in_app_or in HT as [HT|HT]; [|now right].
           destruct (Htemp x HT) as [->|[_ HF]]; [|now left].
           specialize (C_bound _ Hx). lia.
        -- right. right. apply HW. now split.
    + intros f Hf Hin. exfalso. simpl in Hin. rewrite drop_0 in Hin.
      apply HW in Hin as [HfD HfT]. apply HfT, in_or_app.
      apply in_app_or in Hf as [Hf|Hf]; [left|now right].
      apply (Hfm f Hf). rewrite HD. now right.
    + intros v Hv Hin. simpl in Hin. rewrite drop_0 in Hin.
      apply HW in Hin as [HvD _]. now apply (Hgone' v Hv).
  - (* the scan moves on to the next position *)
    apply orb_false_iff in Hcond as [Hcond _].
    fold D'.
    constructor; cbn [DRLSH.All_Indexes
      DRLSH.Bucket_Index_Decimal_All_Class DRLSH.iii
      DRLSH.Temporal_Removed_Samples DRLSH.Removed_Samples_Index_ALL];
      fold D'.
    + reflexivity.
    + exact Hnd.
    + exact Hwin.
    + intros x Hx. rewrite Nat.add_1_r in Hx.
      rewrite (take_S_r AI i cur) in Hx
        by now apply list_lookup_lookup_total_lt.
      apply in_app_or in Hx as [Hx|[<-|[]]]; [right; now apply Hvis|now left].
    + intros t Ht. apply in_app_or in Ht as [Ht|Ht].
      * destruct (Htemp t Ht) as [->|[HtD HtF]]; [now left|right].
        split; [|apply in_or_app; now left].
        rewrite HD in HtD. destruct HtD as [<-|HtD]; [contradiction|exact HtD].
      * right. split; [now apply HRCD|apply in_or_app; now right].
    + intros Hlen Hin.
      apply andb_false_iff in Hcond as [Hc|Hc].
      * apply Nat.ltb_ge in Hc. lia.
      * apply Nat.leb_gt in Hc.
        pose proof (list_min_le _ _ Hin). lia.
    + intros v y [<-|Hv] Hy Hred.
      * apply in_or_app. right. apply HRC.
        split; [now apply HD'AI|split; [|exact Hred]].
        intros ->. now apply HcurD.
      * apply in_or_app. left. apply (Hmark v y Hv); [|exact Hred].
        rewrite HD. now right.
    + now rewrite Hrem, app_assoc.
    + exact Hflag'.
    + exact Hkept'.
    + exact Hind'.
    + intros x Hx. destruct (Hcov x Hx) as [Hin|[Hin|Hin]].
      * left. now right.
      * right. left. apply in_or_app. now left.
      * rewrite HD in Hin. destruct Hin as [<-|Hin];
          [left; now left|right; now right].
    + intros f Hf Hin. apply in_or_app.
      apply in_app_or in Hf as [Hf|Hf]; [left|now right].
      apply (Hfm f Hf). rewrite HD. now right.
    + exact Hgone'.
Qed.

(** The loop keeps the invariant, and only adds to the visited instances. *)
Lemma scan_while_inv fuel :
  forall st V F,
    MoreDRLSH.scan_inv col ST N C R0 st V F ->
    exists V' F',
      MoreDRLSH.scan_inv col ST N C R0 (DRLSH.scan_while fuel N ST st) V' F'
      /\ incl V V'.
Proof.
  induction fuel as [|fuel IH]; intros st V F Hinv; simpl.
  - exists V, F. split; [exact Hinv|apply incl_refl].
  - destruct (DRLSH.iii st <? length (DRLSH.All_Indexes st)) eqn:Hc.
    + apply Nat.ltb_lt in Hc.
      destruct (scan_body_inv st V F Hinv Hc) as (F1 & Hinv1).
      destruct (IH _ _ _ Hinv1) as (V' & F' & Hinv' & Hincl).
      exists V', F'. split; [exact Hinv'|].
      intros x Hx. apply Hincl. now right.
    + exists V, F. split; [exact Hinv|apply incl_refl].
Qed.

End scan_invariant.

Section class_by_class.

Variable B : list (list Z).
Variable ST : Z.
Variable labels : list Q.
Hypothesis B_nonneg :
  forall n z, In z (MoreDRLSH.column B n) -> (0 <= z)%Z.

Lemma mask_select_seq_In (m : list bool) x :
  forall k,
    In x (np.mask_select (seq k (length m)) m)
    <-> k <= x /\ m !! (x - k) = Some true.
Proof.
  induction m as [|b m IH]; intros k; simpl.
  - rewrite lookup_nil. split; [intros []|]. now intros [_ ?].
  - rewrite mask_select_cons.
    assert (Hrest : In x (np.mask_select (seq (S k) (length m)) m)
                    <-> k <= x /\ x <> k /\ m !! (x - S k) = Some true).
    { rewrite IH. split; [intros [? ?]|intros (? & ? & ?)];
        repeat split; auto; lia. }
    destruct (Nat.eq_dec x k) as [->|Hne].
    + rewrite Nat.sub_diag. simpl.
      destruct b; simpl; rewrite ?Hrest; split; try tauto.
      * intros _. split; [lia|reflexivity].
      * intros [_ [=]].
    + assert (Hcase : k <= x -> x - k = S (x - S k)) by lia.
      destruct b; simpl; rewrite ?Hrest.
      * split.
        -- intros [->|(Hle & _ & Hm)]; [contradiction|].
           split; [exact Hle|]. now rewrite (Hcase Hle).
        -- intros [Hle Hm]. right. rewrite (Hcase Hle) in Hm. simpl in Hm.
           tauto.
      * split.
        -- intros (Hle & _ & Hm). split; [exact Hle|].
           now rewrite (Hcase Hle).
        -- intros [Hle Hm]. rewrite (Hcase Hle) in Hm. simpl in Hm. tauto.
Qed.

Lemma where_In (m : list bool) x :
  In x (np.where_ m) <-> m !! x = Some true.
Proof.
  unfold np.where_. rewrite mask_select_seq_In, Nat.sub_0_r.
  split; [tauto|]. intros ?. split; [lia|assumption].
Qed.

Lemma where_sorted (m : list bool) : StronglySorted lt (np.where_ m).
Proof.
  eapply sublist_strongly_sorted;
    [apply mask_select_sublist|apply seq_strongly_sorted].
Qed.

Lemma where_NoDup (m : list bool) : List.NoDup (np.where_ m).
Proof. apply mask_select_NoDup, seq_NoDup. Qed.

Lemma class_of_In c x :
  In x (MoreDRLSH.class_of labels c)
  <-> exists l, labels !! x = Some l /\ (l == c)%Q.
Proof.
  unfold MoreDRLSH.class_of. rewrite where_In, list_lookup_fmap.
  destruct (labels !! x) as [l|]; simpl.
  - split.
    + intros [= H]. exists l. split; [reflexivity|].
      now apply Qeq_bool_iff.
    + intros (l' & [= <-] & H). f_equal. now apply Qeq_bool_iff.
  - split; [discriminate|]. now intros (l & [=] & _).
Qed.

Lemma class_of_bound c x :
  In x (MoreDRLSH.class_of labels c) -> x < length labels.
Proof.
  intros Hx. apply class_of_In in Hx as (l & Hl & _).
  now apply lookup_lt_Some in Hl.
Qed.

Lemma class_of_apart c c' x :
  ~ (c == c')%Q ->
  In x (MoreDRLSH.class_of labels c) ->
  ~ In x (MoreDRLSH.class_of labels c').
Proof.
  intros Hne Hc Hc'.
  apply class_of_In in Hc as (l & Hl & Hlc).
  apply class_of_In in Hc' as (l' & Hl' & Hlc').
  rewrite Hl in Hl'. injection Hl' as <-.
  apply Hne. now rewrite <- Hlc, <- Hlc'.
Qed.

(** One class scan: the class splits into the instances visited, which are
    pairwise not redundant and hold the first of the class, and the
    instances flagged, each redundant with a visited one. *)
Lemma scan_class_net R0 c :
  exists V F,
    DRLSH.scan_class (length labels) ST B labels R0 c = R0 ++ F
    /\ (forall x, In x (MoreDRLSH.class_of labels c) -> In x V \/ In x F)
    /\ (forall v, In v V -> In v (MoreDRLSH.class_of labels c))
    /\ (forall f, In f F ->
          In f (MoreDRLSH.class_of labels c) /\ ~ In f V
          /\ exists v, In v V
               /\ MoreDRLSH.redundant ST (MoreDRLSH.column B v)
                    (MoreDRLSH.column B f) = true)
    /\ (forall v1 v2, In v1 V -> In v2 V -> v1 <> v2 ->
          MoreDRLSH.redundant ST (MoreDRLSH.column B v1)
            (MoreDRLSH.column B v2) = false)
    /\ (forall x, head (MoreDRLSH.class_of labels c) = Some x -> In x V).
Proof.
  set (N := length labels).
  set (C := MoreDRLSH.class_of labels c).
  set (st0 := DRLSH.class_start N B labels R0 c).
  assert (C_bound : forall x, In x C -> x < N + 1).
  { intros x Hx. apply class_of_bound in Hx. unfold N. lia. }
  assert (Hinv0 : MoreDRLSH.scan_inv (MoreDRLSH.column B) ST N C R0 st0
                    [] []).
  { constructor; cbn [st0 DRLSH.class_start DRLSH.All_Indexes
      DRLSH.Bucket_Index_Decimal_All_Class DRLSH.iii
      DRLSH.Temporal_Removed_Samples DRLSH.Removed_Samples_Index_ALL];
      fold (MoreDRLSH.class_of labels c); fold C.
    - reflexivity.
    - apply where_NoDup.
    - auto.
    - intros x Hx. now rewrite take_0 in Hx.
    - intros t [<-|[]]. now left.
    - intros Hlen [Heq|[]].
      assert (Hin : In (C !!! 0) C).
      { apply list_elem_of_In, list_elem_of_lookup. exists 0.
        now apply list_lookup_lookup_total_lt. }
      apply C_bound in Hin. lia.
    - intros v y [].
    - now rewrite app_nil_r.
    - intros f [].
    - intros v [].
    - intros v1 v2 [].
    - intros x Hx. right. right. now rewrite drop_0.
    - intros f [].
    - intros v []. }
  assert (Hrun : exists V F,
            MoreDRLSH.scan_inv (MoreDRLSH.column B) ST N C R0
              (DRLSH.scan_while (length (DRLSH.All_Indexes st0)) N ST st0)
              V F
            /\ forall x, head C = Some x -> In x V).
  { destruct C as [|h t] eqn:HC.
    - destruct (scan_while_inv (MoreDRLSH.column B) ST N [] R0
                  C_bound B_nonneg (length (DRLSH.All_Indexes st0))
                  st0 [] [] Hinv0) as (V & F & Hinv & _).
      exists V, F. split; [exact Hinv|discriminate].
    - assert (HAI : DRLSH.All_Indexes st0 = h :: t) by exact HC.
      rewrite HAI. cbn [length DRLSH.scan_while].
      assert (Hi : DRLSH.iii st0 < length (DRLSH.All_Indexes st0))
        by (rewrite HAI; simpl; lia).
      rewrite (proj2 (Nat.ltb_lt _ _) Hi).
      destruct (scan_body_inv (MoreDRLSH.column B) ST N (h :: t) R0
                  C_bound B_nonneg st0 [] [] Hinv0 Hi) as (F1 & Hinv1).
      destruct (scan_while_inv (MoreDRLSH.column B) ST N (h :: t) R0
                  C_bound B_nonneg (length t) _ _ _ Hinv1)
        as (V & F & Hinv & Hincl).
      exists V, F. split; [exact Hinv|].
      intros x [= <-]. apply Hincl. left.
      now rewrite HAI. }
  destruct Hrun as (V & F & Hinv & Hfirst).
  destruct (DRLSH_facts.scan_class_reaches_exit N ST B labels R0 c)
    as [Hexit _]. cbv zeta in Hexit. fold st0 in Hexit.
  apply Nat.ltb_ge in Hexit.
  destruct Hinv as [_ _ _ _ _ _ _ Hrem Hflag Hkept Hind Hcov _ _].
  exists V, F. split; [exact Hrem|].
  split; [|split; [exact Hkept|split; [exact Hflag|split;
    [exact Hind|exact Hfirst]]]].
  intros x Hx. destruct (Hcov x Hx) as [H|[H|H]]; [now left|now right|].
  rewrite drop_ge in H by exact Hexit. contradiction.
Qed.

(** One more class scanned. *)
Lemma scan_class_step done R c :
  (forall c', In c' done -> ~ (c' == c)%Q) ->
  MoreDRLSH.net B ST labels done R ->
  MoreDRLSH.net B ST labels (c :: done)
    (DRLSH.scan_class (length labels) ST B labels R c).
Proof.
  intros Hapart [Hrem Hind Hdom Hfirst].
  destruct (scan_class_net R c)
    as (V & F & -> & Hcov & HVC & HF & HVind & HVfirst).
  assert (HRc : forall r, In r R -> ~ In r (MoreDRLSH.class_of labels c)).
  { intros r Hr. destruct (Hrem r Hr) as (c' & Hc' & Hrc').
    now apply (class_of_apart c' c r (Hapart c' Hc')). }
  assert (HFc : forall c' f, In c' done -> In f F ->
                  ~ In f (MoreDRLSH.class_of labels c')).
  { intros c' f Hc' Hf Hin.
    apply (class_of_apart c' c f (Hapart c' Hc') Hin).
    now apply HF. }
  constructor.
  - intros r Hr. apply in_app_or in Hr as [Hr|Hr].
    + destruct (Hrem r Hr) as (c' & Hc' & Hrc').
      exists c'. split; [now right|exact Hrc'].
    + exists c. split; [now left|now apply HF].
  - intros c0 x y [<-|Hc0] Hx Hy HxR HyR Hne.
    + apply HVind; [| |exact Hne].
      * destruct (Hcov x Hx) as [H|H]; [exact H|].
        exfalso. apply HxR, in_or_app. now right.
      * destruct (Hcov y Hy) as [H|H]; [exact H|].
        exfalso. apply HyR, in_or_app. now right.
    + apply (Hind c0); auto.
      * intros H. apply HxR, in_or_app. now left.
      * intros H. apply HyR, in_or_app. now left.
  - intros c0 r [<-|Hc0] Hr HrR.
    + apply in_app_or in HrR as [HrR|HrR]; [now destruct (HRc r HrR)|].
      destruct (HF r HrR) as (_ & _ & v & Hv & Hred).
      exists v. split; [now apply HVC|split; [|exact Hred]].
      intros Hin. apply in_app_or in Hin as [Hin|Hin].
      * apply (HRc v Hin). now apply HVC.
      * destruct (HF v Hin) as (_ & HvV & _). contradiction.
    + apply in_app_or in HrR as [HrR|HrR];
        [|now destruct (HFc c0 r Hc0 HrR)].
      destruct (Hdom c0 r Hc0 Hr HrR) as (v & Hv & HvR & Hred).
      exists v. split; [exact Hv|split; [|exact Hred]].
      intros Hin. apply in_app_or in Hin as [Hin|Hin]; [contradiction|].
      now apply (HFc c0 v Hc0 Hin).
  - intros c0 x [<-|Hc0] Hhead Hin.
    + assert (HxC : In x (MoreDRLSH.class_of labels c)).
      { destruct (MoreDRLSH.class_of labels c); [discriminate|].
        injection Hhead as ->. now left. }
      apply in_app_or in Hin as [Hin|Hin]; [now apply (HRc x Hin)|].
      destruct (HF x Hin) as (_ & HxV & _). apply HxV.
      now apply HVfirst.
    + assert (HxC : In x (MoreDRLSH.class_of labels c0)).
      { destruct (MoreDRLSH.class_of labels c0); [discriminate|].
        injection Hhead as ->. now left. }
      apply in_app_or in Hin as [Hin|Hin].
      * now apply (Hfirst c0 x Hc0 Hhead).
      * now apply (HFc c0 x Hc0 Hin).
Qed.

(** All the class scans of [_fit], over pairwise different class ids. *)
Lemma fold_scan_class_net rest :
  StronglySorted (fun c c' => ~ (c == c')%Q) rest ->
  forall done R,
    (forall c c', In c done -> In c' rest -> ~ (c == c')%Q) ->
    MoreDRLSH.net B ST labels done R ->
    MoreDRLSH.net B ST labels (rev rest ++ done)
      (fold_left (DRLSH.scan_class (length labels) ST B labels) rest R).
Proof.
  induction 1 as [|c rest Hrest IH Hc]; intros done R Hapart Hnet.
  - exact Hnet.
  - simpl. rewrite <- app_assoc. simpl. apply IH.
    + intros c1 c' [<-|Hc1] Hc'.
      * rewrite List.Forall_forall in Hc. now apply Hc.
      * apply Hapart; [exact Hc1|now right].
    + apply scan_class_step; [|exact Hnet].
      intros c' Hc'. apply Hapart; [exact Hc'|now left].
Qed.

End class_by_class.

Section labels_and_buckets.

Lemma last_column_hstack (X : list row) : forall y,
  length X = length y ->
  DRLSH.last_column (DRLSH.hstack X y)
  = map inject_Z (map np.to_float64 y).
Proof.
  unfold DRLSH.last_column, DRLSH.hstack.
  induction X as [|r X IH]; intros [|l y] Hlen; try discriminate;
    [reflexivity|].
  simpl. rewrite last_last. f_equal. apply IH. simpl in Hlen. lia.
Qed.

Lemma last_column_assign (T Data : list row) :
  DRLSH.last_column (DRLSH.assign_features T Data)
  = DRLSH.last_column Data.
Proof.
  unfold DRLSH.last_column, DRLSH.assign_features.
  assert (Hgen : forall t : nat -> row,
            map (fun r : list Q => List.last r 0%Q)
              (imap (fun i r => t i ++ [List.last r 0%Q]) Data)
            = map (fun r : list Q => List.last r 0%Q) Data).
  { induction Data as [|r Data IH]; intros t; [reflexivity|].
    simpl. rewrite last_last. f_equal. apply (IH (fun i => t (S i))). }
  apply (Hgen (fun i => T !!! i)).
Qed.

Lemma Qcompare_inject_Z a b :
  Qcompare (inject_Z a) (inject_Z b) = Z.compare a b.
Proof. unfold Qcompare. simpl. now rewrite !Z.mul_1_r. Qed.

Lemma unique_inject_Z (l : list Z) :
  np.unique Qcompare (map inject_Z l)
  = map inject_Z (np.unique Z.compare l).
Proof.
  induction l as [|x l IH]; [reflexivity|]. simpl. rewrite IH.
  generalize (np.unique Z.compare l) as u.
  induction u as [|h u IHu]; [reflexivity|]. simpl.
  rewrite Qcompare_inject_Z. destruct (x ?= h)%Z; simpl;
    [reflexivity|reflexivity|]. now rewrite IHu.
Qed.

Lemma unique_Z_NoDup (l : list Z) : List.NoDup (np.unique Z.compare l).
Proof.
  apply unique_NoDup.
  - apply Z.compare_eq.
  - intros x y. apply Z.compare_antisym.
  - intros x y z. rewrite !Z.compare_lt_iff. lia.
Qed.

Lemma inject_Z_apart (l : list Z) :
  List.NoDup l ->
  StronglySorted (fun c c' => ~ (c == c')%Q) (map inject_Z l).
Proof.
  induction 1 as [|x l Hx Hnd IH]; simpl; constructor; [exact IH|].
  apply List.Forall_forall. intros c Hc Heq.
  apply in_map_iff in Hc as (z & <- & Hz).
  apply (proj1 (inject_Z_injective x z)) in Heq. subst z. contradiction.
Qed.

(** Labels that differ as integers and not as float64 are one class. *)
Lemma class_of_float64 (y : list Z) (l : Z) x :
  In x (MoreDRLSH.class_of (map inject_Z (map np.to_float64 y))
          (inject_Z (np.to_float64 l)))
  <-> x < length y /\ np.to_float64 (y !!! x) = np.to_float64 l.
Proof.
  rewrite class_of_In, !list_lookup_fmap. split.
  - intros (q & Hq & Heq).
    destruct (y !! x) as [z|] eqn:Hz; [|discriminate].
    simpl in Hq. injection Hq as <-.
    apply (proj1 (inject_Z_injective _ _)) in Heq.
    split; [now apply lookup_lt_Some in Hz|].
    now rewrite (list_lookup_total_correct _ _ _ Hz).
  - intros [Hx Heq].
    rewrite (list_lookup_lookup_total_lt y x Hx). simpl.
    eexists. split; [reflexivity|]. now rewrite Heq.
Qed.

Lemma to_float64_exact (z : Z) :
  (Z.abs z <= 2 ^ 53)%Z -> np.to_float64 z = z.
Proof.
  intros Hz. unfold np.to_float64. cbv zeta.
  now rewrite (proj2 (Z.leb_le _ _) Hz).
Qed.

Lemma table_row_nonneg N M a b W (F : list row) i z :
  In z (DRLSH.table_row N M a b W F i) -> (0 <= z)%Z.
Proof.
  unfold DRLSH.table_row. cbv zeta. intros Hz.
  apply in_app_or in Hz as [Hz|Hz].
  - unfold DRLSH.Bucket_Index_Decimal in Hz.
    apply in_flat_map in Hz as (sig & _ & Hz).
    apply in_map_iff in Hz as (p & <- & _). lia.
  - apply list_elem_of_In, elem_of_replicate in Hz as [-> _]. lia.
Qed.

Lemma column_nonneg (B : list (list Z)) :
  (forall r z, In r B -> In z r -> (0 <= z)%Z) ->
  forall n z, In z (MoreDRLSH.column B n) -> (0 <= z)%Z.
Proof.
  intros HB n z Hz. unfold MoreDRLSH.column in Hz.
  apply in_map_iff in Hz as (r & <- & Hr).
  rewrite list_lookup_total_alt.
  destruct (r !! n) as [w|] eqn:Hw; simpl.
  - apply (HB r w Hr). apply list_elem_of_In, list_elem_of_lookup. eauto.
  - vm_compute. discriminate.
Qed.

End labels_and_buckets.

Module DRLSH_net.
Import DRLSH.

Section WithLibrary.
Context {lib : Library}.

(** What [_fit] hands to the scans: the label column is [y], the class
    list is the sorted distinct labels, and no bucket id is negative. *)
Lemma hash_all_labels g s g' s' Classes labels B :
  hash_all g s = (g', s', Ok (Classes, labels, B)) ->
  length (X s) = length (y s)
  /\ labels = map inject_Z (map np.to_float64 (y s))
  /\ Classes
     = map inject_Z (np.unique Z.compare (map np.to_float64 (y s)))
  /\ (forall r z, In r B -> In z r -> (0 <= z)%Z)
  /\ ST s' = ST s.
Proof.
  unfold hash_all. cbv zeta. cbn [X y L W M ST set_M].
  destruct (length (X s) =? length (y s)) eqn:Hlen; cbn [negb];
    [|discriminate].
  apply Nat.eqb_eq in Hlen.
  destruct (np_random_normal _ _ _) as [a g1].
  destruct (np_random_rand _ _ _) as [r g2].
  intros [= _ <- <- <- <-].
  split; [exact Hlen|]. split; [|split; [|split; [|reflexivity]]].
  - now rewrite last_column_assign, last_column_hstack.
  - now rewrite last_column_hstack, unique_inject_Z.
  - intros row z Hrow Hz.
    apply in_map_iff in Hrow as (i & <- & _).
    now apply table_row_nonneg in Hz.
Qed.

(** The removal list behind a selection, with what the scans ensure. *)
Lemma fit_net g d sel :
  snd (_fit g d) = Ok sel ->
  exists R done,
    length (X d) = length (y d)
    /\ (forall x, In x sel <-> x < length (y d) /\ ~ In x R)
    /\ (forall l, In l (y d) -> In (inject_Z (np.to_float64 l)) done)
    /\ MoreDRLSH.net (MoreDRLSH.bucket_matrix g d) (ST d)
         (map inject_Z (map np.to_float64 (y d))) done R.
Proof.
  intros Hsel.
  destruct (DRLSH_facts.hash_all_cases g d)
    as [(_ & Hh)|(Hlen & g' & Classes & labels & B & Hh & _)].
  - unfold _fit in Hsel. rewrite Hh in Hsel. discriminate.
  - destruct (hash_all_labels _ _ _ _ _ _ _ Hh)
      as (_ & -> & -> & Hnn & HST).
    unfold _fit in Hsel. rewrite Hh in Hsel. cbn [snd] in Hsel.
    injection Hsel as <-. cbn [ST set_M] in *.
    unfold MoreDRLSH.bucket_matrix. rewrite Hh. cbn [snd].
    rewrite Hlen.
    replace (length (y d))
      with (length (map inject_Z (map np.to_float64 (y d))))
      by now rewrite !length_map.
    eexists _, _. split; [now rewrite !length_map|].
    split; [intros x; apply DRLSH_facts.selected_In|].
    split.
    2:{ apply (fold_scan_class_net B (ST d)
                 (map inject_Z (map np.to_float64 (y d)))
                 (column_nonneg B Hnn)
                 (map inject_Z
                    (np.unique Z.compare (map np.to_float64 (y d))))
                 (inject_Z_apart _
                    (unique_Z_NoDup (map np.to_float64 (y d)))) [] []).
        - intros c c' [].
        - constructor.
          + intros r [].
          + intros c x y0 [].
          + intros c r [].
          + intros c x []. }
    intros l Hl. rewrite app_nil_r. apply in_rev. rewrite rev_involutive.
    apply in_map.
    apply (proj2 (unique_In Z.compare Z.compare_eq _ _)).
    now apply in_map.
Qed.

End WithLibrary.

End DRLSH_net.

(** X10: In every hash table, the bucket id that DRLSH writes for a sample
    is the position of the sample's signature (its [M] hash values) among
    the sorted distinct signatures of the table; so two samples have the
    same bucket id in a table exactly when their signatures are equal. *)
Theorem X10_bucket_id_names_the_signature (N M : nat) (a b : list row)
    (W : Q) (F : list row) (i n : nat) :
  length F = N ->
  n < N ->
  let BI :=
    DRLSH.Bucket_Index
      (DRLSH.slice (i * M) ((i + 1) * M) a)
      (DRLSH.slice (i * M) ((i + 1) * M) b) W F in
  exists p,
    DRLSH.table_row N M a b W F i !! n = Some (Z.of_nat p)
    /\ np.unique np.lex_compare BI !! p = Some (BI !!! n)
    /\ forall n',
         n' < N ->
         (DRLSH.table_row N M a b W F i !!! n
          = DRLSH.table_row N M a b W F i !!! n'
          <-> BI !!! n = BI !!! n').
Proof.
  intros HF Hn BI.
  assert (HBI : length BI = N).
  { unfold BI, DRLSH.Bucket_Index. now rewrite length_map. }
  assert (Hlen : forall u v, In u BI -> In v BI -> length u = length v).
  { intros u v Hu Hv. unfold BI, DRLSH.Bucket_Index in Hu, Hv.
    apply in_map_iff in Hu as (x & <- & _).
    apply in_map_iff in Hv as (x' & <- & _).
    now rewrite !length_zip_with. }
  assert (Hrow : forall m, m < N ->
            exists p,
              DRLSH.table_row N M a b W F i !! m = Some (Z.of_nat p)
              /\ np.unique np.lex_compare BI !! p = Some (BI !!! m)).
  { intros m Hm.
    assert (Hsig : BI !! m = Some (BI !!! m))
      by (apply list_lookup_lookup_total_lt; lia).
    destruct (DRLSH_more.Bucket_Index_Decimal_lookup BI m _ Hlen Hsig)
      as (p & Hp & Hu).
    exists p. split; [|exact Hu].
    unfold DRLSH.table_row. cbv zeta. fold BI.
    rewrite lookup_app_l; [exact Hp|].
    rewrite DRLSH_facts.Bucket_Index_Decimal_length by exact Hlen. lia. }
  destruct (Hrow n Hn) as (p & Hp & Hu).
  exists p. split; [exact Hp|split; [exact Hu|]].
  intros n' Hn'. destruct (Hrow n' Hn') as (p' & Hp' & Hu').
  rewrite (list_lookup_total_correct _ _ _ Hp).
  rewrite (list_lookup_total_correct _ _ _ Hp').
  split.
  - intros Heq. apply Nat2Z.inj in Heq. subst p'.
    rewrite Hu in Hu'. now injection Hu'.
  - intros Heq. f_equal. rewrite Heq in Hu.
    assert (Hnd : List.NoDup (np.unique np.lex_compare BI)).
    { apply unique_NoDup.
      - apply lex_compare_eq.
      - intros x y. apply lex_compare_antisym.
      - intros x y z. apply lex_compare_trans. }
    apply NoDup_ListNoDup in Hnd.
    exact (NoDup_lookup _ _ _ _ Hnd Hu Hu').
Qed.

(** X10, on three samples of which the first and the last hash alike. *)
Lemma X10_witness :
  exists p,
    DRLSH.table_row 3 1 [[1%Q]] [[0%Q]] 1 [[0%Q]; [1%Q]; [0%Q]] 0 !! 0
    = Some (Z.of_nat p)
    /\ np.unique np.lex_compare
         (DRLSH.Bucket_Index
            (DRLSH.slice (0 * 1) ((0 + 1) * 1) [[1%Q]])
            (DRLSH.slice (0 * 1) ((0 + 1) * 1) [[0%Q]]) 1
            [[0%Q]; [1%Q]; [0%Q]]) !! p
       = Some
           (DRLSH.Bucket_Index
              (DRLSH.slice (0 * 1) ((0 + 1) * 1) [[1%Q]])
              (DRLSH.slice (0 * 1) ((0 + 1) * 1) [[0%Q]]) 1
              [[0%Q]; [1%Q]; [0%Q]] !!! 0)
    /\ forall n',
         n' < 3 ->
         (DRLSH.table_row 3 1 [[1%Q]] [[0%Q]] 1 [[0%Q]; [1%Q]; [0%Q]] 0 !!! 0
          = DRLSH.table_row 3 1 [[1%Q]] [[0%Q]] 1 [[0%Q]; [1%Q]; [0%Q]] 0
              !!! n'
          <-> DRLSH.Bucket_Index
                (DRLSH.slice (0 * 1) ((0 + 1) * 1) [[1%Q]])
                (DRLSH.slice (0 * 1) ((0 + 1) * 1) [[0%Q]]) 1
                [[0%Q]; [1%Q]; [0%Q]] !!! 0
              = DRLSH.Bucket_Index
                  (DRLSH.slice (0 * 1) ((0 + 1) * 1) [[1%Q]])
                  (DRLSH.slice (0 * 1) ((0 + 1) * 1) [[0%Q]]) 1
                  [[0%Q]; [1%Q]; [0%Q]] !!! n').
Proof.
  exact (X10_bucket_id_names_the_signature 3 1 [[1%Q]] [[0%Q]] 1
           [[0%Q]; [1%Q]; [0%Q]] 0 0 eq_refl ltac:(lia)).
Defined.

(** X11: No two instances that DRLSH's [_fit] selects from one class are
    redundant with each other: their bucket ids agree in no table, or in
    fewer than [ST] tables. *)
Theorem X11_selected_are_not_redundant (lib : Library) (g : rng)
    (d : DRLSH.self) (sel : list nat) (i j : nat) :
  snd (DRLSH._fit g d) = Ok sel ->
  In i sel ->
  In j sel ->
  i <> j ->
  DRLSH.y d !!! i = DRLSH.y d !!! j ->
  MoreDRLSH.redundant (DRLSH.ST d)
    (MoreDRLSH.column (MoreDRLSH.bucket_matrix g d) i)
    (MoreDRLSH.column (MoreDRLSH.bucket_matrix g d) j) = false.
Proof.
  intros Hsel Hi Hj Hne Hy.
  destruct (DRLSH_net.fit_net g d sel Hsel)
    as (R & done & Hlen & Hin & Hdone & Hnet).
  apply Hin in Hi as [Hi HiR]. apply Hin in Hj as [Hj HjR].
  apply (MoreDRLSH.net_independent _ _ _ _ _ Hnet
           (inject_Z (np.to_float64 (DRLSH.y d !!! i)))); auto.
  - apply Hdone. apply list_elem_of_In, list_elem_of_lookup. exists i.
    now apply list_lookup_lookup_total_lt.
  - now apply class_of_float64.
  - apply class_of_float64. split; [exact Hj|now rewrite Hy].
Qed.

(** X11, on the six points: rows 3 and 4 are both selected. *)
Lemma X11_witness :
  snd (DRLSH._fit (lib := Examples.lib) 0 Examples.drlsh_one_table)
  = Ok [0; 2; 3; 4; 5]
  /\ MoreDRLSH.redundant (DRLSH.ST Examples.drlsh_one_table)
       (MoreDRLSH.column
          (MoreDRLSH.bucket_matrix (lib := Examples.lib) 0
             Examples.drlsh_one_table) 3)
       (MoreDRLSH.column
          (MoreDRLSH.bucket_matrix (lib := Examples.lib) 0
             Examples.drlsh_one_table) 4) = false.
Proof.
  assert (Hfit : snd (DRLSH._fit (lib := Examples.lib) 0
                        Examples.drlsh_one_table) = Ok [0; 2; 3; 4; 5])
    by (vm_compute; reflexivity).
  split; [exact Hfit|].
  apply (X11_selected_are_not_redundant Examples.lib 0
           Examples.drlsh_one_table _ 3 4 Hfit).
  - simpl. tauto.
  - simpl. tauto.
  - lia.
  - reflexivity.
Defined.

(** X12: Every instance that DRLSH's [_fit] leaves out is redundant with a
    selected instance of its own class: the two share a bucket in at least
    one table and in at least [ST] tables.  The class of an instance is its
    label as [_fit] compares it, that is, converted to float64. *)
Theorem X12_removed_has_a_selected_neighbour (lib : Library) (g : rng)
    (d : DRLSH.self) (sel : list nat) (r : nat) :
  snd (DRLSH._fit g d) = Ok sel ->
  r < length (DRLSH.X d) ->
  ~ In r sel ->
  exists k,
    In k sel
    /\ np.to_float64 (DRLSH.y d !!! k) = np.to_float64 (DRLSH.y d !!! r)
    /\ MoreDRLSH.redundant (DRLSH.ST d)
         (MoreDRLSH.column (MoreDRLSH.bucket_matrix g d) k)
         (MoreDRLSH.column (MoreDRLSH.bucket_matrix g d) r) = true.
Proof.
  intros Hsel Hr Hout.
  destruct (DRLSH_net.fit_net g d sel Hsel)
    as (R & done & Hlen & Hin & Hdone & Hnet).
  rewrite Hlen in Hr.
  assert (HrR : In r R).
  { destruct (in_dec Nat.eq_dec r R) as [H|H]; [exact H|].
    exfalso. apply Hout, Hin. now split. }
  destruct (MoreDRLSH.net_dominated _ _ _ _ _ Hnet
              (inject_Z (np.to_float64 (DRLSH.y d !!! r))) r)
    as (v & Hv & HvR & Hred).
  - apply Hdone. apply list_elem_of_In, list_elem_of_lookup. exists r.
    now apply list_lookup_lookup_total_lt.
  - now apply class_of_float64.
  - exact HrR.
  - apply class_of_float64 in Hv as [Hv Hy].
    exists v. split; [apply Hin; now split|]. now split.
Qed.

(** X12, on the six points: row 1 is left out, next to row 0. *)
Lemma X12_witness :
  snd (DRLSH._fit (lib := Examples.lib) 0 Examples.drlsh_one_table)
  = Ok [0; 2; 3; 4; 5]
  /\ exists k,
       In k [0; 2; 3; 4; 5]
       /\ np.to_float64 (DRLSH.y Examples.drlsh_one_table !!! k)
          = np.to_float64 (DRLSH.y Examples.drlsh_one_table !!! 1)
       /\ MoreDRLSH.redundant (DRLSH.ST Examples.drlsh_one_table)
            (MoreDRLSH.column
               (MoreDRLSH.bucket_matrix (lib := Examples.lib) 0
                  Examples.drlsh_one_table) k)
            (MoreDRLSH.column
               (MoreDRLSH.bucket_matrix (lib := Examples.lib) 0
                  Examples.drlsh_one_table) 1) = true.
Proof.
  assert (Hfit : snd (DRLSH._fit (lib := Examples.lib) 0
                        Examples.drlsh_one_table) = Ok [0; 2; 3; 4; 5])
    by (vm_compute; reflexivity).
  split; [exact Hfit|].
  apply (X12_removed_has_a_selected_neighbour Examples.lib 0
           Examples.drlsh_one_table _ 1 Hfit).
  - simpl. lia.
  - simpl. lia.
Defined.

(** X13: DRLSH's [_fit] always selects the first instance of every class,
    so every class of the input is present in the selection.  The class of
    an instance is its label as [_fit] compares it, that is, converted to
    float64; for labels of magnitude up to [2^53], which the conversion
    keeps, every label of the input is the label of a selected row. *)
Theorem X13_every_class_is_kept (lib : Library) (g : rng) (d : DRLSH.self)
    (sel : list nat) :
  snd (DRLSH._fit g d) = Ok sel ->
  (forall r,
     r < length (DRLSH.X d) ->
     (forall r', r' < r ->
        np.to_float64 (DRLSH.y d !!! r')
        <> np.to_float64 (DRLSH.y d !!! r)) ->
     In r sel)
  /\ (forall r,
        r < length (DRLSH.X d) ->
        exists k,
          In k sel
          /\ np.to_float64 (DRLSH.y d !!! k)
             = np.to_float64 (DRLSH.y d !!! r))
  /\ ((forall l, In l (DRLSH.y d) -> (Z.abs l <= 2 ^ 53)%Z) ->
      forall r,
        r < length (DRLSH.X d) ->
        exists k, In k sel /\ DRLSH.y d !!! k = DRLSH.y d !!! r).
Proof.
  intros Hsel.
  destruct (DRLSH_net.fit_net g d sel Hsel)
    as (R & done & Hlen & Hin & Hdone & Hnet).
  rewrite Hlen.
  assert (Hkept : forall r,
            r < length (DRLSH.y d) ->
            exists k,
              In k sel
              /\ np.to_float64 (DRLSH.y d !!! k)
                 = np.to_float64 (DRLSH.y d !!! r)).
  { intros r Hr.
    destruct (in_dec Nat.eq_dec r R) as [HrR|HrR].
    - destruct (MoreDRLSH.net_dominated _ _ _ _ _ Hnet
                  (inject_Z (np.to_float64 (DRLSH.y d !!! r))) r)
        as (v & Hv & HvR & _).
      + apply Hdone. apply list_elem_of_In, list_elem_of_lookup. exists r.
        now apply list_lookup_lookup_total_lt.
      + now apply class_of_float64.
      + exact HrR.
      + apply class_of_float64 in Hv as [Hv Hy].
        exists v. split; [apply Hin; now split|exact Hy].
    - exists r. split; [apply Hin; now split|reflexivity]. }
  split; [|split; [exact Hkept|]].
  - intros r Hr Hfirst. apply Hin. split; [exact Hr|].
    assert (Hc : In (inject_Z (np.to_float64 (DRLSH.y d !!! r))) done).
    { apply Hdone. apply list_elem_of_In, list_elem_of_lookup. exists r.
      now apply list_lookup_lookup_total_lt. }
    apply (MoreDRLSH.net_first _ _ _ _ _ Hnet _ r Hc).
    assert (HrC : In r (MoreDRLSH.class_of
                          (map inject_Z (map np.to_float64 (DRLSH.y d)))
                          (inject_Z (np.to_float64 (DRLSH.y d !!! r)))))
      by now apply class_of_float64.
    pose proof (where_sorted
                  (map (fun l =>
                          Qeq_bool l
                            (inject_Z (np.to_float64 (DRLSH.y d !!! r))))
                     (map inject_Z (map np.to_float64 (DRLSH.y d)))))
      as Hs.
    fold (MoreDRLSH.class_of
            (map inject_Z (map np.to_float64 (DRLSH.y d)))
            (inject_Z (np.to_float64 (DRLSH.y d !!! r)))) in Hs.
    assert (Hmem : forall x,
              In x (MoreDRLSH.class_of
                      (map inject_Z (map np.to_float64 (DRLSH.y d)))
                      (inject_Z (np.to_float64 (DRLSH.y d !!! r)))) ->
              np.to_float64 (DRLSH.y d !!! x)
              = np.to_float64 (DRLSH.y d !!! r))
      by (intros x Hx; now apply class_of_float64 in Hx).
    destruct (MoreDRLSH.class_of
                (map inject_Z (map np.to_float64 (DRLSH.y d)))
                (inject_Z (np.to_float64 (DRLSH.y d !!! r))))
      as [|h t]; [contradiction|].
    simpl. f_equal.
    apply StronglySorted_inv in Hs as [_ Hh].
    rewrite List.Forall_forall in Hh.
    destruct HrC as [->|HrC]; [reflexivity|].
    exfalso. apply (Hfirst h (Hh r HrC)). apply Hmem. now left.
  - intros Hexact r Hr. destruct (Hkept r Hr) as (k & Hk & Hy).
    exists k. split; [exact Hk|].
    assert (Hk' : k < length (DRLSH.y d)) by (now apply Hin in Hk).
    rewrite !to_float64_exact in Hy; [exact Hy| |];
      apply Hexact, list_elem_of_In, list_elem_of_lookup; eexists;
      now apply list_lookup_lookup_total_lt.
Qed.

(** X13, on the six points: row 3 is the first of class 1. *)
Lemma X13_witness :
  snd (DRLSH._fit (lib := Examples.lib) 0 Examples.drlsh_one_table)
  = Ok [0; 2; 3; 4; 5]
  /\ In 3 [0; 2; 3; 4; 5].
Proof.
  assert (Hfit : snd (DRLSH._fit (lib := Examples.lib) 0
                        Examples.drlsh_one_table) = Ok [0; 2; 3; 4; 5])
    by (vm_compute; reflexivity).
  split; [exact Hfit|].
  apply (proj1 (X13_every_class_is_kept Examples.lib 0
                  Examples.drlsh_one_table _ Hfit) 3).
  - simpl. lia.
  - intros r' Hr'.
    destruct r' as [|[|[|r']]]; [| | |lia]; vm_compute; discriminate.
Defined.

Module DRLSH_threshold.
Import DRLSH.

(** The threshold is only compared with counts that are positive, so all
    thresholds up to 1 let the same instances through. *)
Lemma scan_body_low_ST N ST1 ST2 st :
  (ST1 <= 1)%Z -> (ST2 <= 1)%Z -> scan_body N ST1 st = scan_body N ST2 st.
Proof.
  intros H1 H2.
  assert (Heq : forall counts : list nat,
            map (fun f => (ST1 <=? Z.of_nat f)%Z)
              (np.mask_select counts (map (Nat.ltb 0) counts))
            = map (fun f => (ST2 <=? Z.of_nat f)%Z)
                (np.mask_select counts (map (Nat.ltb 0) counts))).
  { intros counts. apply map_ext_in. intros f Hf.
    rewrite mask_select_map in Hf. apply filter_In in Hf as [_ Hf].
    apply Nat.ltb_lt in Hf.
    rewrite (proj2 (Z.leb_le ST1 (Z.of_nat f))) by lia.
    now rewrite (proj2 (Z.leb_le ST2 (Z.of_nat f))) by lia. }
  unfold scan_body. cbv zeta. now rewrite Heq.
Qed.

Lemma scan_while_low_ST N ST1 ST2 fuel :
  (ST1 <= 1)%Z -> (ST2 <= 1)%Z ->
  forall st, scan_while fuel N ST1 st = scan_while fuel N ST2 st.
Proof.
  intros H1 H2. induction fuel as [|fuel IH]; intros st; simpl;
    [reflexivity|].
  destruct (iii st <? length (All_Indexes st)); [|reflexivity].
  now rewrite (scan_body_low_ST N ST1 ST2 st H1 H2), IH.
Qed.

Lemma fold_scan_class_low_ST N ST1 ST2 B labels Classes :
  (ST1 <= 1)%Z -> (ST2 <= 1)%Z ->
  forall R,
    fold_left (scan_class N ST1 B labels) Classes R
    = fold_left (scan_class N ST2 B labels) Classes R.
Proof.
  intros H1 H2. induction Classes as [|c Classes IH]; intros R; simpl;
    [reflexivity|].
  rewrite IH. f_equal. unfold scan_class. cbv zeta.
  now rewrite (scan_while_low_ST N ST1 ST2 _ H1 H2).
Qed.

End DRLSH_threshold.

(** X14: A threshold [ST] of 1 or less, zero and negative values included,
    gives the selection of [ST = 1]: DRLSH only ever flags instances that
    share at least one bucket with the current one. *)
Theorem X14_low_threshold_is_one (lib : Library) (g : rng)
    (d : DRLSH.self) :
  (DRLSH.ST d <= 1)%Z ->
  snd (DRLSH._fit g d)
  = snd (DRLSH._fit g
           (DRLSH.mk (DRLSH.M d) (DRLSH.L d) (DRLSH.W d) 1 (DRLSH.X d)
              (DRLSH.y d))).
Proof.
  intros HST. destruct d as [M L W ST X y].
  cbn [DRLSH.M DRLSH.L DRLSH.W DRLSH.ST DRLSH.X DRLSH.y] in *.
  unfold DRLSH._fit, DRLSH.hash_all. cbv zeta.
  cbn [DRLSH.M DRLSH.L DRLSH.W DRLSH.ST DRLSH.X DRLSH.y DRLSH.set_M].
  destruct (negb (length X =? length y)); [reflexivity|].
  destruct (np_random_normal _ _ _) as [a g1].
  destruct (np_random_rand _ _ _) as [r g2].
  cbn [snd]. f_equal. f_equal.
  apply DRLSH_threshold.fold_scan_class_low_ST; simpl; lia.
Qed.

(** X14, with [ST = 0] on the six points. *)
Lemma X14_witness :
  snd (DRLSH._fit (lib := Examples.lib) 0 MoreDRLSH.drlsh_zero_ST)
  = snd (DRLSH._fit (lib := Examples.lib) 0
           (DRLSH.mk 10 3 1 1 Examples.X6 Examples.y6)).
Proof.
  apply (X14_low_threshold_is_one Examples.lib 0 MoreDRLSH.drlsh_zero_ST).
  simpl. lia.
Defined.
